(** * SysY compiler: constant folder, const evaluator and IR emitter

    A shallow embedding of the AST ([src/ast/ast.h]), of the constant
    folding pass ([src/ast/constant_folding.h]), of the optimisation
    driver ([src/ast/ast_optimizer.h]) and of the parts of the IR
    generator ([src/codegen/ir_generator.cpp]) that the specification
    talks about, with the properties of the specification stated and
    proved (or refuted) against them. *)

From Stdlib Require Import ZArith Lia Bool List.
From Stdlib Require Import Floats.SpecFloat.
From stdpp Require Import base option list strings pretty gmap.

Set Warnings "-register-all".

Local Open Scope Z_scope.

(** ** Machine numbers *)

(** C++ [int] is a 32-bit two's-complement integer.  It is modelled as a
    [Z] in the range of [in_int]; the result of an addition, a
    subtraction or a multiplication is brought back into the range by
    [wrap32].  (Signed overflow is undefined in C++; for these three
    operations the model takes the wrap-around result the target
    machines produce.  For the division see [int_div] below.) *)
Definition INT_MIN : Z := - 2 ^ 31.
Definition INT_MAX : Z := 2 ^ 31 - 1.

Definition in_int (z : Z) : Prop := INT_MIN <= z <= INT_MAX.

Definition wrap32 (z : Z) : Z := (z + 2 ^ 31) mod 2 ^ 32 - 2 ^ 31.

(** C++ [bool] converted to [int]. *)
Definition int_of_bool (b : bool) : Z := if b then 1 else 0.

(** [lhs / rhs] and [lhs % rhs] for a non-zero [rhs], as the division
    instruction of the target (x86-64 [idiv]) computes them.  The
    quotient of [INT_MIN] by [-1] is not a 32-bit integer: the
    instruction raises the divide error and the process is killed by
    [SIGFPE], for the remainder as for the quotient.  [None] stands for
    that end of the process. *)
Definition division_traps (lhs rhs : Z) : bool := (lhs =? INT_MIN) && (rhs =? -1).

Definition int_div (lhs rhs : Z) : option Z :=
  if division_traps lhs rhs then None else Some (wrap32 (Z.quot lhs rhs)).

Definition int_rem (lhs rhs : Z) : option Z :=
  if division_traps lhs rhs then None else Some (wrap32 (Z.rem lhs rhs)).

(** C++ [float] is IEEE-754 binary32: 24 bits of precision, exponents
    below 128. *)
Definition float : Type := spec_float.
Definition float_prec : Z := 24.
Definition float_emax : Z := 128.

Definition fzero : float := S754_zero false.
Definition fone : float := Eval cbv in SFone float_prec float_emax.

Definition fadd : float -> float -> float := SFadd float_prec float_emax.
Definition fsub : float -> float -> float := SFsub float_prec float_emax.
Definition fmul : float -> float -> float := SFmul float_prec float_emax.
Definition fdiv : float -> float -> float := SFdiv float_prec float_emax.

(** [x != 0.0f]: true for NaN as well. *)
Definition fnonzero (x : float) : bool := negb (SFeqb x fzero).
Definition float_of_bool (b : bool) : float := if b then fone else fzero.

(** ** The AST ([src/ast/ast.h]) *)

Module TypeAST.
Inductive Kind := INT | FLOAT | VOID | VECTOR.
End TypeAST.

Inductive BinaryOperator :=
  ADD | SUB | MUL | DIV | MOD | LT | GT | LE | GE | EQ | NE | AND | OR.

Inductive UnaryOperator := PLUS | MINUS | NOT.

(** Expressions.  Every node carries its source line ([-1] when
    unknown), which the folder copies into the nodes it creates. *)
Inductive ExprAST :=
| IntConstExprAST (value : Z) (line : Z)
| FloatConstExprAST (value : float) (line : Z)
| LValExprAST (name : string) (indices : list ExprAST) (line : Z)
| BinaryExprAST (op : BinaryOperator) (lhs rhs : ExprAST) (line : Z)
| UnaryExprAST (op : UnaryOperator) (operand : ExprAST) (line : Z)
| CallExprAST (callee : string) (args : list ExprAST) (line : Z)
| StringLiteralExprAST (value : string) (line : Z).

Record TypeAST := mkTypeAST {
  kind : TypeAST.Kind;
  vectorElementKind : TypeAST.Kind;
  vectorSizeExpr : option ExprAST
}.

Inductive InitValAST :=
| ExprInitValAST (expr : ExprAST)
| ListInitValAST (initVals : list InitValAST).

(** [VarDefAST] and [ConstDefAST] have the same three fields. *)
Record DefAST := mkDef {
  def_name : string;
  arraySizes : list ExprAST;
  initVal : option InitValAST
}.

Inductive DeclAST :=
| VarDeclAST (type : TypeAST) (varDefs : list DefAST)
| ConstDeclAST (type : TypeAST) (constDefs : list DefAST).

Inductive BlockItemOf (S : Type) :=
| DeclBlockItemAST (decl : DeclAST)
| StmtBlockItemAST (stmt : S).
Arguments DeclBlockItemAST {S} decl.
Arguments StmtBlockItemAST {S} stmt.

Inductive StmtAST :=
| AssignStmtAST (lval_name : string) (lval_indices : list ExprAST) (lval_line : Z)
                (expr : ExprAST)
| ExprStmtAST (expr : option ExprAST)
| ReturnStmtAST (returnValue : option ExprAST)
| IfStmtAST (condition : ExprAST) (thenStmt : StmtAST) (elseStmt : option StmtAST)
| WhileStmtAST (condition : ExprAST) (body : StmtAST)
| BreakStmtAST
| ContinueStmtAST
| BlockStmt (items : list (BlockItemOf StmtAST)).

Abbreviation BlockItemAST := (BlockItemOf StmtAST).
Definition BlockAST : Type := list BlockItemAST.

Record FuncFParamAST := mkParam {
  param_type : TypeAST;
  param_name : string;
  param_isArray : bool;
  param_arraySizes : list ExprAST
}.

Record FunctionAST := mkFunction {
  returnType : TypeAST;
  func_name : string;
  params : list FuncFParamAST;
  func_body : BlockAST
}.

Record CompUnitAST := mkCompUnit {
  decls : list DeclAST;
  functions : list FunctionAST
}.

(** [ExprAST::isConstant]: only the two literal classes override it. *)
Definition isConstant (e : ExprAST) : bool :=
  match e with
  | IntConstExprAST _ _ | FloatConstExprAST _ _ => true
  | _ => false
  end.

(** [ExprAST::clone]: a deep copy, node by node. *)
Fixpoint clone (e : ExprAST) : ExprAST :=
  match e with
  | IntConstExprAST v l => IntConstExprAST v l
  | FloatConstExprAST v l => FloatConstExprAST v l
  | LValExprAST n idx l => LValExprAST n (map clone idx) l
  | BinaryExprAST op a b l => BinaryExprAST op (clone a) (clone b) l
  | UnaryExprAST op a l => UnaryExprAST op (clone a) l
  | CallExprAST f args l => CallExprAST f (map clone args) l
  | StringLiteralExprAST s l => StringLiteralExprAST s l
  end.

(** ** The constant folder ([src/ast/constant_folding.h])

    The folder is plain C++ without exceptions: a call returns, or the
    process is killed by the trap of a division ([int_div]).  A function
    of the folder is modelled with an [option] result, [None] for the
    killed process. *)

Module ConstantFolder.

(** [int evaluateBinaryOp(Operator, int, int)]. *)
Definition evaluateBinaryOp_int (op : BinaryOperator) (lhs rhs : Z) : option Z :=
  match op with
  | ADD => Some (wrap32 (lhs + rhs))
  | SUB => Some (wrap32 (lhs - rhs))
  | MUL => Some (wrap32 (lhs * rhs))
  | DIV => if negb (rhs =? 0) then int_div lhs rhs else Some 0
  | MOD => if negb (rhs =? 0) then int_rem lhs rhs else Some 0
  | LT => Some (int_of_bool (lhs <? rhs))
  | GT => Some (int_of_bool (lhs >? rhs))
  | LE => Some (int_of_bool (lhs <=? rhs))
  | GE => Some (int_of_bool (lhs >=? rhs))
  | EQ => Some (int_of_bool (lhs =? rhs))
  | NE => Some (int_of_bool (negb (lhs =? rhs)))
  | AND => Some (int_of_bool (negb (lhs =? 0) && negb (rhs =? 0)))
  | OR => Some (int_of_bool (negb (lhs =? 0) || negb (rhs =? 0)))
  end.

(** [float evaluateBinaryOp(Operator, float, float)]. *)
Definition evaluateBinaryOp_float (op : BinaryOperator) (lhs rhs : float) : float :=
  match op with
  | ADD => fadd lhs rhs
  | SUB => fsub lhs rhs
  | MUL => fmul lhs rhs
  | DIV => if fnonzero rhs then fdiv lhs rhs else fzero
  | MOD => fzero
  | LT => float_of_bool (SFltb lhs rhs)
  | GT => float_of_bool (SFltb rhs lhs)
  | LE => float_of_bool (SFleb lhs rhs)
  | GE => float_of_bool (SFleb rhs lhs)
  | EQ => float_of_bool (SFeqb lhs rhs)
  | NE => float_of_bool (negb (SFeqb lhs rhs))
  | AND => float_of_bool (fnonzero lhs && fnonzero rhs)
  | OR => float_of_bool (fnonzero lhs || fnonzero rhs)
  end.

(** [int evaluateUnaryOp(Operator, int)]. *)
Definition evaluateUnaryOp_int (op : UnaryOperator) (operand : Z) : Z :=
  match op with
  | PLUS => operand
  | MINUS => wrap32 (- operand)
  | NOT => int_of_bool (operand =? 0)
  end.

(** [float evaluateUnaryOp(Operator, float)]. *)
Definition evaluateUnaryOp_float (op : UnaryOperator) (operand : float) : float :=
  match op with
  | PLUS => operand
  | MINUS => SFopp operand
  | NOT => float_of_bool (negb (fnonzero operand))
  end.

(** [foldAndReplaceExpr]: the folded expression, always returned in
    newly allocated nodes.  (The null pointer case of the source is the
    [None] of the optional slots below.) *)
Fixpoint foldAndReplaceExpr (expr : ExprAST) : option ExprAST :=
  match expr with
  | IntConstExprAST _ _ | FloatConstExprAST _ _ => Some (clone expr)
  | BinaryExprAST op l r line =>
      lhs ← foldAndReplaceExpr l;
      rhs ← foldAndReplaceExpr r;
      match lhs, rhs with
      | IntConstExprAST a _, IntConstExprAST b _ =>
          result ← evaluateBinaryOp_int op a b;
          Some (IntConstExprAST result line)
      | FloatConstExprAST a _, FloatConstExprAST b _ =>
          Some (FloatConstExprAST (evaluateBinaryOp_float op a b) line)
      | _, _ => Some (BinaryExprAST op lhs rhs line)
      end
  | UnaryExprAST op o line =>
      operand ← foldAndReplaceExpr o;
      match operand with
      | IntConstExprAST a _ => Some (IntConstExprAST (evaluateUnaryOp_int op a) line)
      | FloatConstExprAST a _ =>
          Some (FloatConstExprAST (evaluateUnaryOp_float op a) line)
      | _ => Some (UnaryExprAST op operand line)
      end
  | CallExprAST callee args line =>
      newArgs ← mapM foldAndReplaceExpr args;
      Some (CallExprAST callee newArgs line)
  | LValExprAST name indices line =>
      newIndices ← mapM foldAndReplaceExpr indices;
      Some (LValExprAST name newIndices line)
  | StringLiteralExprAST _ _ => Some (clone expr)
  end.

(** The test [folded.get() != slot->getExpr()] that every caller of
    [foldAndReplaceExpr] makes.  The left pointer owns a node that the
    call has just allocated ([make_unique] or [clone]); the right one is
    the node still owned by the slot.  Both objects are alive, so their
    addresses differ whatever the two trees contain: the test is true
    for every non-null slot. *)
Definition folded_ptr_differs (folded old : ExprAST) : bool := true.

(** A slot holding an expression: fold it, store the result, report. *)
Definition foldSlot (e : ExprAST) : option (ExprAST * bool) :=
  foldedExpr ← foldAndReplaceExpr e;
  if folded_ptr_differs foldedExpr e then Some (foldedExpr, true) else Some (e, false).

(** An optional slot ([ExprStmtAST], [ReturnStmtAST]): skipped when null. *)
Definition foldOptSlot (e : option ExprAST) : option (option ExprAST * bool) :=
  match e with
  | Some e => '(e', c) ← foldSlot e; Some (Some e', c)
  | None => Some (None, false)
  end.

(** [foldInitVal]. *)
Fixpoint foldInitVal (initVal : InitValAST) : option (InitValAST * bool) :=
  match initVal with
  | ExprInitValAST e =>
      '(e', c) ← foldSlot e; Some (ExprInitValAST e', c)
  | ListInitValAST initVals =>
      '(initVals', changed) ←
        (fix loop (l : list InitValAST) (changed : bool)
             : option (list InitValAST * bool) :=
           match l with
           | [] => Some ([], changed)
           | v :: rest =>
               '(v', c) ← foldInitVal v;
               '(rest', changed') ← loop rest (if (c : bool) then true else changed);
               Some (v' :: rest', changed')
           end) initVals false;
      Some (ListInitValAST initVals', changed)
  end.

(** The loop over the definitions of one declaration. *)
Fixpoint foldDefs (defs : list DefAST) (changed : bool) : option (list DefAST * bool) :=
  match defs with
  | [] => Some ([], changed)
  | d :: rest =>
      '(d', c) ←
        match initVal d with
        | Some iv => '(iv', c) ← foldInitVal iv;
                     Some (mkDef (def_name d) (arraySizes d) (Some iv'), c)
        | None => Some (d, false)
        end;
      '(rest', changed') ← foldDefs rest (changed || c);
      Some (d' :: rest', changed')
  end.

(** [foldDecl]. *)
Definition foldDecl (decl : DeclAST) : option (DeclAST * bool) :=
  match decl with
  | VarDeclAST t defs =>
      '(defs', c) ← foldDefs defs false; Some (VarDeclAST t defs', c)
  | ConstDeclAST t defs =>
      '(defs', c) ← foldDefs defs false; Some (ConstDeclAST t defs', c)
  end.

(** [foldStmt], with [foldBlock] as its inner loop. *)
Fixpoint foldStmt (stmt : StmtAST) : option (StmtAST * bool) :=
  match stmt with
  | AssignStmtAST n idx l e =>
      '(e', c) ← foldSlot e; Some (AssignStmtAST n idx l e', c)
  | IfStmtAST cond thenS elseS =>
      '(cond', c1) ← foldSlot cond;
      '(thenS', c2) ← foldStmt thenS;
      '(elseS', c3) ←
        match elseS with
        | Some s => '(s', c) ← foldStmt s; Some (Some s', c)
        | None => Some (None, false)
        end;
      let changed := c1 || c2 || c3 in
      (* "if the condition is a constant it can be simplified directly":
         the body of this test only sets the flag *)
      let changed := match cond' with
                     | IntConstExprAST _ _ => true
                     | _ => changed
                     end in
      Some (IfStmtAST cond' thenS' elseS', changed)
  | WhileStmtAST cond body =>
      '(cond', c1) ← foldSlot cond;
      '(body', c2) ← foldStmt body;
      Some (WhileStmtAST cond' body', c1 || c2)
  | BlockStmt items =>
      '(items', changed) ←
        (fix foldBlock (l : list BlockItemAST) (changed : bool)
             : option (list BlockItemAST * bool) :=
           match l with
           | [] => Some ([], changed)
           | StmtBlockItemAST s :: rest =>
               '(s', c) ← foldStmt s;
               '(rest', changed') ← foldBlock rest (changed || c);
               Some (StmtBlockItemAST s' :: rest', changed')
           | DeclBlockItemAST d :: rest =>
               '(d', c) ← foldDecl d;
               '(rest', changed') ← foldBlock rest (changed || c);
               Some (DeclBlockItemAST d' :: rest', changed')
           end) items false;
      Some (BlockStmt items', changed)
  | ExprStmtAST e => '(e', c) ← foldOptSlot e; Some (ExprStmtAST e', c)
  | ReturnStmtAST e => '(e', c) ← foldOptSlot e; Some (ReturnStmtAST e', c)
  | BreakStmtAST => Some (BreakStmtAST, false)
  | ContinueStmtAST => Some (ContinueStmtAST, false)
  end.

(** [foldBlock], as called on a function body. *)
Definition foldBlock (block : BlockAST) : option (BlockAST * bool) :=
  '(s, c) ← foldStmt (BlockStmt block);
  Some (match s with BlockStmt items => items | _ => block end, c).

(** [foldFunction]. *)
Definition foldFunction (func : FunctionAST) : option (FunctionAST * bool) :=
  '(b, c) ← foldBlock (func_body func);
  Some (mkFunction (returnType func) (func_name func) (params func) b, c).

(** [fold]: the global declarations, then the functions. *)
Fixpoint foldDecls (l : list DeclAST) (changed : bool) : option (list DeclAST * bool) :=
  match l with
  | [] => Some ([], changed)
  | d :: rest =>
      '(d', c) ← foldDecl d;
      '(rest', changed') ← foldDecls rest (changed || c);
      Some (d' :: rest', changed')
  end.

Fixpoint foldFunctions (l : list FunctionAST) (changed : bool)
  : option (list FunctionAST * bool) :=
  match l with
  | [] => Some ([], changed)
  | f :: rest =>
      '(f', c) ← foldFunction f;
      '(rest', changed') ← foldFunctions rest (changed || c);
      Some (f' :: rest', changed')
  end.

Definition fold (ast : CompUnitAST) : option (CompUnitAST * bool) :=
  '(ds, c1) ← foldDecls (decls ast) false;
  '(fs, c2) ← foldFunctions (functions ast) c1;
  Some (mkCompUnit ds fs, c2).

End ConstantFolder.

(** ** The integer semantics of the specification

    Written after the specification's words, independently of the
    folder: 32-bit two's-complement arithmetic on bit patterns. *)
Module Int32Spec.

(** The 32-bit pattern of an integer, as an unsigned number. *)
Definition to_bits (z : Z) : Z := Z.land z (Z.ones 32).

(** The signed integer a 32-bit pattern stands for: bit 31 is the sign. *)
Definition of_bits (u : Z) : Z := if Z.testbit u 31 then u - 2 ^ 32 else u.

(** Truncating wrap-around. *)
Definition truncate (z : Z) : Z := of_bits (to_bits z).

(** C-style truth. *)
Definition truth (z : Z) : bool := negb (z =? 0).

Definition binop (op : BinaryOperator) (a b : Z) : Z :=
  match op with
  | ADD => truncate (a + b)
  | SUB => truncate (a - b)
  | MUL => truncate (a * b)
  | DIV => if b =? 0 then 0 else truncate (Z.quot a b)
  | MOD => if b =? 0 then 0 else truncate (Z.rem a b)
  | LT => if a <? b then 1 else 0
  | GT => if b <? a then 1 else 0
  | LE => if a <=? b then 1 else 0
  | GE => if b <=? a then 1 else 0
  | EQ => if a =? b then 1 else 0
  | NE => if a =? b then 0 else 1
  | AND => if truth a && truth b then 1 else 0
  | OR => if truth a || truth b then 1 else 0
  end.

(** The one division whose quotient is not a 32-bit integer: the
    smallest integer by -1. *)
Definition overflows (op : BinaryOperator) (a b : Z) : bool :=
  match op with
  | DIV | MOD => (a =? - 2 ^ 31) && (b =? -1)
  | _ => false
  end.

End Int32Spec.

(** ** The optimisation driver ([src/ast/ast_optimizer.h]) *)

Module ASTOptimizer.

Record t := mk { verbose : bool; passCount : Z }.

(** The constructor: [passCount(0)]. *)
Definition init (verbose : bool) : t := mk verbose 0.

(** How a run of the driver ends: it returns, or a pass is killed by
    the trap of a division.  ([Unfinished] is for the model alone: the
    loop was not unrolled often enough.) *)
Inductive Run (A : Type) :=
| Returns (a : A)
| Trapped
| Unfinished.
Arguments Returns {A} a.
Arguments Trapped {A}.
Arguments Unfinished {A}.

(** The loop of [optimize]:
    [while (changed && passCount < 8) { passCount++; changed = false;
       changed |= constantFolder.fold(ast); }].
    [fuel] bounds the number of iterations the model may unroll. *)
Fixpoint optimize_loop (fuel : nat) (passCount : Z) (changed : bool)
    (ast : CompUnitAST) : Run (Z * CompUnitAST) :=
  if changed && (passCount <? 8) then
    match fuel with
    | O => Unfinished
    | S fuel' =>
        let passCount := passCount + 1 in
        let changed := false in
        match ConstantFolder.fold ast with
        | Some (ast', c) => optimize_loop fuel' passCount (changed || c) ast'
        | None => Trapped
        end
    end
  else Returns (passCount, ast).

(** [optimize], unrolled as often as the pass bound leaves room for. *)
Definition optimize (o : t) (ast : CompUnitAST) : Run (t * CompUnitAST) :=
  match optimize_loop (Z.to_nat (8 - passCount o)) (passCount o) true ast with
  | Returns (pc, ast') => Returns (mk (verbose o) pc, ast')
  | Trapped => Trapped
  | Unfinished => Unfinished
  end.

End ASTOptimizer.

(** ** The IR the generator builds ([llvm::Type], [llvm::Value]) *)

(** [llvm::Type].  The generator is built against an LLVM with opaque
    pointers ([llvm/TargetParser/Host.h]): [PointerType::get(T, 0)] is
    the one pointer type whatever [T] is. *)
Inductive Ty :=
| VoidTy
| IntegerTy (bits : N)
| FloatTy
| DoubleTy
| PointerTy
| ArrayTy (elem : Ty) (n : Z)
| VectorTy (elem : Ty) (n : Z).

Definition Int1Ty : Ty := IntegerTy 1.
Definition Int8Ty : Ty := IntegerTy 8.
Definition Int32Ty : Ty := IntegerTy 32.

Fixpoint Ty_eqb (a b : Ty) : bool :=
  match a, b with
  | VoidTy, VoidTy | FloatTy, FloatTy | DoubleTy, DoubleTy
  | PointerTy, PointerTy => true
  | IntegerTy x, IntegerTy y => N.eqb x y
  | ArrayTy e n, ArrayTy e' n' => Ty_eqb e e' && (n =? n')
  | VectorTy e n, VectorTy e' n' => Ty_eqb e e' && (n =? n')
  | _, _ => false
  end.

Definition isVoidTy (t : Ty) : bool := match t with VoidTy => true | _ => false end.
Definition isIntegerTy (t : Ty) : bool := match t with IntegerTy _ => true | _ => false end.
Definition isFloatTy (t : Ty) : bool := match t with FloatTy => true | _ => false end.
Definition isFloatingPointTy (t : Ty) : bool :=
  match t with FloatTy | DoubleTy => true | _ => false end.
Definition isPointerTy (t : Ty) : bool := match t with PointerTy => true | _ => false end.
Definition isArrayTy (t : Ty) : bool := match t with ArrayTy _ _ => true | _ => false end.
Definition isVectorTy (t : Ty) : bool := match t with VectorTy _ _ => true | _ => false end.

Inductive IPred := ICMP_EQ | ICMP_NE | ICMP_SLT | ICMP_SGT | ICMP_SLE | ICMP_SGE.
Inductive FPred := FCMP_OEQ | FCMP_ONE | FCMP_OLT | FCMP_OGT | FCMP_OLE | FCMP_OGE.

(** The requests to [llvm::IRBuilder] that compute a value from values. *)
Inductive Opcode :=
| Add | Sub | Mul | SDiv | SRem
| FAdd | FSub | FMul | FDiv | FNeg
| And_ | Or_
| ICmp (p : IPred) | FCmp (p : FPred)
| SIToFP | FPToSI | FPExt | IntCast (isSigned : bool) | BitCast
| ExtractElement | InsertElement | VectorSplat (numElts : Z)
| GetElementPtr (sourceTy : Ty).

(** [llvm::Value].  Constants are kept as the generator asks for them
    (LLVM stores aggregates in a canonical form of its own, with the
    same elements); an instruction is referred to by its number. *)
Inductive Value :=
| ConstantInt (ty : Ty) (v : Z)
| ConstantFP (ty : Ty) (v : float)
| ConstantAggregateZero (ty : Ty)
| ConstantPointerNull
| UndefValue (ty : Ty)
| ConstantArray (ty : Ty) (elems : list Value)
| ConstantVector (ty : Ty) (elems : list Value)
| ConstantExpr (op : Opcode) (operands : list Value) (ty : Ty)
| GlobalVariable (id : nat) (valueType : Ty)
| Argument (argNo : nat) (ty : Ty)
| AllocaInst (id : nat) (allocatedType : Ty)
| LoadInst (id : nat) (ty : Ty)
| GetElementPtrInst (id : nat) (resultElementType : Ty)
| Instruction (id : nat) (ty : Ty).

(** [Value::getType]. *)
Definition getType_of (v : Value) : Ty :=
  match v with
  | ConstantInt ty _ | ConstantFP ty _ | ConstantAggregateZero ty
  | UndefValue ty | ConstantArray ty _ | ConstantVector ty _
  | ConstantExpr _ _ ty | Argument _ ty | LoadInst _ ty | Instruction _ ty => ty
  | ConstantPointerNull | GlobalVariable _ _ | AllocaInst _ _
  | GetElementPtrInst _ _ => PointerTy
  end.

(** [llvm::isa<llvm::Constant>]: global objects are constants too. *)
Definition isa_Constant (v : Value) : bool :=
  match v with
  | ConstantInt _ _ | ConstantFP _ _ | ConstantAggregateZero _
  | ConstantPointerNull | UndefValue _ | ConstantArray _ _
  | ConstantVector _ _ | ConstantExpr _ _ _ | GlobalVariable _ _ => true
  | _ => false
  end.

Definition isa_ConstantInt (v : Value) : bool :=
  match v with ConstantInt _ _ => true | _ => false end.

(** [Constant::getNullValue]. *)
Definition getNullValue (ty : Ty) : Value :=
  match ty with
  | IntegerTy _ => ConstantInt ty 0
  | FloatTy | DoubleTy => ConstantFP ty fzero
  | PointerTy => ConstantPointerNull
  | _ => ConstantAggregateZero ty
  end.

(** Instructions, as inserted at the insertion point.  Blocks are
    referred to by number. *)
Inductive Instr :=
| IAlloca (id : nat) (ty : Ty) (name : string)
| ILoad (id : nat) (ty : Ty) (ptr : Value) (name : string)
| IStore (val ptr : Value)
| IGetElementPtr (id : nat) (sourceTy : Ty) (base : Value) (indices : list Value)
                 (name : string)
| IOp (id : nat) (op : Opcode) (operands : list Value) (ty : Ty) (name : string)
| ICall (id : nat) (callee : string) (args : list Value) (ty : Ty) (name : string)
| IBr (dest : nat)
| ICondBr (cond : Value) (ifTrue ifFalse : nat)
| IRet (v : option Value).

Definition isTerminator (i : Instr) : bool :=
  match i with IBr _ | ICondBr _ _ _ | IRet _ => true | _ => false end.

(** The constant folder of [llvm::IRBuilder<>] ([llvm::ConstantFolder]):
    the builder hands it every request that computes a value, and when
    it answers with a constant no instruction is inserted.  It answers
    only when every operand is a constant ([dyn_cast<Constant>] on each
    of them), and then with a constant.  What it answers is LLVM's
    business; the generator is modelled over any such folder. *)
Class IRBuilderFolder := {
  Fold : Opcode -> list Value -> Ty -> option Value;
  Fold_constant : forall op args ty c,
    Fold op args ty = Some c -> isa_Constant c = true;
  Fold_operands : forall op args ty c,
    Fold op args ty = Some c -> forallb isa_Constant args = true
}.

(** The folder that never folds. *)
Program Definition NoFolder : IRBuilderFolder := {| Fold := fun _ _ _ => None |}.
Next Obligation. discriminate. Qed.
Next Obligation. discriminate. Qed.

(** ** The IR generator ([src/codegen/ir_generator.cpp]) *)

Module IRGenerator.

(** How a call of the generator ends without a result: it throws a
    [std::runtime_error], which carries its message, or the process is
    killed by a signal (the trap of a division, a null pointer that is
    dereferenced). *)
Inductive Signal := SIGFPE | SIGSEGV.

Inductive Failure :=
| Thrown (msg : string)
| Killed (sig : Signal).

Coercion Thrown : string >-> Failure.

Inductive Result (A : Type) :=
| Ok (a : A)
| Err (f : Failure).
Arguments Ok {A} a.
Arguments Err {A} f.


Record FunctionType := mkFunctionType {
  ft_ret : Ty;
  ft_params : list Ty;
  ft_isVarArg : bool
}.

Inductive Linkage := ExternalLinkage | InternalLinkage | PrivateLinkage.

(** [llvm::Function], as far as the generator reads it back. *)
Record Function := mkLLVMFunction {
  fn_id : nat;
  fn_name : string;
  fn_type : FunctionType;
  fn_linkage : Linkage
}.

(** [llvm::GlobalVariable]: the object a [GlobalVariable] value points to. *)
Record GlobalObject := mkGlobal {
  gv_id : nat;
  gv_name : string;
  gv_valueType : Ty;
  gv_isConstant : bool;
  gv_linkage : Linkage;
  gv_initializer : option Value
}.

(** [struct SymbolInfo]. *)
Record SymbolInfo := mkSymbolInfo {
  value : Value;
  isConst : bool;
  isArray : bool;
  arrayElementType : option Ty;
  loadedArrayPtr : option Value
}.

(** The two constructors of [SymbolInfo] the generator uses. *)
Definition SymbolInfo3 (v : Value) (c a : bool) : SymbolInfo :=
  mkSymbolInfo v c a None None.
Definition SymbolInfo4 (v : Value) (c a : bool) (elemType : Ty) : SymbolInfo :=
  mkSymbolInfo v c a (Some elemType) None.

Record LibraryFunction := mkLibraryFunction {
  lib_name : string;
  lib_type : FunctionType;
  isVariadic : bool
}.

(** The generator: its own fields, the module being built, and the
    state of the builder (insertion block, the instructions inserted so
    far in order of insertion, each with the block it went to).
    [symbolTableStack] has the innermost scope first.  [lastUnique] is
    the counter of the symbol table of the module, from which the
    suffix of a renamed global value is taken. *)
Record t := mkGen {
  symbolTableStack : list (gmap string SymbolInfo);
  currentFunction : option Function;
  breakTargets : list nat;
  continueTargets : list nat;
  libraryFunctions : gmap string LibraryFunction;
  module_globals : list GlobalObject;
  module_functions : list Function;
  block_parent : gmap nat (string * option nat);
  insertBlock : option nat;
  emitted : list (option nat * Instr);
  nextId : nat;
  lastUnique : nat
}.

Definition set_symbolTableStack (x : list (gmap string SymbolInfo)) (s : t) : t :=
  mkGen x (currentFunction s) (breakTargets s) (continueTargets s)
        (libraryFunctions s) (module_globals s) (module_functions s)
        (block_parent s) (insertBlock s) (emitted s) (nextId s) (lastUnique s).
Definition set_currentFunction (x : option Function) (s : t) : t :=
  mkGen (symbolTableStack s) x (breakTargets s) (continueTargets s)
        (libraryFunctions s) (module_globals s) (module_functions s)
        (block_parent s) (insertBlock s) (emitted s) (nextId s) (lastUnique s).
Definition set_loopTargets (b c : list nat) (s : t) : t :=
  mkGen (symbolTableStack s) (currentFunction s) b c
        (libraryFunctions s) (module_globals s) (module_functions s)
        (block_parent s) (insertBlock s) (emitted s) (nextId s) (lastUnique s).
Definition set_libraryFunctions (x : gmap string LibraryFunction) (s : t) : t :=
  mkGen (symbolTableStack s) (currentFunction s) (breakTargets s) (continueTargets s)
        x (module_globals s) (module_functions s)
        (block_parent s) (insertBlock s) (emitted s) (nextId s) (lastUnique s).
Definition set_module_globals (x : list GlobalObject) (s : t) : t :=
  mkGen (symbolTableStack s) (currentFunction s) (breakTargets s) (continueTargets s)
        (libraryFunctions s) x (module_functions s)
        (block_parent s) (insertBlock s) (emitted s) (nextId s) (lastUnique s).
Definition set_module_functions (x : list Function) (s : t) : t :=
  mkGen (symbolTableStack s) (currentFunction s) (breakTargets s) (continueTargets s)
        (libraryFunctions s) (module_globals s) x
        (block_parent s) (insertBlock s) (emitted s) (nextId s) (lastUnique s).
Definition set_block_parent (x : gmap nat (string * option nat)) (s : t) : t :=
  mkGen (symbolTableStack s) (currentFunction s) (breakTargets s) (continueTargets s)
        (libraryFunctions s) (module_globals s) (module_functions s)
        x (insertBlock s) (emitted s) (nextId s) (lastUnique s).
Definition set_insertBlock (x : option nat) (s : t) : t :=
  mkGen (symbolTableStack s) (currentFunction s) (breakTargets s) (continueTargets s)
        (libraryFunctions s) (module_globals s) (module_functions s)
        (block_parent s) x (emitted s) (nextId s) (lastUnique s).
Definition set_emitted (x : list (option nat * Instr)) (s : t) : t :=
  mkGen (symbolTableStack s) (currentFunction s) (breakTargets s) (continueTargets s)
        (libraryFunctions s) (module_globals s) (module_functions s)
        (block_parent s) (insertBlock s) x (nextId s) (lastUnique s).
Definition set_nextId (x : nat) (s : t) : t :=
  mkGen (symbolTableStack s) (currentFunction s) (breakTargets s) (continueTargets s)
        (libraryFunctions s) (module_globals s) (module_functions s)
        (block_parent s) (insertBlock s) (emitted s) x (lastUnique s).
Definition set_lastUnique (x : nat) (s : t) : t :=
  mkGen (symbolTableStack s) (currentFunction s) (breakTargets s) (continueTargets s)
        (libraryFunctions s) (module_globals s) (module_functions s)
        (block_parent s) (insertBlock s) (emitted s) (nextId s) x.

(** The generator before [generate]: nothing declared, no scope. *)
Definition empty : t := mkGen [] None [] [] ∅ [] [] ∅ None [] 0 0.

(** [llvm::verifyFunction] and [llvm::verifyModule], which the
    generator calls on what it has built: the message when the function
    or the module is broken.  What they check is LLVM's business; the
    generator is modelled over any verifier that has the one check the
    development relies on ([Verifier::visitICmpInst]: "Both operands to
    ICmp instruction are not of the same type!"). *)
Class Verifier := {
  verifyFunction : Function -> t -> option string;
  verifyModule : t -> option string;
  verifyFunction_icmp : forall f s b blockName id p lhs rhs ty name,
    In (Some b, IOp id (ICmp p) [lhs; rhs] ty name) (emitted s) ->
    block_parent s !! b = Some (blockName, Some (fn_id f)) ->
    getType_of lhs <> getType_of rhs ->
    is_Some (verifyFunction f s)
}.

(** The verifier that makes this check and no other. *)
Definition icmp_operands_differ (i : Instr) : bool :=
  match i with
  | IOp _ (ICmp _) [lhs; rhs] _ _ => negb (Ty_eqb (getType_of lhs) (getType_of rhs))
  | _ => false
  end.

(** The instructions of the blocks of a function. *)
Definition in_function (f : Function) (s : t) (e : option nat * Instr) : bool :=
  match fst e with
  | Some b =>
      match block_parent s !! b with
      | Some (_, Some parent) => Nat.eqb parent (fn_id f)
      | _ => false
      end
  | None => false
  end.

Program Definition ICmpVerifier : Verifier := {|
  verifyFunction f s :=
    if existsb (fun e => in_function f s e && icmp_operands_differ (snd e)) (emitted s)
    then Some "Both operands to ICmp instruction are not of the same type!"
    else None;
  verifyModule s := None
|}.
Next Obligation.
  intros f s b blockName id p lhs rhs ty name Hin Hb Hty.
  assert (E : existsb (fun e => in_function f s e && icmp_operands_differ (snd e))
                      (emitted s) = true).
  { apply existsb_exists. eexists. split; [exact Hin|].
    unfold in_function. cbn [fst snd]. rewrite Hb. rewrite Nat.eqb_refl.
    cbn [andb icmp_operands_differ].
    destruct (Ty_eqb (getType_of lhs) (getType_of rhs)) eqn:Eq; [|reflexivity].
    exfalso. apply Hty. clear - Eq.
    revert Eq. generalize (getType_of lhs) (getType_of rhs). intros a.
    induction a; intros [] E; simpl in E; try discriminate; try reflexivity.
    - apply N.eqb_eq in E. congruence.
    - apply andb_true_iff in E as [E1 E2]. apply IHa in E1. apply Z.eqb_eq in E2.
      congruence.
    - apply andb_true_iff in E as [E1 E2]. apply IHa in E1. apply Z.eqb_eq in E2.
      congruence. }
  cbv beta. rewrite E. eexists. reflexivity.
Qed.

(** Code of the generator: it reads and updates the generator, and
    either returns, throws or is killed. *)
Definition M (A : Type) : Type := t -> Result (A * t).

#[export] Instance M_ret : MRet M := fun A a s => Ok (a, s).
#[export] Instance M_bind : MBind M := fun A B f m s =>
  match m s with
  | Ok (a, s') => f a s'
  | Err e => Err e
  end.

Definition throw {A} (msg : string) : M A := fun _ => Err (Thrown msg).
Definition kill {A} (sig : Signal) : M A := fun _ => Err (Killed sig).
Definition gets {A} (f : t -> A) : M A := fun s => Ok (f s, s).
Definition modify (f : t -> t) : M unit := fun s => Ok (tt, f s).
Definition lift {A} (r : Result A) : M A :=
  fun s => match r with Ok a => Ok (a, s) | Err e => Err e end.

(** A machine division inside the generator. *)
Definition machine {A} (r : option A) : M A :=
  match r with Some a => mret a | None => kill SIGFPE end.

(** A loop body run for [i = 0 .. n-1], threading an accumulator. *)
Fixpoint for_loop {A} (n : nat) (i : nat) (body : nat -> A -> M A) (acc : A) : M A :=
  match n with
  | O => mret acc
  | S n' => acc' ← body i acc; for_loop n' (S i) body acc'
  end.

(** Run the computations of a list in order, collecting the results. *)
Fixpoint sequenceM {A} (l : list (M A)) : M (list A) :=
  match l with
  | [] => mret []
  | m :: rest => a ← m; r ← sequenceM rest; mret (a :: r)
  end.

(** *** Scopes *)

Definition pushScope : M unit :=
  modify (fun s => set_symbolTableStack (∅ :: symbolTableStack s) s).

Definition popScope : M unit := fun s =>
  match symbolTableStack s with
  | [] => Err "Cannot pop scope: stack is empty"
  | _ :: rest => Ok (tt, set_symbolTableStack rest s)
  end.

(** [lookupSymbol]: from the innermost scope outwards. *)
Fixpoint lookup_in (stack : list (gmap string SymbolInfo)) (name : string)
  : option SymbolInfo :=
  match stack with
  | [] => None
  | scope :: outer =>
      match scope !! name with
      | Some info => Some info
      | None => lookup_in outer name
      end
  end.

Definition lookupSymbol (name : string) : M (option SymbolInfo) :=
  gets (fun s => lookup_in (symbolTableStack s) name).

Definition addSymbol (name : string) (info : SymbolInfo) : M unit := fun s =>
  match symbolTableStack s with
  | [] => Err "Cannot add symbol: no scope available"
  | currentScope :: outer =>
      match currentScope !! name with
      | Some _ => Err ("Redeclaration of symbol '" +:+ name +:+ "'")
      | None => Ok (tt, set_symbolTableStack (<[name := info]> currentScope :: outer) s)
      end
  end.

(** *** The module *)

(** The symbol table of the module holds its functions and its global
    variables under their names, each name once. *)
Definition nameTaken (name : string) (s : t) : bool :=
  existsb (fun f => String.eqb (fn_name f) name) (module_functions s)
  || existsb (fun g => String.eqb (gv_name g) name) (module_globals s).

(** [ValueSymbolTable::makeUniqueName]: the name with a dot and the
    next number of the counter, until a name is free.  [tries] bounds
    the search of the model; with one try more than the table has names
    it finds a free one. *)
Fixpoint makeUniqueName (tries : nat) (taken : string -> bool) (name : string)
    (lastUnique : nat) : string * nat :=
  let lastUnique := S lastUnique in
  let uniqueName := name +:+ "." +:+ pretty lastUnique in
  match tries with
  | O => (uniqueName, lastUnique)
  | S tries' =>
      if taken uniqueName then makeUniqueName tries' taken name lastUnique
      else (uniqueName, lastUnique)
  end.

(** The name a global value gets when it is put into the module: the
    one asked for, or a unique one when that is taken. *)
Definition uniqueName (name : string) : M string := fun s =>
  if nameTaken name s then
    let '(n, k) := makeUniqueName
                     (length (module_functions s) + length (module_globals s))
                     (fun n => nameTaken n s) name (lastUnique s) in
    Ok (n, set_lastUnique k s)
  else Ok (name, s).

(** [module->getFunction]: the function of that name, if the value of
    that name is a function. *)
Definition getFunction (name : string) (s : t) : option Function :=
  find (fun f => String.eqb (fn_name f) name) (module_functions s).

Definition getGlobal (id : nat) (s : t) : option GlobalObject :=
  find (fun g => Nat.eqb (gv_id g) id) (module_globals s).

Definition fresh : M nat :=
  fun s => Ok (nextId s, set_nextId (S (nextId s)) s).

(** [llvm::Function::Create]. *)
Definition Function_Create (ty : FunctionType) (l : Linkage) (name : string)
  : M Function :=
  name ← uniqueName name;
  id ← fresh;
  let f := mkLLVMFunction id name ty l in
  modify (fun s => set_module_functions (module_functions s ++ [f]) s);;
  mret f.

(** [new llvm::GlobalVariable(module, type, isConstant, linkage, init, name)]. *)
Definition new_GlobalVariable (ty : Ty) (isConstant : bool) (l : Linkage)
    (init : option Value) (name : string) : M nat :=
  name ← uniqueName name;
  id ← fresh;
  modify (fun s => set_module_globals
                     (module_globals s ++ [mkGlobal id name ty isConstant l init]) s);;
  mret id.

(** [globalVar->setInitializer]. *)
Definition setInitializer (id : nat) (init : Value) : M unit :=
  modify (fun s => set_module_globals
    (map (fun g => if Nat.eqb (gv_id g) id
                   then mkGlobal (gv_id g) (gv_name g) (gv_valueType g)
                                 (gv_isConstant g) (gv_linkage g) (Some init)
                   else g) (module_globals s)) s).

(** *** The builder *)

(** [llvm::BasicBlock::Create(context, name, parent)]. *)
Definition BasicBlock_Create (name : string) (parent : option nat) : M nat :=
  id ← fresh;
  modify (fun s => set_block_parent (<[id := (name, parent)]> (block_parent s)) s);;
  mret id.

(** [theFunction->insert(theFunction->end(), BB)]. *)
Definition Function_insert (f : option nat) (bb : nat) : M unit :=
  modify (fun s => set_block_parent
                     (alter (fun b => (fst b, f)) bb (block_parent s)) s).

Definition SetInsertPoint (bb : nat) : M unit :=
  modify (set_insertBlock (Some bb)).

(** [builder.GetInsertBlock()], where the generator dereferences it: a
    builder without an insertion block gives the null pointer. *)
Definition GetInsertBlock : M nat := fun s =>
  match insertBlock s with
  | Some b => Ok (b, s)
  | None => Err (Killed SIGSEGV)
  end.

(** [builder.GetInsertBlock()->getParent()]. *)
Definition GetInsertBlock_getParent : M (option nat) :=
  b ← GetInsertBlock;
  gets (fun s => default None (snd <$> block_parent s !! b)).

(** The instructions of block [b], in order. *)
Definition block_instrs (b : option nat) (s : t) : list Instr :=
  map snd (filter (fun e => bool_decide (fst e = b)) (emitted s)).

(** [builder.GetInsertBlock()->getTerminator() != nullptr]: the last
    instruction of the block is a terminator. *)
Definition hasTerminator : M bool :=
  b ← GetInsertBlock;
  gets (fun s => match last (block_instrs (Some b) s) with
                 | Some i => isTerminator i
                 | None => false
                 end).

(** Insert an instruction at the insertion point (the end of the
    insertion block). *)
Definition insert (i : Instr) : M unit :=
  modify (fun s => set_emitted (emitted s ++ [(insertBlock s, i)]) s).

Section Builder.
Context `{IRBuilderFolder}.

(** A request that computes a value: folded, or inserted. *)
Definition request (op : Opcode) (operands : list Value) (ty : Ty) (name : string)
  : M Value :=
  match Fold op operands ty with
  | Some c => mret c
  | None => id ← fresh; insert (IOp id op operands ty name);; mret (Instruction id ty)
  end.

(** [CreateAlloca], [CreateLoad] and [CreateStore] take the alignment
    they do not get from the data layout of the module, which they reach
    through the insertion block ([BB->getModule()]). *)
Definition CreateAlloca (ty : Ty) (name : string) : M Value :=
  GetInsertBlock;;
  id ← fresh; insert (IAlloca id ty name);; mret (AllocaInst id ty).

Definition CreateLoad (ty : Ty) (ptr : Value) (name : string) : M Value :=
  GetInsertBlock;;
  id ← fresh; insert (ILoad id ty ptr name);; mret (LoadInst id ty).

Definition CreateStore (val ptr : Value) : M unit :=
  GetInsertBlock;;
  insert (IStore val ptr).

(** [GetElementPtrInst::getIndexedType]: the first index steps over the
    pointer, every further one enters an array or a vector. *)
Fixpoint getTypeAtIndices (ty : Ty) (n : nat) : Result Ty :=
  match n with
  | O => Ok ty
  | S n' =>
      match ty with
      | ArrayTy e _ | VectorTy e _ => getTypeAtIndices e n'
      | _ => Err "Invalid GetElementPtrInst indices for type"
      end
  end.

Definition getIndexedType (ty : Ty) (indices : list Value) : Result Ty :=
  getTypeAtIndices ty (Nat.pred (length indices)).

Definition CreateGEP (ty : Ty) (ptr : Value) (indices : list Value) (name : string)
  : M Value :=
  rty ← lift (getIndexedType ty indices);
  match Fold (GetElementPtr ty) (ptr :: indices) PointerTy with
  | Some c => mret c
  | None => id ← fresh; insert (IGetElementPtr id ty ptr indices name);;
            mret (GetElementPtrInst id rty)
  end.

(** Binary operators: the result has the type of the left operand. *)
Definition CreateBinOp (op : Opcode) (lhs rhs : Value) (name : string) : M Value :=
  request op [lhs; rhs] (getType_of lhs) name.

(** [CreateNeg(V)] is [CreateSub(0, V)]. *)
Definition CreateNeg (v : Value) (name : string) : M Value :=
  CreateBinOp Sub (getNullValue (getType_of v)) v name.

Definition CreateFNeg (v : Value) (name : string) : M Value :=
  request FNeg [v] (getType_of v) name.

(** Comparisons yield [i1], lane by lane on vectors. *)
Definition cmpResultType (opnd : Ty) : Ty :=
  match opnd with
  | VectorTy _ n => VectorTy Int1Ty n
  | _ => Int1Ty
  end.

Definition CreateICmp (p : IPred) (lhs rhs : Value) (name : string) : M Value :=
  request (ICmp p) [lhs; rhs] (cmpResultType (getType_of lhs)) name.

Definition CreateFCmp (p : FPred) (lhs rhs : Value) (name : string) : M Value :=
  request (FCmp p) [lhs; rhs] (cmpResultType (getType_of lhs)) name.

(** [IRBuilder::CreateCast]: a cast to the type the value already has
    is the value itself. *)
Definition CreateCast (op : Opcode) (v : Value) (destTy : Ty) (name : string)
  : M Value :=
  if Ty_eqb (getType_of v) destTy then mret v else request op [v] destTy name.

Definition vectorElementType (ty : Ty) : Ty :=
  match ty with VectorTy e _ => e | _ => ty end.

Definition CreateExtractElement (vec idx : Value) (name : string) : M Value :=
  request ExtractElement [vec; idx] (vectorElementType (getType_of vec)) name.

Definition CreateInsertElement (vec elt idx : Value) (name : string) : M Value :=
  request InsertElement [vec; elt; idx] (getType_of vec) name.

Definition CreateVectorSplat (numElts : Z) (v : Value) (name : string) : M Value :=
  request (VectorSplat numElts) [v] (VectorTy (getType_of v) numElts) name.

Definition CreateCall (callee : Function) (args : list Value) (name : string)
  : M Value :=
  id ← fresh;
  insert (ICall id (fn_name callee) args (ft_ret (fn_type callee)) name);;
  mret (Instruction id (ft_ret (fn_type callee))).

Definition CreateRet (v : Value) : M unit := insert (IRet (Some v)).
Definition CreateRetVoid : M unit := insert (IRet None).
Definition CreateBr (dest : nat) : M unit := insert (IBr dest).
Definition CreateCondBr (cond : Value) (ifTrue ifFalse : nat) : M unit :=
  insert (ICondBr cond ifTrue ifFalse).

(** [llvm::ConstantInt::get(Type*, uint64_t)] with the value 0, the only
    one the generator asks for: the integer constant of the scalar type
    of [ty], as a splat when [ty] is a vector type.  The scalar type is
    cast to [IntegerType] and its width read ([cast<IntegerType>],
    [getBitWidth]); in a build of LLVM without assertions the cast of a
    type that is not an integer type is not checked, and the width read
    from a floating-point, pointer, array or void type is 0: the
    constant is [i0 0]. *)
Definition zeroOfScalar (ty : Ty) : Value :=
  match ty with
  | IntegerTy _ => ConstantInt ty 0
  | _ => ConstantInt (IntegerTy 0) 0
  end.

Definition ConstantInt_get0 (ty : Ty) : Value :=
  match ty with
  | VectorTy e n =>
      ConstantVector (VectorTy (getType_of (zeroOfScalar e)) n)
                     (replicate (Z.to_nat n) (zeroOfScalar e))
  | _ => zeroOfScalar ty
  end.

End Builder.

Section Generator.
Context `{IRBuilderFolder} {V : Verifier}.

(** *** [evaluateConstExpr] *)

Fixpoint evaluateConstExpr (expr : ExprAST) : M Z :=
  match expr with
  | IntConstExprAST v _ =>
      if v <? 0 then throw "Array size must be non-negative" else mret v
  | LValExprAST varName _ _ =>
      symOpt ← lookupSymbol varName;
      match symOpt with
      | None => throw ("Variable '" +:+ varName +:+ "' not defined")
      | Some sym =>
          match value sym with
          | GlobalVariable id _ =>
              globalVar ← gets (getGlobal id);
              match globalVar with
              | None => throw "Array size must be a constant with value"
              | Some globalVar =>
                  if negb (gv_isConstant globalVar)
                  then throw "Array size must be a constant"
                  else match gv_initializer globalVar with
                       | None => throw "Array size must be a constant with value"
                       | Some (ConstantInt _ v) =>
                           if v <? 0 then throw "Array size must be non-negative"
                           else mret (wrap32 v)
                       | Some _ => throw "Array size must be an integer constant"
                       end
              end
          | _ => throw "Array size must be a constant"
          end
      end
  | BinaryExprAST op l r _ =>
      lhs ← evaluateConstExpr l;
      rhs ← evaluateConstExpr r;
      match op with
      | ADD => mret (wrap32 (lhs + rhs))
      | SUB => mret (wrap32 (lhs - rhs))
      | MUL => mret (wrap32 (lhs * rhs))
      | DIV => if rhs =? 0 then throw "Division by zero in constant expression"
               else machine (int_div lhs rhs)
      | MOD => if rhs =? 0 then throw "Modulo by zero in constant expression"
               else machine (int_rem lhs rhs)
      | _ => throw "Unsupported operator in constant expression"
      end
  | UnaryExprAST op o _ =>
      operand ← evaluateConstExpr o;
      match op with
      | PLUS => mret operand
      | MINUS => mret (wrap32 (- operand))
      | NOT => throw "Unsupported unary operator in constant expression"
      end
  | _ => throw "Array size must be a constant integer expression"
  end.

(** *** [getType] *)

Definition getType (typeAST : TypeAST) : M Ty :=
  match kind typeAST with
  | TypeAST.INT => mret Int32Ty
  | TypeAST.FLOAT => mret FloatTy
  | TypeAST.VOID => mret VoidTy
  | TypeAST.VECTOR =>
      match vectorSizeExpr typeAST with
      | None => throw "Vector type missing size expression"
      | Some sizeExpr =>
          size ← evaluateConstExpr sizeExpr;
          if size <=? 0 then throw "Vector size must be positive"
          else match vectorElementKind typeAST with
               | TypeAST.INT => mret (VectorTy Int32Ty size)
               | TypeAST.FLOAT => mret (VectorTy FloatTy size)
               | _ => throw "Unsupported vector element type"
               end
      end
  end.

(** *** [generateExprForArraySize] *)

Definition generateExprForArraySize (expr : ExprAST) : M Value :=
  match expr with
  | IntConstExprAST v _ =>
      if v <? 0 then throw "Array size must be non-negative"
      else mret (ConstantInt Int32Ty v)
  | LValExprAST varName _ _ =>
      symOpt ← lookupSymbol varName;
      match symOpt with
      | None => throw ("Variable '" +:+ varName +:+ "' not defined")
      | Some sym =>
          match value sym with
          | GlobalVariable id _ =>
              globalVar ← gets (getGlobal id);
              match globalVar with
              | None => throw "Array size must be a constant with value"
              | Some globalVar =>
                  if negb (gv_isConstant globalVar)
                  then throw "Array size must be a constant"
                  else match gv_initializer globalVar with
                       | None => throw "Array size must be a constant with value"
                       | Some (ConstantInt ty v) =>
                           if v <? 0 then throw "Array size must be non-negative"
                           else mret (ConstantInt ty v)
                       | Some _ => throw "Array size must be an integer constant"
                       end
              end
          | _ => throw "Array size must be a constant"
          end
      end
  | BinaryExprAST _ _ _ _ | UnaryExprAST _ _ _ =>
      v ← evaluateConstExpr expr; mret (ConstantInt Int32Ty v)
  | _ => throw "Array size must be a constant integer expression"
  end.

(** *** String literals *)

(** [ConstantDataArray::getString(context, str, true)]: the bytes and
    a terminating zero. *)
Definition ConstantDataArray_getString (str : string) : Value :=
  let bytes := map (fun c => ConstantInt Int8Ty (Z.of_N (Ascii.N_of_ascii c)))
                   (String.list_ascii_of_string str) in
  ConstantArray (ArrayTy Int8Ty (Z.of_nat (S (String.length str))))
                (bytes ++ [ConstantInt Int8Ty 0]).

Definition createGlobalString (str : string) : M Value :=
  let strConstant := ConstantDataArray_getString str in
  globalStr ← new_GlobalVariable (getType_of strConstant) true PrivateLinkage
                                 (Some strConstant) ".str";
  let zero := ConstantInt Int32Ty 0 in
  mret (ConstantExpr (GetElementPtr (getType_of strConstant))
                     [GlobalVariable globalStr (getType_of strConstant); zero; zero]
                     PointerTy).

Definition generateStringLiteral (str : string) : M Value := createGlobalString str.

(** *** Lvalues *)

(** The type of the object behind a symbol's pointer: that of an
    [AllocaInst] or of a [GlobalVariable], unknown otherwise. *)
Definition allocatedType_of (varPtr : Value) : option Ty :=
  match varPtr with
  | AllocaInst _ ty => Some ty
  | GlobalVariable _ ty => Some ty
  | _ => None
  end.

(** [while (t->isArrayTy()) { n++; t = t->getArrayElementType(); }] *)
Fixpoint arrayDimensions (ty : Ty) : nat :=
  match ty with ArrayTy e _ => S (arrayDimensions e) | _ => O end.

Fixpoint stripArrays (ty : Ty) : Ty :=
  match ty with ArrayTy e _ => stripArrays e | _ => ty end.

Definition instr_id (i : Instr) : option nat :=
  match i with
  | IAlloca id _ _ | ILoad id _ _ _ | IGetElementPtr id _ _ _ _
  | IOp id _ _ _ _ | ICall id _ _ _ _ => Some id
  | _ => None
  end.

(** [inst->getParent()->getParent()]: the function of the block the
    instruction was inserted into. *)
Definition inst_function (id : nat) (s : t) : option nat :=
  match find (fun e => bool_decide (instr_id (snd e) = Some id)) (emitted s) with
  | Some (Some b, _) => default None (snd <$> block_parent s !! b)
  | _ => None
  end.

Definition isArrayParam (sym : SymbolInfo) : bool :=
  isArray sym &&
  match allocatedType_of (value sym) with
  | Some ty => isPointerTy ty
  | None => false
  end.

(** The check that a cached [LoadInst] belongs to the current function. *)
Definition checkLoadedHere (varName : string) (loaded : Value) : M unit :=
  match loaded with
  | LoadInst id _ =>
      owner ← gets (inst_function id);
      cur ← gets currentFunction;
      if bool_decide (owner = fn_id <$> cur) then mret tt
      else throw ("Array parameter '" +:+ varName +:+
                  "' has loadedArrayPtr from another function. " +:+
                  "This indicates a symbol table scope management error.")
  | _ => mret tt
  end.

(** The index of a vector element: lowered, checked to be an integer,
    brought to [i32]. *)
Definition vectorIndex (index : M Value) : M Value :=
  indexValue ← index;
  if negb (isIntegerTy (getType_of indexValue))
  then throw "Vector index must be integer"
  else if negb (Ty_eqb (getType_of indexValue) Int32Ty)
       then CreateCast (IntCast true) indexValue Int32Ty "vidxcast"
       else mret indexValue.

(** [generateLVal]: the value of an lvalue.  [indices] are the
    lowerings of the index expressions ([generateExpr(idx.get())]), run
    where the source runs them. *)
Definition generateLVal (varName : string) (indices : list (M Value)) : M Value :=
  symOpt ← lookupSymbol varName;
  match symOpt with
  | None => throw ("Variable '" +:+ varName +:+ "' not defined")
  | Some symInfo =>
      let varPtr := value symInfo in
      let allocatedType := allocatedType_of varPtr in
      if isArrayParam symInfo then
        match loadedArrayPtr symInfo with
        | None => throw "Array parameter pointer not preloaded"
        | Some basePtr =>
            checkLoadedHere varName basePtr;;
            match indices with
            | _ :: _ =>
                match arrayElementType symInfo with
                | None => throw "Array parameter without element type"
                | Some baseType =>
                    let accessibleDimensions := S (arrayDimensions baseType) in
                    if bool_decide (accessibleDimensions < length indices)%nat
                    then throw "Array index count exceeds array dimensions"
                    else
                      idxs ← sequenceM indices;
                      elementPtr ← CreateGEP baseType basePtr idxs "arrayptr";
                      CreateLoad (stripArrays baseType) elementPtr "loadtmp"
                end
            | [] => mret basePtr
            end
        end
      else
        match indices with
        | index0 :: _ =>
            match allocatedType with
            | Some (VectorTy elemTy n) =>
                if negb (bool_decide (length indices = 1%nat))
                then throw "Vector index must be one-dimensional"
                else
                  vecValue ← CreateLoad (VectorTy elemTy n) varPtr "vecload";
                  indexValue ← vectorIndex index0;
                  CreateExtractElement vecValue indexValue "vecelem"
            | None => throw "Unable to determine variable type"
            | Some baseType =>
                if bool_decide (arrayDimensions baseType < length indices)%nat
                then throw "Array index count exceeds array dimensions"
                else
                  idxs ← sequenceM indices;
                  elementPtr ← CreateGEP baseType varPtr
                                         (ConstantInt Int32Ty 0 :: idxs) "arrayptr";
                  CreateLoad (stripArrays baseType) elementPtr "loadtmp"
            end
        | [] =>
            match allocatedType with
            | None => throw "Unable to determine load type"
            | Some allocatedType =>
                if isArray symInfo
                then CreateCast BitCast varPtr PointerTy "arraycast"
                else CreateLoad allocatedType varPtr "loadtmp"
            end
        end
  end.

(** [generateLValAddress]: the address of an lvalue. *)
Definition generateLValAddress (varName : string) (indices : list (M Value))
  : M Value :=
  symOpt ← lookupSymbol varName;
  match symOpt with
  | None => throw ("Variable '" +:+ varName +:+ "' not defined")
  | Some symInfo =>
      if isConst symInfo
      then throw ("Cannot assign to constant '" +:+ varName +:+ "'")
      else
      let varPtr := value symInfo in
      let allocatedType := allocatedType_of varPtr in
      if isArrayParam symInfo then
        match loadedArrayPtr symInfo with
        | None => throw "Array parameter pointer not preloaded"
        | Some basePtr =>
            match indices with
            | _ :: _ =>
                match arrayElementType symInfo with
                | None => throw "Array parameter without element type"
                | Some baseType =>
                    let accessibleDimensions := S (arrayDimensions baseType) in
                    if bool_decide (accessibleDimensions < length indices)%nat
                    then throw "Array index count exceeds array dimensions"
                    else
                      idxs ← sequenceM indices;
                      CreateGEP baseType basePtr idxs "arrayptr"
                end
            | [] => mret basePtr
            end
        end
      else
        match indices with
        | index0 :: _ =>
            match allocatedType with
            | Some (VectorTy elemType n) =>
                if negb (bool_decide (length indices = 1%nat))
                then throw "Vector index must be one-dimensional"
                else
                  vecValue ← CreateLoad (VectorTy elemType n) varPtr "vecload";
                  indexValue ← vectorIndex index0;
                  elem ← CreateExtractElement vecValue indexValue "vecelem";
                  tmp ← CreateAlloca elemType "vec.elem.tmp";
                  CreateStore elem tmp;;
                  mret tmp
            | None => throw "Unable to determine variable type"
            | Some baseType =>
                if bool_decide (arrayDimensions baseType < length indices)%nat
                then throw "Array index count exceeds array dimensions"
                else
                  idxs ← sequenceM indices;
                  CreateGEP baseType varPtr (ConstantInt Int32Ty 0 :: idxs) "arrayptr"
            end
        | [] => mret varPtr
        end
  end.

(** *** Calls *)

(** An argument of a call as [generateCallExpr] uses it: its lowering as
    a value ([generateExpr]) and, when the argument is an lvalue
    ([dynamic_cast<LValExprAST*>]), its lowering as an address
    ([generateLValAddress]). *)
Record CallArg := mkCallArg {
  arg_value : M Value;
  arg_address : option (M Value)
}.

Definition isLibraryFunction (name : string) : M bool :=
  gets (fun s => bool_decide (is_Some (libraryFunctions s !! name))).

(** The built-in [vsum]. *)
Definition generateVsum (args : list CallArg) : M Value :=
  match args with
  | [arg0] =>
      vecValue ← arg_value arg0;
      match getType_of vecValue with
      | VectorTy elemType numElems =>
          let idx (i : nat) := ConstantInt Int32Ty (Z.of_nat i) in
          if isFloatingPointTy elemType then
            for_loop (Z.to_nat numElems) 0
              (fun i acc =>
                 elem ← CreateExtractElement vecValue (idx i) "vsum.elem";
                 CreateBinOp FAdd acc elem "vsum.acc")
              (ConstantFP elemType fzero)
          else if isIntegerTy elemType then
            let acc0 := ConstantInt_get0 elemType in
            for_loop (Z.to_nat numElems) 0
              (fun i acc =>
                 elem ← CreateExtractElement vecValue (idx i) "vsum.elem";
                 CreateBinOp Add acc elem "vsum.acc")
              acc0
          else throw "vsum only supports int/float element vectors"
      | _ => throw "vsum expects a vector argument"
      end
  | _ => throw "vsum expects exactly one argument"
  end.

(** The body of the loop over the arguments of a call. *)
Definition generateArgument (calleeFunc : Function) (libFunc : option LibraryFunction)
    (i : nat) (arg : CallArg) : M Value :=
  argValue ← arg_value arg;
  let mismatch : M Value :=
    throw ("Type mismatch in function argument " +:+ pretty i) in
  match libFunc with
  | Some (mkLibraryFunction name _ true) =>
      (* a variadic library function *)
      argValue ←
        (if bool_decide (i = 0%nat) && String.eqb name "putf" then
           if negb (isPointerTy (getType_of argValue))
              || negb (Ty_eqb (getType_of argValue) PointerTy)
           then throw "First argument to putf must be a string"
           else if negb (Ty_eqb (getType_of argValue) PointerTy)
                then CreateCast BitCast argValue PointerTy "strcast"
                else mret argValue
         else mret argValue);
      argValue ←
        (if bool_decide (i = 1%nat) && String.eqb name "putarray" then
           match arg_address arg with
           | Some address =>
               a ← address;
               if negb (Ty_eqb (getType_of a) PointerTy)
               then CreateCast BitCast a PointerTy "arraycast"
               else mret a
           | None => throw "Second argument to putarray must be an array"
           end
         else mret argValue);
      if isFloatTy (getType_of argValue)
      then CreateCast FPExt argValue DoubleTy "fpext"
      else mret argValue
  | _ =>
      (* [libFuncIt == end() || !isVariadic] *)
      match ft_params (fn_type calleeFunc) !! i with
      | Some expectedType =>
          if negb (Ty_eqb (getType_of argValue) expectedType) then
            if isPointerTy expectedType then
              match arg_address arg with
              | Some address => address
              | None =>
                  if isPointerTy expectedType && Ty_eqb expectedType PointerTy
                     && isPointerTy (getType_of argValue)
                     && Ty_eqb (getType_of argValue) expectedType
                  then if negb (Ty_eqb (getType_of argValue) expectedType)
                       then CreateCast BitCast argValue expectedType "strcast"
                       else mret argValue
                  else mismatch
              end
            else if isIntegerTy expectedType && isFloatTy (getType_of argValue)
            then CreateCast FPToSI argValue expectedType "fptosi"
            else if isFloatTy expectedType && isIntegerTy (getType_of argValue)
            then CreateCast SIToFP argValue expectedType "sitofp"
            else mismatch
          else mret argValue
      | None => mret argValue
      end
  end.

Fixpoint generateArguments (calleeFunc : Function) (libFunc : option LibraryFunction)
    (i : nat) (args : list CallArg) : M (list Value) :=
  match args with
  | [] => mret []
  | arg :: rest =>
      v ← generateArgument calleeFunc libFunc i arg;
      vs ← generateArguments calleeFunc libFunc (S i) rest;
      mret (v :: vs)
  end.

(** [generateCallExpr]. *)
Definition generateCallExpr (funcName : string) (lineNumber : Z) (args : list CallArg)
  : M Value :=
  if String.eqb funcName "vsum" then generateVsum args
  else
    let isStartTimeCall := String.eqb funcName "starttime" in
    let isStopTimeCall := String.eqb funcName "stoptime" in
    let actualFuncName :=
      if isStartTimeCall then "_sysy_starttime"
      else if isStopTimeCall then "_sysy_stoptime" else funcName in
    calleeOpt ← gets (getFunction actualFuncName);
    match calleeOpt with
    | None =>
        isLib ← isLibraryFunction funcName;
        if (isLib : bool)
        then throw ("Library function '" +:+ funcName +:+ "' not properly declared")
        else throw ("Unknown function referenced: " +:+ funcName)
    | Some calleeFunc =>
        libFunc ← gets (fun s => libraryFunctions s !! funcName);
        let arg_size := length (ft_params (fn_type calleeFunc)) in
        let variadic := match libFunc with Some lf => isVariadic lf | None => false end in
        (if negb (isStartTimeCall || isStopTimeCall) then
           if variadic then
             if bool_decide (length args < arg_size)%nat
             then throw ("Insufficient arguments passed to variadic function: "
                         +:+ funcName)
             else mret tt
           else
             if negb (bool_decide (arg_size = length args))
             then throw ("Incorrect number of arguments passed to function: "
                         +:+ funcName)
             else mret tt
         else mret tt);;
        argValues ←
          (if isStartTimeCall || isStopTimeCall
           then mret [ConstantInt Int32Ty lineNumber]
           else generateArguments calleeFunc libFunc 0 args);
        if isVoidTy (ft_ret (fn_type calleeFunc))
        then CreateCall calleeFunc argValues ""
        else CreateCall calleeFunc argValues "calltmp"
    end.

(** *** Expressions *)

(** The switch over the operator that [generateExpr] and
    [generateCondExpr] both have for two scalar operands; they differ in
    [AND] and [OR] only, which is [logical]. *)
Definition scalarBinaryOp (op : BinaryOperator) (isFloat : bool) (lhs rhs : Value)
    (logical : M Value) : M Value :=
  match op with
  | ADD => if isFloat then CreateBinOp FAdd lhs rhs "addtmp"
           else CreateBinOp Add lhs rhs "addtmp"
  | SUB => if isFloat then CreateBinOp FSub lhs rhs "subtmp"
           else CreateBinOp Sub lhs rhs "subtmp"
  | MUL => if isFloat then CreateBinOp FMul lhs rhs "multmp"
           else CreateBinOp Mul lhs rhs "multmp"
  | DIV => if isFloat then CreateBinOp FDiv lhs rhs "divtmp"
           else CreateBinOp SDiv lhs rhs "divtmp"
  | MOD => if isFloat then mret (getNullValue FloatTy)
           else CreateBinOp SRem lhs rhs "modtmp"
  | LT => if isFloat then CreateFCmp FCMP_OLT lhs rhs "lttmp"
          else CreateICmp ICMP_SLT lhs rhs "lttmp"
  | GT => if isFloat then CreateFCmp FCMP_OGT lhs rhs "gttmp"
          else CreateICmp ICMP_SGT lhs rhs "gttmp"
  | LE => if isFloat then CreateFCmp FCMP_OLE lhs rhs "letmp"
          else CreateICmp ICMP_SLE lhs rhs "letmp"
  | GE => if isFloat then CreateFCmp FCMP_OGE lhs rhs "getmp"
          else CreateICmp ICMP_SGE lhs rhs "getmp"
  | EQ => if isFloat then CreateFCmp FCMP_OEQ lhs rhs "eqtmp"
          else CreateICmp ICMP_EQ lhs rhs "eqtmp"
  | NE => if isFloat then CreateFCmp FCMP_ONE lhs rhs "netmp"
          else CreateICmp ICMP_NE lhs rhs "netmp"
  | AND | OR => logical
  end.

(** Two scalar operands: if one of them is not an integer, the integer
    one is converted to [float]. *)
Definition scalarBinary (op : BinaryOperator) (lhs rhs : Value) (logical : Value -> Value -> M Value)
  : M Value :=
  let lhsIsInt := isIntegerTy (getType_of lhs) in
  let rhsIsInt := isIntegerTy (getType_of rhs) in
  let isFloat := negb (lhsIsInt && rhsIsInt) in
  lhs ← (if isFloat && lhsIsInt
         then CreateCast SIToFP lhs FloatTy "int2float_lhs" else mret lhs);
  rhs ← (if isFloat && rhsIsInt
         then CreateCast SIToFP rhs FloatTy "int2float_rhs" else mret rhs);
  scalarBinaryOp op isFloat lhs rhs (logical lhs rhs).

(** The binary case of [generateExpr], after the operands. *)
Definition generateBinaryOp (op : BinaryOperator) (lhs rhs : Value) : M Value :=
  let lhsType := getType_of lhs in
  let rhsType := getType_of rhs in
  let lhsIsVector := isVectorTy lhsType in
  let rhsIsVector := isVectorTy rhsType in
  if lhsIsVector || rhsIsVector then
    if lhsIsVector && rhsIsVector then
      if negb (Ty_eqb lhsType rhsType)
      then throw "Vector operands must have the same type"
      else
        let elemIsFloat := isFloatingPointTy (vectorElementType lhsType) in
        match op with
        | ADD => if elemIsFloat then CreateBinOp FAdd lhs rhs "vaddtmp"
                 else CreateBinOp Add lhs rhs "vaddtmp"
        | SUB => if elemIsFloat then CreateBinOp FSub lhs rhs "vsubtmp"
                 else CreateBinOp Sub lhs rhs "vsubtmp"
        | MUL => if elemIsFloat then CreateBinOp FMul lhs rhs "vmultmp"
                 else CreateBinOp Mul lhs rhs "vmultmp"
        | DIV => if elemIsFloat then CreateBinOp FDiv lhs rhs "vdivtmp"
                 else CreateBinOp SDiv lhs rhs "vdivtmp"
        | _ => throw "Unsupported vector binary operator"
        end
    else
      match op with
      | ADD | SUB | MUL | DIV | MOD =>
          let scalarOnLeft := negb lhsIsVector in
          let vecValue := if lhsIsVector then lhs else rhs in
          let scalarValue := if lhsIsVector then rhs else lhs in
          match getType_of vecValue with
          | VectorTy elemType numElems =>
              let elemIsFloat := isFloatingPointTy elemType in
              scalarValue ←
                (if elemIsFloat then
                   if isIntegerTy (getType_of scalarValue)
                   then CreateCast SIToFP scalarValue elemType "vsplat.int2float"
                   else if negb (isFloatingPointTy (getType_of scalarValue))
                        then throw "Vector-scalar multiplication expects int/float scalar"
                        else mret scalarValue
                 else
                   if negb (isIntegerTy (getType_of scalarValue))
                   then throw "Vector<int> scalar must be integer"
                   else mret scalarValue);
              splat ← CreateVectorSplat numElems scalarValue "vsplat";
              match op with
              | ADD => if elemIsFloat then CreateBinOp FAdd vecValue splat "vsaddtmp"
                       else CreateBinOp Add vecValue splat "vsaddtmp"
              | SUB =>
                  if scalarOnLeft then
                    if elemIsFloat then CreateBinOp FSub splat vecValue "vssubtmp"
                    else CreateBinOp Sub splat vecValue "vssubtmp"
                  else
                    if elemIsFloat then CreateBinOp FSub vecValue splat "vssubtmp"
                    else CreateBinOp Sub vecValue splat "vssubtmp"
              | MUL => if elemIsFloat then CreateBinOp FMul vecValue splat "vsmultmp"
                       else CreateBinOp Mul vecValue splat "vsmultmp"
              | DIV =>
                  if scalarOnLeft then
                    if elemIsFloat then CreateBinOp FDiv splat vecValue "vsdivtmp"
                    else CreateBinOp SDiv splat vecValue "vsdivtmp"
                  else
                    if elemIsFloat then CreateBinOp FDiv vecValue splat "vsdivtmp"
                    else CreateBinOp SDiv vecValue splat "vsdivtmp"
              | MOD =>
                  if elemIsFloat
                  then throw "Vector-scalar modulo does not support float"
                  else if scalarOnLeft
                       then CreateBinOp SRem splat vecValue "vsmodtmp"
                       else CreateBinOp SRem vecValue splat "vsmodtmp"
              | _ => throw "Unsupported vector-scalar operator"
              end
          | _ => throw "Vector-scalar operation requires a vector operand"
          end
      | _ => throw "Unsupported vector-scalar operator"
      end
  else
    scalarBinary op lhs rhs
      (fun _ _ =>
         match op with
         | AND => throw "Logical AND operator cannot be used in expressions"
         | _ => throw "Logical OR operator cannot be used in expressions"
         end).

(** The unary case of [generateExpr], after the operand. *)
Definition generateUnaryOp (op : UnaryOperator) (operand : Value) : M Value :=
  match op with
  | PLUS => mret operand
  | MINUS =>
      if isFloatingPointTy (getType_of operand)
      then CreateFNeg operand "negtmp"
      else CreateNeg operand "negtmp"
  | NOT => throw "Logical NOT operator cannot be used in expressions"
  end.

Definition callArg (gen : ExprAST -> M Value) (a : ExprAST) : CallArg :=
  mkCallArg (gen a)
    match a with
    | LValExprAST n idx _ => Some (generateLValAddress n (map gen idx))
    | _ => None
    end.

(** [generateExpr]. *)
Fixpoint generateExpr (expr : ExprAST) : M Value :=
  match expr with
  | IntConstExprAST v _ => mret (ConstantInt Int32Ty v)
  | FloatConstExprAST v _ => mret (ConstantFP FloatTy v)
  | StringLiteralExprAST str _ => generateStringLiteral str
  | LValExprAST name indices _ => generateLVal name (map generateExpr indices)
  | CallExprAST callee args line =>
      generateCallExpr callee line (map (callArg generateExpr) args)
  | BinaryExprAST op l r _ =>
      lhs ← generateExpr l;
      rhs ← generateExpr r;
      generateBinaryOp op lhs rhs
  | UnaryExprAST op o _ =>
      operand ← generateExpr o;
      generateUnaryOp op operand
  end.

(** The binary case of [generateCondExpr], after the operands. *)
Definition generateCondBinaryOp (op : BinaryOperator) (lhs rhs : Value) : M Value :=
  if isVectorTy (getType_of lhs) || isVectorTy (getType_of rhs)
  then throw "Vector value cannot be used in conditional expressions"
  else
    scalarBinary op lhs rhs
      (fun lhs rhs =>
         match op with
         | AND => CreateBinOp And_ lhs rhs "andtmp"
         | _ => CreateBinOp Or_ lhs rhs "ortmp"
         end).

(** The unary case of [generateCondExpr], after the operand. *)
Definition generateCondUnaryOp (op : UnaryOperator) (operand : Value) : M Value :=
  match op with
  | PLUS => mret operand
  | MINUS =>
      if isFloatingPointTy (getType_of operand)
      then CreateFNeg operand "negtmp"
      else CreateNeg operand "negtmp"
  | NOT =>
      let zero := ConstantInt_get0 (getType_of operand) in
      CreateICmp ICMP_EQ operand zero "nottmp"
  end.

Definition rejectVector (m : M Value) : M Value :=
  v ← m;
  if isVectorTy (getType_of v)
  then throw "Vector value cannot be used as a condition"
  else mret v.

(** [generateCondExpr]. *)
Fixpoint generateCondExpr (expr : ExprAST) : M Value :=
  match expr with
  | IntConstExprAST v _ => mret (ConstantInt Int32Ty v)
  | FloatConstExprAST v _ => mret (ConstantFP FloatTy v)
  | LValExprAST name indices _ =>
      rejectVector (generateLVal name (map generateExpr indices))
  | CallExprAST callee args line =>
      rejectVector (generateCallExpr callee line (map (callArg generateExpr) args))
  | BinaryExprAST op l r _ =>
      lhs ← generateCondExpr l;
      rhs ← generateCondExpr r;
      generateCondBinaryOp op lhs rhs
  | UnaryExprAST op o _ =>
      operand ← generateCondExpr o;
      generateCondUnaryOp op operand
  | StringLiteralExprAST _ _ => throw "Unsupported expression type"
  end.

(** *** Initializers *)

(** [llvm::cast<llvm::ArrayType>(type)->getElementType()]. *)
Definition ArrayType_getElementType (type : Ty) : Result Ty :=
  match type with
  | ArrayTy e _ => Ok e
  | _ => Err "cast<ArrayType>: not an array type"
  end.

(** The type of the object a pointer of [generateInitVal] points to. *)
Definition pointeeType (ptr : Value) : M Ty :=
  match ptr with
  | AllocaInst _ ty => mret ty
  | GlobalVariable _ ty => mret ty
  | GetElementPtrInst _ ty => mret ty
  | _ => throw "Unable to determine pointer element type"
  end.

Definition isa_GlobalVariable (v : Value) : option nat :=
  match v with GlobalVariable id _ => Some id | _ => None end.

(** The lambda [buildArrayInit] of [generateInitVal]: the constant of a
    global array.  [index] is the reference parameter of the source: it
    is taken and given back. *)
Fixpoint buildArrayInit (elementType : Ty) (type : Ty) (dims : list Z)
    (initVals : list InitValAST) (index : nat) {struct dims} : M (Value * nat) :=
  match dims with
  | [] =>
      match initVals !! index with
      | Some (ExprInitValAST e) =>
          val ← generateExpr e;
          if negb (isa_Constant val)
          then throw "Global variable initializer must be a constant"
          else if negb (Ty_eqb (getType_of val) elementType)
          then throw "Type mismatch in global variable initializer"
          else mret (val, S index)
      | _ => mret (getNullValue elementType, index)
      end
  | currentDimSize :: subDims =>
      '(subInits, index) ←
        for_loop (Z.to_nat currentDimSize) 0
          (fun _ '(subInits, index) =>
             subType ← lift (ArrayType_getElementType type);
             match initVals !! index with
             | Some (ListInitValAST listVal) =>
                 '(subInit, _) ← buildArrayInit elementType subType subDims listVal 0;
                 mret (subInits ++ [subInit], S index)
             | Some (ExprInitValAST _) =>
                 '(subInit, index) ← buildArrayInit elementType subType subDims
                                                    initVals index;
                 mret (subInits ++ [subInit], index)
             | None =>
                 '(subInit, _) ← buildArrayInit elementType subType subDims [] 0;
                 mret (subInits ++ [subInit], index)
             end)
          ([], index);
      mret (ConstantArray type subInits, index)
  end.

(** The int/float conversion of a local initializer value. *)
Definition convertInit (elementType : Ty) (val : Value) (msg : string) : M Value :=
  if negb (Ty_eqb (getType_of val) elementType) then
    if isIntegerTy elementType && isFloatTy (getType_of val)
    then CreateCast FPToSI val elementType "fptosi"
    else if isFloatTy elementType && isIntegerTy (getType_of val)
    then CreateCast SIToFP val elementType "sitofp"
    else throw msg
  else mret val.

(** The lambda [initArrayElements] of [generateInitVal]: the stores
    into a local array. *)
Fixpoint initArrayElements (elementType : Ty) (basePtr : Value) (type : Ty)
    (dims : list Z) (initVals : list InitValAST) (index : nat) {struct dims}
  : M nat :=
  match dims with
  | [] =>
      match initVals !! index with
      | Some (ExprInitValAST e) =>
          val ← generateExpr e;
          val ← convertInit elementType val "Type mismatch in array initializer";
          CreateStore val basePtr;;
          mret (S index)
      | _ => mret index
      end
  | currentDimSize :: subDims =>
      for_loop (Z.to_nat currentDimSize) 0
        (fun i index =>
           elementPtr ← CreateGEP type basePtr
                          [ConstantInt Int32Ty 0; ConstantInt Int32Ty (Z.of_nat i)]
                          "elementptr";
           subType ← lift (ArrayType_getElementType type);
           match initVals !! index with
           | Some (ListInitValAST listVal) =>
               initArrayElements elementType elementPtr subType subDims listVal 0;;
               mret (S index)
           | Some (ExprInitValAST _) =>
               initArrayElements elementType elementPtr subType subDims initVals index
           | None =>
               initArrayElements elementType elementPtr subType subDims [] 0;;
               mret index
           end)
        index
  end.

(** [int totalElements = 1; for (i < dimensions) totalElements *= sizes[i];] *)
Definition totalElements (dimensions : nat) (sizes : list Z) : Z :=
  fold_left (fun acc n => wrap32 (acc * n)) (take dimensions sizes) 1.

(** The initializer of a vector ([targetType->isVectorTy()]). *)
Definition generateVectorInit (initVal : InitValAST) (ptr : Value)
    (targetType elemType : Ty) (vecSize : nat) : M unit :=
  match initVal with
  | ExprInitValAST e =>
      value ← generateExpr e;
      if negb (Ty_eqb (getType_of value) targetType)
      then throw "Vector initializer must be a vector value"
      else match isa_GlobalVariable ptr with
           | Some g =>
               if negb (isa_Constant value)
               then throw "Global vector initializer must be a constant"
               else setInitializer g value
           | None => CreateStore value ptr
           end
  | ListInitValAST initVals =>
      if bool_decide (vecSize < length initVals)%nat
      then throw "Vector initializer has too many elements"
      else match isa_GlobalVariable ptr with
           | Some g =>
               elements ←
                 for_loop vecSize 0
                   (fun i elements =>
                      match initVals !! i with
                      | Some (ExprInitValAST e) =>
                          val ← generateExpr e;
                          if negb (isa_Constant val)
                          then throw "Global vector initializer must be a constant"
                          else
                            cval ←
                              (if negb (Ty_eqb (getType_of val) elemType) then
                                 if isIntegerTy elemType && isFloatTy (getType_of val)
                                 then mret (ConstantExpr FPToSI [val] elemType)
                                 else if isFloatTy elemType
                                         && isIntegerTy (getType_of val)
                                 then mret (ConstantExpr SIToFP [val] elemType)
                                 else throw "Type mismatch in vector initializer"
                               else mret val);
                            mret (elements ++ [cval])
                      | Some (ListInitValAST _) =>
                          throw "Vector initializer elements must be expressions"
                      | None => mret (elements ++ [getNullValue elemType])
                      end)
                   [];
               setInitializer g (ConstantVector targetType elements)
           | None =>
               vecValue ←
                 for_loop vecSize 0
                   (fun i vecValue =>
                      elemValue ←
                        match initVals !! i with
                        | Some (ExprInitValAST e) =>
                            v ← generateExpr e;
                            convertInit elemType v "Type mismatch in vector initializer"
                        | Some (ListInitValAST _) =>
                            throw "Vector initializer elements must be expressions"
                        | None => mret (getNullValue elemType)
                        end;
                      CreateInsertElement vecValue elemValue
                        (ConstantInt Int32Ty (Z.of_nat i)) "vecins")
                   (UndefValue targetType);
               CreateStore vecValue ptr
           end
  end.

(** The scalar initializer [ExprInitValAST], after [generateExpr]: the
    checks, the conversion, and the store or [setInitializer]. *)
Definition initScalar (ptr : Value) (value : Value) : M unit :=
  (match isa_GlobalVariable ptr with
   | Some _ => if negb (isa_Constant value)
               then throw "Global variable initializer must be a constant"
               else mret tt
   | None => mret tt
   end);;
  varType ← pointeeType ptr;
  value ←
    (if negb (Ty_eqb (getType_of value) varType) then
       match isa_GlobalVariable ptr with
       | Some _ => throw "Type mismatch in global variable initializer"
       | None =>
           if isIntegerTy varType && isFloatTy (getType_of value)
           then CreateCast FPToSI value varType "fptosi"
           else if isFloatTy varType && isIntegerTy (getType_of value)
           then CreateCast SIToFP value varType "sitofp"
           else throw "Type mismatch in variable initializer"
       end
     else mret value);
  match isa_GlobalVariable ptr with
  | Some g => setInitializer g value
  | None => CreateStore value ptr
  end.

(** [generateInitVal]. *)
Definition generateInitVal (initVal : InitValAST) (ptr : Value) (dimensions : nat)
    (sizes : list Z) : M unit :=
  targetType ← pointeeType ptr;
  match targetType with
  | VectorTy elemType vecSize =>
      generateVectorInit initVal ptr targetType elemType (Z.to_nat vecSize)
  | _ =>
      match initVal with
      | ExprInitValAST e =>
          value ← generateExpr e;
          initScalar ptr value
      | ListInitValAST [] =>
          let zero := getNullValue targetType in
          match isa_GlobalVariable ptr with
          | Some g =>
              if bool_decide (0 < dimensions)%nat then
                let zeroElement := getNullValue (stripArrays targetType) in
                let zeroElements :=
                  replicate (Z.to_nat (totalElements dimensions sizes)) zeroElement in
                setInitializer g (ConstantArray targetType zeroElements)
              else setInitializer g zero
          | None => CreateStore zero ptr
          end
      | ListInitValAST initVals =>
          if bool_decide (dimensions = 0%nat)
          then throw "Scalar initializer cannot be a list"
          else
            let arrayType := targetType in
            let elementType := stripArrays arrayType in
            match isa_GlobalVariable ptr with
            | Some g =>
                '(arrayInit, _) ← buildArrayInit elementType arrayType sizes initVals 0;
                setInitializer g arrayInit
            | None =>
                initArrayElements elementType ptr arrayType sizes initVals 0;;
                mret tt
            end
      end
  end.

(** *** Declarations *)

(** The dimensions of a declared array: each size expression lowered by
    [lower], which has to give a [ConstantInt]. *)
Fixpoint evalArraySizes (lower : ExprAST -> M Value) (sizeExprs : list ExprAST)
  : M (list Z) :=
  match sizeExprs with
  | [] => mret []
  | sizeExpr :: rest =>
      sizeValue ← lower sizeExpr;
      match sizeValue with
      | ConstantInt _ v =>
          let size := wrap32 v in
          if size <? 0 then throw "Array size must be non-negative"
          else sizes ← evalArraySizes lower rest; mret (size :: sizes)
      | _ => throw "Array size must be a constant expression"
      end
  end.

(** Array types are built from the innermost dimension outwards:
    [int a[3][2]] is [[3 x [2 x i32]]]. *)
Definition arrayTypeOf (base : Ty) (sizes : list Z) : Ty :=
  fold_right (fun n t => ArrayTy t n) base sizes.

(** One [VarDefAST] of a variable declaration. *)
Definition generateVarDef (varType : Ty) (varDef : DefAST) : M unit :=
  let varName := def_name varDef in
  if isVectorTy varType && negb (bool_decide (arraySizes varDef = []))
  then throw "Vector type cannot be combined with array dimensions"
  else
    sizes ← evalArraySizes generateExprForArraySize (arraySizes varDef);
    let elementType := arrayTypeOf varType sizes in
    let isArr := negb (bool_decide (sizes = [])) in
    cur ← gets currentFunction;
    match cur with
    | None =>
        existingSym ← lookupSymbol varName;
        match existingSym with
        | Some _ => throw ("Redeclaration of global variable '" +:+ varName +:+ "'")
        | None =>
            g ← new_GlobalVariable elementType false ExternalLinkage None varName;
            let globalVar := GlobalVariable g elementType in
            match initVal varDef with
            | Some iv => generateInitVal iv globalVar (length sizes) sizes
            | None => setInitializer g (ConstantAggregateZero elementType)
            end;;
            addSymbol varName (SymbolInfo3 globalVar false isArr)
        end
    | Some _ =>
        alloca ← CreateAlloca elementType varName;
        match initVal varDef with
        | Some iv => generateInitVal iv alloca (length sizes) sizes
        | None => mret tt
        end;;
        addSymbol varName (SymbolInfo3 alloca false isArr)
    end.

(** One [ConstDefAST] of a constant declaration: always a global
    object of the module, wherever the declaration stands. *)
Definition generateConstDef (constType : Ty) (constDef : DefAST) : M unit :=
  let constName := def_name constDef in
  if isVectorTy constType && negb (bool_decide (arraySizes constDef = []))
  then throw "Vector type cannot be combined with array dimensions"
  else
    sizes ← evalArraySizes generateExpr (arraySizes constDef);
    let elementType := arrayTypeOf constType sizes in
    let isArr := negb (bool_decide (sizes = [])) in
    existingSym ← lookupSymbol constName;
    match existingSym with
    | Some _ => throw ("Redeclaration of global constant '" +:+ constName +:+ "'")
    | None =>
        g ← new_GlobalVariable elementType true ExternalLinkage None constName;
        let globalConst := GlobalVariable g elementType in
        match initVal constDef with
        | Some iv => generateInitVal iv globalConst (length sizes) sizes
        | None => throw ("Constant '" +:+ constName +:+ "' must have an initializer")
        end;;
        addSymbol constName (SymbolInfo3 globalConst true isArr)
    end.

Fixpoint forM_ {A} (l : list A) (f : A -> M unit) : M unit :=
  match l with
  | [] => mret tt
  | a :: rest => f a;; forM_ rest f
  end.

(** [generateDecl]. *)
Definition generateDecl (decl : DeclAST) : M unit :=
  match decl with
  | VarDeclAST type varDefs =>
      varType ← getType type;
      forM_ varDefs (generateVarDef varType)
  | ConstDeclAST type constDefs =>
      constType ← getType type;
      forM_ constDefs (generateConstDef constType)
  end.

(** *** Statements *)

(** Close the insertion block with a branch unless it has a terminator. *)
Definition branchUnlessTerminated (dest : nat) : M unit :=
  terminated ← hasTerminator;
  if (terminated : bool) then mret tt else CreateBr dest.

(** The coercion of a condition value to a boolean, in [if] and [while]:
    [CreateICmpNE(condValue, ConstantInt::get(condValue->getType(), 0))]. *)
Definition condToBool (condValue : Value) (name : string) : M Value :=
  let zero := ConstantInt_get0 (getType_of condValue) in
  CreateICmp ICMP_NE condValue zero name.

(** [return]. *)
Definition generateReturn (returnValue : option ExprAST) : M unit :=
  cur ← gets currentFunction;
  let retType := match cur with Some f => ft_ret (fn_type f) | None => VoidTy end in
  match returnValue with
  | Some e =>
      retValue ← generateExpr e;
      if isVoidTy retType then throw "Void function cannot return a value"
      else
        retValue ←
          (if negb (Ty_eqb (getType_of retValue) retType) then
             if isFloatingPointTy retType && isIntegerTy (getType_of retValue)
             then CreateCast SIToFP retValue retType "int2float_ret"
             else if isIntegerTy retType && isFloatingPointTy (getType_of retValue)
             then CreateCast FPToSI retValue retType "float2int_ret"
             else throw "Unsupported return type conversion"
           else mret retValue);
        CreateRet retValue
  | None =>
      if negb (isVoidTy retType) then throw "Non-void function must return a value"
      else CreateRetVoid
  end.

(** Assignment. *)
Definition generateAssign (varName : string) (indices : list ExprAST) (expr : ExprAST)
  : M unit :=
  symOpt ← lookupSymbol varName;
  match symOpt with
  | Some sym =>
      if isArray sym && bool_decide (indices = [])
      then throw ("Cannot assign to array name '" +:+ varName +:+
                  "' directly, use array indexing")
      else mret tt
  | None => mret tt
  end;;
  let store : M unit :=
    lvalAddr ← generateLValAddress varName (map generateExpr indices);
    rval ← generateExpr expr;
    CreateStore rval lvalAddr in
  match symOpt with
  | Some sym =>
      let varPtr := value sym in
      match allocatedType_of varPtr, indices with
      | Some (VectorTy elemType n), index0 :: _ =>
          (* v[i] = x *)
          if negb (bool_decide (length indices = 1%nat))
          then throw "Vector index must be one-dimensional"
          else
            vecValue ← CreateLoad (VectorTy elemType n) varPtr "vecload";
            indexValue ← vectorIndex (generateExpr index0);
            rval ← generateExpr expr;
            rval ←
              (if negb (Ty_eqb (getType_of rval) elemType) then
                 if isFloatingPointTy elemType && isIntegerTy (getType_of rval)
                 then CreateCast SIToFP rval elemType "int2float_elem"
                 else if isIntegerTy elemType && isFloatingPointTy (getType_of rval)
                 then CreateCast FPToSI rval elemType "float2int_elem"
                 else throw "Type mismatch in vector element assignment"
               else mret rval);
            newVec ← CreateInsertElement vecValue rval indexValue "vecins";
            CreateStore newVec varPtr
      | _, _ => store
      end
  | None => store
  end.

(** [generateStmt], with the loop of [generateBlock] inside. *)
Fixpoint generateStmt (stmt : StmtAST) : M unit :=
  match stmt with
  | ReturnStmtAST returnValue => generateReturn returnValue
  | IfStmtAST condition thenStmt elseStmt =>
      condValue ← generateCondExpr condition;
      boolValue ← condToBool condValue "ifcond";
      theFunction ← GetInsertBlock_getParent;
      thenBB ← BasicBlock_Create "then" theFunction;
      endBB ← BasicBlock_Create "endif" None;
      match elseStmt with
      | Some elseS =>
          elseBB ← BasicBlock_Create "else" None;
          CreateCondBr boolValue thenBB elseBB;;
          SetInsertPoint thenBB;;
          generateStmt thenStmt;;
          branchUnlessTerminated endBB;;
          Function_insert theFunction elseBB;;
          SetInsertPoint elseBB;;
          generateStmt elseS;;
          branchUnlessTerminated endBB
      | None =>
          CreateCondBr boolValue thenBB endBB;;
          SetInsertPoint thenBB;;
          generateStmt thenStmt;;
          branchUnlessTerminated endBB
      end;;
      Function_insert theFunction endBB;;
      SetInsertPoint endBB
  | ExprStmtAST (Some e) => generateExpr e;; mret tt
  | ExprStmtAST None => mret tt
  | AssignStmtAST varName indices _ expr => generateAssign varName indices expr
  | WhileStmtAST condition body =>
      theFunction ← GetInsertBlock_getParent;
      condBB ← BasicBlock_Create "whilecond" theFunction;
      loopBB ← BasicBlock_Create "whileloop" None;
      afterBB ← BasicBlock_Create "whileafter" None;
      modify (fun s => set_loopTargets (breakTargets s ++ [afterBB])
                                       (continueTargets s ++ [condBB]) s);;
      CreateBr condBB;;
      SetInsertPoint condBB;;
      condValue ← generateCondExpr condition;
      boolValue ← condToBool condValue "whilecond";
      CreateCondBr boolValue loopBB afterBB;;
      Function_insert theFunction loopBB;;
      SetInsertPoint loopBB;;
      generateStmt body;;
      branchUnlessTerminated condBB;;
      Function_insert theFunction afterBB;;
      SetInsertPoint afterBB;;
      modify (fun s => set_loopTargets (removelast (breakTargets s))
                                       (removelast (continueTargets s)) s)
  | BreakStmtAST =>
      targets ← gets breakTargets;
      match last targets with
      | None => throw "Break statement outside of loop"
      | Some bb => CreateBr bb
      end
  | ContinueStmtAST =>
      targets ← gets continueTargets;
      match last targets with
      | None => throw "Continue statement outside of loop"
      | Some bb => CreateBr bb
      end
  | BlockStmt items =>
      pushScope;;
      (fix loop (l : list BlockItemAST) : M unit :=
         match l with
         | [] => mret tt
         | DeclBlockItemAST decl :: rest => generateDecl decl;; loop rest
         | StmtBlockItemAST s :: rest => generateStmt s;; loop rest
         end) items;;
      popScope
  end.

(** [generateBlock]. *)
Definition generateBlock (block : BlockAST) : M unit := generateStmt (BlockStmt block).

(** *** Functions *)

(** The type of a formal parameter and the element type kept for it. *)
Definition paramTypes (param : FuncFParamAST) : M (Ty * Ty) :=
  paramType ← getType (param_type param);
  if param_isArray param then
    elementType ←
      (fix dims (l : list ExprAST) (elementType : Ty) : M Ty :=
         match l with
         | [] => mret elementType
         | sizeExpr :: rest =>
             size ← evaluateConstExpr sizeExpr;
             if size <=? 0 then throw "Array dimension must be positive"
             else dims rest (ArrayTy elementType size)
         end) (param_arraySizes param) paramType;
    mret (PointerTy, elementType)
  else mret (paramType, paramType).

Fixpoint mapM {A B} (f : A -> M B) (l : list A) : M (list B) :=
  match l with
  | [] => mret []
  | a :: rest => b ← f a; bs ← mapM f rest; mret (b :: bs)
  end.

(** What the first loop of [generateFunction] keeps of a parameter
    ([paramInfo]). *)
Record ParamInfo := mkParamInfo {
  pi_name : string;
  pi_alloca : Value;
  pi_isArray : bool;
  pi_argType : Ty;
  pi_elemType : Ty
}.

(** First step: a stack cell for every parameter, and the incoming
    value stored into it. *)
Fixpoint allocaParams (idx : nat) (ps : list (FuncFParamAST * (Ty * Ty)))
  : M (list ParamInfo) :=
  match ps with
  | [] => mret []
  | (param, (argType, elemType)) :: rest =>
      let paramName := param_name param in
      alloca ← CreateAlloca argType (paramName +:+ "_addr");
      CreateStore (Argument idx argType) alloca;;
      infos ← allocaParams (S idx) rest;
      mret (mkParamInfo paramName alloca (param_isArray param) argType elemType :: infos)
  end.

(** Second step: the pointer of every array parameter is loaded, in the
    entry block, and kept in the symbol. *)
Definition preloadParam (info : ParamInfo) : M unit :=
  loadedPtr ←
    (if pi_isArray info
     then v ← CreateLoad (pi_argType info) (pi_alloca info)
                         (pi_name info +:+ "_loaded");
          mret (Some v)
     else mret None);
  addSymbol (pi_name info)
    (mkSymbolInfo (pi_alloca info) false (pi_isArray info)
                  (Some (pi_elemType info)) loadedPtr).

Definition checkInsertBlock (entryBB : nat) (msg : string) : M unit :=
  b ← gets insertBlock;
  if bool_decide (b = Some entryBB) then mret tt else throw msg.

(** [generateFunction]. *)
Definition generateFunction (func : FunctionAST) : M Function :=
  let funcName := func_name func in
  existingSym ← lookupSymbol funcName;
  match existingSym with
  | Some _ => throw ("Redeclaration of function '" +:+ funcName +:+ "'")
  | None =>
      pushScope;;
      retType ← getType (returnType func);
      ptys ← mapM paramTypes (params func);
      let funcType := mkFunctionType retType (map fst ptys) false in
      let linkageType :=
        if String.eqb funcName "main" then ExternalLinkage else InternalLinkage in
      llvmFunc ← Function_Create funcType linkageType funcName;
      entryBB ← BasicBlock_Create "entry" (Some (fn_id llvmFunc));
      SetInsertPoint entryBB;;
      prevFunction ← gets currentFunction;
      modify (set_currentFunction (Some llvmFunc));;
      paramInfo ← allocaParams 0 (zip (params func) ptys);
      checkInsertBlock entryBB "Insert point moved from entry block";;
      forM_ paramInfo preloadParam;;
      checkInsertBlock entryBB
        "Insert point moved from entry block after loading array pointers";;
      let isVoidReturn :=
        match kind (returnType func) with TypeAST.VOID => true | _ => false end in
      generateBlock (func_body func);;
      terminated ← hasTerminator;
      (if (terminated : bool) then mret tt
       else if isVoidReturn then CreateRetVoid
       else CreateRet (UndefValue retType));;
      popScope;;
      modify (set_currentFunction prevFunction);;
      broken ← gets (verifyFunction llvmFunc);
      match broken with
      | Some errorMsg => throw ("Function verification failed: " +:+ errorMsg)
      | None => mret llvmFunc
      end
  end.

(** *** The library and the whole program *)

Definition declareLibraryFunction (key name : string) (ret : Ty) (ps : list Ty)
    (variadic : bool) (create : bool) : M unit :=
  let funcType := mkFunctionType ret ps variadic in
  (if create then Function_Create funcType ExternalLinkage name;; mret tt
   else mret tt);;
  modify (fun s => set_libraryFunctions
                     (<[key := mkLibraryFunction name funcType variadic]>
                        (libraryFunctions s)) s).

Definition declareTimeFunction (key name : string) : M unit :=
  declareLibraryFunction key name VoidTy [Int32Ty] false true;;
  declareLibraryFunction name name VoidTy [Int32Ty] false false.

(** [declareLibraryFunctions], in the order of the source. *)
Definition declareLibraryFunctions : M unit :=
  declareLibraryFunction "getint" "getint" Int32Ty [] false true;;
  declareLibraryFunction "getch" "getch" Int32Ty [] false true;;
  declareLibraryFunction "getfloat" "getfloat" FloatTy [] false true;;
  declareLibraryFunction "getarray" "getarray" Int32Ty [PointerTy] false true;;
  declareLibraryFunction "getfarray" "getfarray" Int32Ty [PointerTy] false true;;
  declareLibraryFunction "putint" "putint" VoidTy [Int32Ty] false true;;
  declareLibraryFunction "putch" "putch" VoidTy [Int32Ty] false true;;
  declareLibraryFunction "putfloat" "putfloat" VoidTy [FloatTy] false true;;
  declareLibraryFunction "putarray" "putarray" VoidTy [Int32Ty; PointerTy] false true;;
  declareLibraryFunction "putfarray" "putfarray" VoidTy [Int32Ty; PointerTy] false true;;
  declareLibraryFunction "putf" "putf" VoidTy [PointerTy] true true;;
  declareTimeFunction "starttime" "_sysy_starttime";;
  declareTimeFunction "stoptime" "_sysy_stoptime".

Fixpoint generateFunctions (fs : list FunctionAST) (hasMainFunc : bool) : M bool :=
  match fs with
  | [] => mret hasMainFunc
  | func :: rest =>
      hasMainFunc ←
        (if String.eqb (func_name func) "main" then
           if hasMainFunc then throw "Multiple main functions defined"
           else if negb (match kind (returnType func) with
                         | TypeAST.INT => true | _ => false end)
                   || negb (bool_decide (params func = []))
           then throw "main function must have no parameters and return int"
           else mret true
         else mret hasMainFunc);
      generateFunction func;;
      generateFunctions rest hasMainFunc
  end.

(** [generate]: the state it leaves holds the module. *)
Definition generate (compUnit : CompUnitAST) : M unit :=
  modify (set_symbolTableStack []);;
  pushScope;;
  declareLibraryFunctions;;
  forM_ (decls compUnit) generateDecl;;
  hasMainFunc ← generateFunctions (functions compUnit) false;
  if (hasMainFunc : bool) then
    broken ← gets verifyModule;
    match broken with
    | Some errorMsg => throw ("Module verification failed: " +:+ errorMsg)
    | None => popScope
    end
  else throw "No main function defined".

End Generator.

End IRGenerator.

(** ** What the specification says of the const evaluator *)

Module ConstEvalSpec.
Import IRGenerator.






End ConstEvalSpec.

(** ** Programs used as examples *)

Module Examples.
Import IRGenerator.

Definition intT : TypeAST := mkTypeAST TypeAST.INT TypeAST.INT None.
Definition floatT : TypeAST := mkTypeAST TypeAST.FLOAT TypeAST.INT None.
Definition lit (n : Z) : ExprAST := IntConstExprAST n 1.
Definition var (x : string) : ExprAST := LValExprAST x [] 1.

(** [int main() { return 0; }] *)
Definition main_return_0 : CompUnitAST :=
  mkCompUnit []
    [mkFunction intT "main" [] [StmtBlockItemAST (ReturnStmtAST (Some (lit 0)))]].

(** [int main() { return (-2147483647 - 1) / (-1); }] *)
Definition division_overflow : CompUnitAST :=
  mkCompUnit []
    [mkFunction intT "main" []
       [StmtBlockItemAST
          (ReturnStmtAST
             (Some (BinaryExprAST DIV
                      (BinaryExprAST SUB (UnaryExprAST MINUS (lit 2147483647) 1) (lit 1) 1)
                      (UnaryExprAST MINUS (lit 1) 1) 1)))]].

(** [int a[1 + 2] = {1 + 1}; int main() { return 0; }] *)
Definition folded_initializer : CompUnitAST :=
  mkCompUnit
    [VarDeclAST intT
       [mkDef "a" [BinaryExprAST ADD (lit 1) (lit 2) 1]
          (Some (ListInitValAST [ExprInitValAST (BinaryExprAST ADD (lit 1) (lit 1) 1)]))]]
    [mkFunction intT "main" [] [StmtBlockItemAST (ReturnStmtAST (Some (lit 0)))]].



(** [int main() { float x = 1.0; if (x) return 1; return 0; }] *)
Definition float_condition_if : CompUnitAST :=
  mkCompUnit []
    [mkFunction intT "main" []
       [DeclBlockItemAST
          (VarDeclAST floatT [mkDef "x" [] (Some (ExprInitValAST (FloatConstExprAST fone 1)))]);
        StmtBlockItemAST (IfStmtAST (var "x") (ReturnStmtAST (Some (lit 1))) None);
        StmtBlockItemAST (ReturnStmtAST (Some (lit 0)))]].

(** [int main() { float x = 1.0; while (x) { x = 0.0; } return 0; }] *)
Definition float_condition_while : CompUnitAST :=
  mkCompUnit []
    [mkFunction intT "main" []
       [DeclBlockItemAST
          (VarDeclAST floatT [mkDef "x" [] (Some (ExprInitValAST (FloatConstExprAST fone 1)))]);
        StmtBlockItemAST
          (WhileStmtAST (var "x")
             (BlockStmt [StmtBlockItemAST
                           (AssignStmtAST "x" [] 1 (FloatConstExprAST fzero 1))]));
        StmtBlockItemAST (ReturnStmtAST (Some (lit 0)))]].

(** The same [main] with an [int x = 1]: the condition is an [i32]. *)
Definition int_condition_if : CompUnitAST :=
  mkCompUnit []
    [mkFunction intT "main" []
       [DeclBlockItemAST (VarDeclAST intT [mkDef "x" [] (Some (ExprInitValAST (lit 1)))]);
        StmtBlockItemAST (IfStmtAST (var "x") (ReturnStmtAST (Some (lit 1))) None);
        StmtBlockItemAST (ReturnStmtAST (Some (lit 0)))]].

(** The generator inside the body of a function, after the declaration
    [vector<int,4> v;]. *)
Definition after_local_vector : t :=
  match (pushScope;; pushScope;;
         f ← Function_Create (mkFunctionType Int32Ty [] false) ExternalLinkage "main";
         entryBB ← BasicBlock_Create "entry" (Some (fn_id f));
         SetInsertPoint entryBB;;
         modify (set_currentFunction (Some f));;
         pushScope;;
         generateDecl (H := NoFolder)
           (VarDeclAST (mkTypeAST TypeAST.VECTOR TypeAST.INT (Some (lit 4)))
                       [mkDef "v" [] None]))
          empty with
  | Ok (_, s) => s
  | Err _ => empty
  end.

(** The generator inside the body of a function, after the declaration
    [int n = 1;]. *)
Definition after_local_int : t :=
  match (pushScope;; pushScope;;
         f ← Function_Create (mkFunctionType Int32Ty [] false) ExternalLinkage "main";
         entryBB ← BasicBlock_Create "entry" (Some (fn_id f));
         SetInsertPoint entryBB;;
         modify (set_currentFunction (Some f));;
         pushScope;;
         generateDecl (H := NoFolder)
           (VarDeclAST intT [mkDef "n" [] (Some (ExprInitValAST (lit 1)))]))
          empty with
  | Ok (_, s) => s
  | Err _ => empty
  end.

(** A scalar declaration with an initializer expression: [T name = e;]
    or [const T name = e;]. *)
Definition scalarDecl (isConst : bool) (type : TypeAST) (name : string) (e : ExprAST)
  : DeclAST :=
  let def := mkDef name [] (Some (ExprInitValAST e)) in
  if isConst then ConstDeclAST type [def] else VarDeclAST type [def].

(** [int main() { const float c = 1; return 0; }] *)
Definition local_const_mismatch : CompUnitAST :=
  mkCompUnit []
    [mkFunction intT "main" []
       [DeclBlockItemAST (scalarDecl true floatT "c" (lit 1));
        StmtBlockItemAST (ReturnStmtAST (Some (lit 0)))]].

Definition vector4T : TypeAST := mkTypeAST TypeAST.VECTOR TypeAST.INT (Some (lit 4)).

(** [const vector<int, 4> cv = {1, 2, 3, 4};] *)
Definition const_vector_decl : DeclAST :=
  ConstDeclAST vector4T
    [mkDef "cv" []
       (Some (ListInitValAST [ExprInitValAST (lit 1); ExprInitValAST (lit 2);
                              ExprInitValAST (lit 3); ExprInitValAST (lit 4)]))].

(** That declaration and
    [int main() { putarray(1, cv[0]); return 0; }]: the second parameter
    of [putarray] is a pointer. *)
Definition const_vector_argument : CompUnitAST :=
  mkCompUnit [const_vector_decl]
    [mkFunction intT "main" []
       [StmtBlockItemAST
          (ExprStmtAST (Some (CallExprAST "putarray"
                                [lit 1; LValExprAST "cv" [lit 0] 1] 1)));
        StmtBlockItemAST (ReturnStmtAST (Some (lit 0)))]].

(** The generator inside the body of a function of a unit with that
    declaration. *)
Definition after_const_vector : t :=
  match (pushScope;;
         generateDecl (H := NoFolder) const_vector_decl;;
         pushScope;;
         f ← Function_Create (mkFunctionType Int32Ty [] false) ExternalLinkage "main";
         entryBB ← BasicBlock_Create "entry" (Some (fn_id f));
         SetInsertPoint entryBB;;
         modify (set_currentFunction (Some f));;
         pushScope)
          empty with
  | Ok (_, s) => s
  | Err _ => empty
  end.

End Examples.

(** ** Shapes of trees the folder distinguishes *)

Module FolderSpec.

Definition isIntLit (e : ExprAST) : bool :=
  match e with IntConstExprAST _ _ => true | _ => false end.

Definition isFloatLit (e : ExprAST) : bool :=
  match e with FloatConstExprAST _ _ => true | _ => false end.

(** Nothing is left to fold: no binary operation over two integer
    literals or over two float literals, no unary operation over a
    literal, at any depth. *)
Fixpoint folded (e : ExprAST) : bool :=
  match e with
  | BinaryExprAST _ l r _ =>
      folded l && folded r
      && negb (isIntLit l && isIntLit r) && negb (isFloatLit l && isFloatLit r)
  | UnaryExprAST _ o _ => folded o && negb (isIntLit o) && negb (isFloatLit o)
  | LValExprAST _ idx _ => forallb folded idx
  | CallExprAST _ args _ => forallb folded args
  | _ => true
  end.

(** Built from integer literals by unary and binary operators only. *)
Fixpoint int_closed (e : ExprAST) : bool :=
  match e with
  | IntConstExprAST _ _ => true
  | UnaryExprAST _ o _ => int_closed o
  | BinaryExprAST _ l r _ => int_closed l && int_closed r
  | _ => false
  end.

(** Built from float literals by unary and binary operators only. *)
Fixpoint float_closed (e : ExprAST) : bool :=
  match e with
  | FloatConstExprAST _ _ => true
  | UnaryExprAST _ o _ => float_closed o
  | BinaryExprAST _ l r _ => float_closed l && float_closed r
  | _ => false
  end.

(** The expression slots [fold] visits: the expressions of initializers
    and of statements. *)
Fixpoint initVal_has_slot (v : InitValAST) : bool :=
  match v with
  | ExprInitValAST _ => true
  | ListInitValAST l => existsb initVal_has_slot l
  end.

Definition def_has_slot (d : DefAST) : bool :=
  match initVal d with Some v => initVal_has_slot v | None => false end.

Definition decl_has_slot (d : DeclAST) : bool :=
  match d with
  | VarDeclAST _ defs | ConstDeclAST _ defs => existsb def_has_slot defs
  end.

Fixpoint stmt_has_slot (s : StmtAST) : bool :=
  match s with
  | AssignStmtAST _ _ _ _ => true
  | ExprStmtAST e | ReturnStmtAST e => bool_decide (is_Some e)
  | IfStmtAST _ _ _ | WhileStmtAST _ _ => true
  | BreakStmtAST | ContinueStmtAST => false
  | BlockStmt items =>
      existsb (fun i => match i with
                        | StmtBlockItemAST s => stmt_has_slot s
                        | DeclBlockItemAST d => decl_has_slot d
                        end) items
  end.

Definition unit_has_slot (ast : CompUnitAST) : bool :=
  existsb decl_has_slot (decls ast)
  || existsb (fun f => stmt_has_slot (BlockStmt (func_body f))) (functions ast).

(** Unary operators on 32-bit two's-complement integers, after the
    meaning of the C operators. *)
Definition unop (op : UnaryOperator) (a : Z) : Z :=
  match op with
  | PLUS => a
  | MINUS => Int32Spec.truncate (0 - a)
  | NOT => if Int32Spec.truth a then 0 else 1
  end.

(** What a declaration declares, and the signature of a function. *)
Definition decl_declarators (d : DeclAST) : TypeAST * list (string * list ExprAST) :=
  match d with
  | VarDeclAST t defs | ConstDeclAST t defs =>
      (t, map (fun d => (def_name d, arraySizes d)) defs)
  end.

Definition function_signature (f : FunctionAST)
  : TypeAST * string * list FuncFParamAST :=
  (returnType f, func_name f, params f).

(** The declarations inside a statement, at any depth, in the order of
    the text. *)
Fixpoint stmt_decls (s : StmtAST) : list DeclAST :=
  match s with
  | IfStmtAST _ thenStmt elseStmt =>
      stmt_decls thenStmt
      ++ match elseStmt with Some e => stmt_decls e | None => [] end
  | WhileStmtAST _ body => stmt_decls body
  | BlockStmt items =>
      flat_map (fun i => match i with
                         | DeclBlockItemAST d => [d]
                         | StmtBlockItemAST s => stmt_decls s
                         end) items
  | _ => []
  end.

(** Every declaration of a compilation unit: the global ones, then
    those of the function bodies. *)
Definition unit_decls (ast : CompUnitAST) : list DeclAST :=
  decls ast ++ flat_map (fun f => stmt_decls (BlockStmt (func_body f))) (functions ast).

(** The targets of the assignments inside a statement, at any depth:
    the name, the index expressions and the line. *)
Fixpoint stmt_targets (s : StmtAST) : list (string * list ExprAST * Z) :=
  match s with
  | AssignStmtAST n idx l _ => [(n, idx, l)]
  | IfStmtAST _ thenStmt elseStmt =>
      stmt_targets thenStmt
      ++ match elseStmt with Some e => stmt_targets e | None => [] end
  | WhileStmtAST _ body => stmt_targets body
  | BlockStmt items =>
      flat_map (fun i => match i with
                         | DeclBlockItemAST _ => []
                         | StmtBlockItemAST s => stmt_targets s
                         end) items
  | _ => []
  end.

Definition unit_targets (ast : CompUnitAST) : list (string * list ExprAST * Z) :=
  flat_map (fun f => stmt_targets (BlockStmt (func_body f))) (functions ast).

(** The tree a pass of the folder leaves where it returns: every
    expression slot holds the folded expression, nothing else is
    touched.  ([None]: the folding of a slot is killed.) *)
Fixpoint passInitVal (v : InitValAST) : option InitValAST :=
  match v with
  | ExprInitValAST e => ExprInitValAST <$> ConstantFolder.foldAndReplaceExpr e
  | ListInitValAST l => ListInitValAST <$> mapM passInitVal l
  end.

Definition passDef (d : DefAST) : option DefAST :=
  match initVal d with
  | Some iv => iv' ← passInitVal iv; Some (mkDef (def_name d) (arraySizes d) (Some iv'))
  | None => Some d
  end.

Definition passDecl (d : DeclAST) : option DeclAST :=
  match d with
  | VarDeclAST t defs => VarDeclAST t <$> mapM passDef defs
  | ConstDeclAST t defs => ConstDeclAST t <$> mapM passDef defs
  end.

Fixpoint passStmt (s : StmtAST) : option StmtAST :=
  match s with
  | AssignStmtAST n idx l e =>
      AssignStmtAST n idx l <$> ConstantFolder.foldAndReplaceExpr e
  | ExprStmtAST (Some e) => (fun e' => ExprStmtAST (Some e')) <$> ConstantFolder.foldAndReplaceExpr e
  | ReturnStmtAST (Some e) =>
      (fun e' => ReturnStmtAST (Some e')) <$> ConstantFolder.foldAndReplaceExpr e
  | IfStmtAST c thenStmt elseStmt =>
      c' ← ConstantFolder.foldAndReplaceExpr c;
      t' ← passStmt thenStmt;
      match elseStmt with
      | Some e => e' ← passStmt e; Some (IfStmtAST c' t' (Some e'))
      | None => Some (IfStmtAST c' t' None)
      end
  | WhileStmtAST c body =>
      c' ← ConstantFolder.foldAndReplaceExpr c;
      b' ← passStmt body;
      Some (WhileStmtAST c' b')
  | BlockStmt items =>
      BlockStmt <$>
        mapM (fun i => match i with
                       | DeclBlockItemAST d => DeclBlockItemAST <$> passDecl d
                       | StmtBlockItemAST s => StmtBlockItemAST <$> passStmt s
                       end) items
  | _ => Some s
  end.

Definition passItem (i : BlockItemAST) : option BlockItemAST :=
  match i with
  | DeclBlockItemAST d => DeclBlockItemAST <$> passDecl d
  | StmtBlockItemAST s => StmtBlockItemAST <$> passStmt s
  end.

Definition passFunction (f : FunctionAST) : option FunctionAST :=
  mkFunction (returnType f) (func_name f) (params f) <$> mapM passItem (func_body f).

Definition passUnit (ast : CompUnitAST) : option CompUnitAST :=
  ds ← mapM passDecl (decls ast);
  fs ← mapM passFunction (functions ast);
  Some (mkCompUnit ds fs).

End FolderSpec.

(** ** Array initializers, as values *)

Module InitSpec.
Import IRGenerator.

(** The number of elements of an array with the dimensions [dims]. *)
Definition elements (dims : list Z) : nat :=
  fold_right (fun n acc => (Z.to_nat n * acc)%nat) 1%nat dims.

(** The constant of an array with the dimensions [dims] whose elements,
    in row-major order, are the values of [flat] from [offset] on, and
    the null value where [flat] has no value left. *)
Fixpoint rowMajor (elementType : Ty) (dims : list Z) (flat : list Value)
    (offset : nat) : Value :=
  match dims with
  | [] => default (getNullValue elementType) (flat !! offset)
  | n :: sub =>
      ConstantArray (arrayTypeOf elementType dims)
        (map (fun i => rowMajor elementType sub flat (offset + i * elements sub))
             (seq 0 (Z.to_nat n)))
  end.

(** Where the index of the initializer list stands after an array of
    [n] elements was filled from [index] on, of [len] values. *)
Definition advance (index n len : nat) : nat := index `max` ((index + n) `min` len).

(** An initializer that is an expression lowered to the constant [c] of
    the element type, without a change of the generator. *)
Definition constant_leaf `{IRBuilderFolder} (elementType : Ty)
    (iv : InitValAST) (c : Value) : Prop :=
  exists e, iv = ExprInitValAST e
            /\ (forall s, generateExpr e s = Ok (c, s))
            /\ isa_Constant c = true
            /\ getType_of c = elementType.

(** An initializer that is a list of such expressions, with their
    constants. *)
Definition row_leaf `{IRBuilderFolder} (elementType : Ty)
    (iv : InitValAST) (row : list Value) : Prop :=
  exists l, iv = ListInitValAST l /\ Forall2 (constant_leaf elementType) l row.


End InitSpec.

(** ** What the generator keeps while it lowers a function body *)

Module GenSpec.
Import IRGenerator.

(** The stack cell of an array parameter is the only [alloca] of
    pointer type the generator makes. *)
Definition is_cell (v : Value) : bool :=
  match v with AllocaInst _ PointerTy => true | _ => false end.

(** A load of the pointer kept in such a cell. *)
Definition is_cell_load (i : Instr) : bool :=
  match i with ILoad _ _ ptr _ => is_cell ptr | _ => false end.

(** The operands of an instruction, and an instruction that has a cell
    among them: a load from the cell, a store of the cell or into it, a
    cell that is indexed, computed with, passed, branched on or
    returned. *)
Definition operands (i : Instr) : list Value :=
  match i with
  | IAlloca _ _ _ | IBr _ => []
  | ILoad _ _ ptr _ => [ptr]
  | IStore val ptr => [val; ptr]
  | IGetElementPtr _ _ base indices _ => base :: indices
  | IOp _ _ operands _ _ => operands
  | ICall _ _ args _ _ => args
  | ICondBr cond _ _ => [cond]
  | IRet v => match v with Some v => [v] | None => [] end
  end.

Definition uses_cell (i : Instr) : bool := existsb is_cell (operands i).

(** A symbol bound to such a cell is marked as an array, the pointer
    kept for an array parameter is not a cell, and no symbol is bound
    to a vector of pointers. *)
Definition sym_ok (sym : SymbolInfo) : Prop :=
  (is_cell (value sym) = true -> isArray sym = true)
  /\ (forall p, loadedArrayPtr sym = Some p -> is_cell p = false)
  /\ (forall n, allocatedType_of (value sym) <> Some (VectorTy PointerTy n)).

(** The relations below are read in two ways.  With [cells = true] they
    speak of the cells too, and hold from a generator whose symbols are
    as [sym_ok] says; with [cells = false] they leave the cells alone
    and hold from any generator. *)
Definition Inv (cells : bool) (s : t) : Prop :=
  cells = true ->
  Forall (map_Forall (fun _ sym => sym_ok sym)) (symbolTableStack s).

(** A value that is not a cell. *)
Definition clean (cells : bool) (v : Value) : Prop :=
  cells = true -> is_cell v = false.

(** What every step keeps: the function being generated, the library
    table, and the instructions inserted so far, after which it inserts
    no instruction that has a cell as an operand. *)
Definition common (cells : bool) (s s' : t) : Prop :=
  currentFunction s' = currentFunction s
  /\ libraryFunctions s' = libraryFunctions s
  /\ exists new, emitted s' = emitted s ++ new
                 /\ Forall (fun e => cells && uses_cell (snd e) = false) new.

(** A step that also keeps the scopes and the loop targets. *)
Definition Rf (cells : bool) (s s' : t) : Prop :=
  common cells s s'
  /\ symbolTableStack s' = symbolTableStack s
  /\ breakTargets s' = breakTargets s
  /\ continueTargets s' = continueTargets s.

(** A step that may add bindings to the innermost scope. *)
Definition Rt (cells : bool) (s s' : t) : Prop :=
  common cells s s'
  /\ tail (symbolTableStack s') = tail (symbolTableStack s)
  /\ breakTargets s' = breakTargets s
  /\ continueTargets s' = continueTargets s.

(** Steps that end by leaving the innermost scope. *)
Definition Rps (cells : bool) (s s' : t) : Prop :=
  common cells s s'
  /\ symbolTableStack s' = tail (symbolTableStack s)
  /\ breakTargets s' = breakTargets s
  /\ continueTargets s' = continueTargets s.

(** Steps that end by leaving the innermost loop. *)
Definition Rpop (cells : bool) (s s' : t) : Prop :=
  common cells s s'
  /\ symbolTableStack s' = symbolTableStack s
  /\ breakTargets s' = removelast (breakTargets s)
  /\ continueTargets s' = removelast (continueTargets s).

(** [m], started where [Inv] holds, ends where it holds, its two states
    are related by [R] and its result has [Q]. *)
Definition triple (cells : bool) (R : t -> t -> Prop) {A} (m : M A) (Q : A -> Prop)
  : Prop :=
  forall s a s', Inv cells s -> m s = Ok (a, s') -> Inv cells s' /\ R s s' /\ Q a.

(** The loads of cells among the instructions of a log, and the cell a
    load reads. *)
Definition cell_loads (log : list (option nat * Instr)) : list (option nat * Instr) :=
  filter (fun e => is_cell_load (snd e) = true) log.

Definition loaded_cell (e : option nat * Instr) : option nat :=
  match snd e with
  | ILoad _ _ (AllocaInst cell _) _ => Some cell
  | _ => None
  end.

(** What [allocaParams] inserts into block [b] and returns when the
    next free number is [n]: a cell for every parameter and the store
    of the incoming value. *)
Fixpoint alloca_log (b : option nat) (n idx : nat)
    (ps : list (FuncFParamAST * (Ty * Ty))) : list (option nat * Instr) :=
  match ps with
  | [] => []
  | (param, (argType, _)) :: rest =>
      (b, IAlloca n argType (param_name param +:+ "_addr"))
      :: (b, IStore (Argument idx argType) (AllocaInst n argType))
      :: alloca_log b (S n) (S idx) rest
  end.

Fixpoint infos_of (n : nat) (ps : list (FuncFParamAST * (Ty * Ty))) : list ParamInfo :=
  match ps with
  | [] => []
  | (param, (argType, elemType)) :: rest =>
      mkParamInfo (param_name param) (AllocaInst n argType) (param_isArray param)
                  argType elemType
      :: infos_of (S n) rest
  end.

(** What the loop over [preloadParam] inserts: a load for every array
    parameter. *)
Fixpoint preload_log (b : option nat) (n : nat) (infos : list ParamInfo)
  : list (option nat * Instr) :=
  match infos with
  | [] => []
  | info :: rest =>
      if pi_isArray info
      then (b, ILoad n (pi_argType info) (pi_alloca info) (pi_name info +:+ "_loaded"))
           :: preload_log b (S n) rest
      else preload_log b n rest
  end.

(** A type that is neither a pointer nor a vector of pointers: the
    types [getType] gives, and the array types built from them. *)
Definition plain (ty : Ty) : Prop :=
  ty <> PointerTy /\ forall n, ty <> VectorTy PointerTy n.

(** The type of the cell of a parameter is a pointer exactly for an
    array parameter. *)
Definition param_cell_ok (pp : FuncFParamAST * (Ty * Ty)) : Prop :=
  if param_isArray (fst pp) then fst (snd pp) = PointerTy
  else plain (fst (snd pp)).

(** What is known of the parameters when the pointers are loaded. *)
Definition info_ok (i : ParamInfo) : Prop :=
  (is_cell (pi_alloca i) = true -> pi_isArray i = true)
  /\ forall n, allocatedType_of (pi_alloca i) <> Some (VectorTy PointerTy n).

(** An argument of a call whose lowerings keep the scopes and the loop
    targets, and give no cell. *)
Definition arg_keeps (cells : bool) (a : CallArg) : Prop :=
  triple cells (Rf cells) (arg_value a) (clean cells)
  /\ match arg_address a with
     | Some m => triple cells (Rf cells) m (clean cells)
     | None => True
     end.

(** Every [break] and [continue] of the statement is inside a [while]
    of the statement. *)
Fixpoint jumps_enclosed (stmt : StmtAST) : bool :=
  match stmt with
  | BreakStmtAST | ContinueStmtAST => false
  | WhileStmtAST _ _ => true
  | IfStmtAST _ thenStmt elseStmt =>
      jumps_enclosed thenStmt
      && match elseStmt with Some e => jumps_enclosed e | None => true end
  | BlockStmt items =>
      forallb (fun item => match item with
                           | StmtBlockItemAST s => jumps_enclosed s
                           | DeclBlockItemAST _ => true
                           end) items
  | _ => true
  end.

End GenSpec.

(** ** Further programs and generator states *)

Module MoreExamples.
Import IRGenerator Examples.

(** [{ int x = 1; while (x) { break; } }] *)
Definition scoped_statement : StmtAST :=
  BlockStmt
    [DeclBlockItemAST (VarDeclAST intT [mkDef "x" [] (Some (ExprInitValAST (lit 1)))]);
     StmtBlockItemAST
       (WhileStmtAST (var "x") (BlockStmt [StmtBlockItemAST BreakStmtAST]))].

(** [v[2] + 1], for the [vector<int,4> v] of [after_local_vector]. *)
Definition element_plus_one : ExprAST :=
  BinaryExprAST ADD (LValExprAST "v" [lit 2] 1) (lit 1) 1.

(** [int x = 1;] *)
Definition int_x_is_1 : DeclAST :=
  VarDeclAST intT [mkDef "x" [] (Some (ExprInitValAST (lit 1)))].

(** [int first(int a[], int n) { return a[n]; }] *)
Definition array_reader : FunctionAST :=
  mkFunction intT "first"
    [mkParam intT "a" true []; mkParam intT "n" false []]
    [StmtBlockItemAST (ReturnStmtAST (Some (LValExprAST "a" [var "n"] 1)))].

(** That function and [int main() { return 0; }]. *)
Definition reader_unit : CompUnitAST :=
  mkCompUnit []
    [array_reader;
     mkFunction intT "main" [] [StmtBlockItemAST (ReturnStmtAST (Some (lit 0)))]].

(** The generator at the global scope, nothing declared. *)
Definition global_scope : t := set_symbolTableStack [∅] empty.

(** The generator after the library was declared. *)
Definition with_library : t :=
  match declareLibraryFunctions global_scope with
  | Ok (_, s) => s
  | Err _ => empty
  end.


(** [void skip() { }] *)
Definition empty_procedure : FunctionAST :=
  mkFunction (mkTypeAST TypeAST.VOID TypeAST.INT None) "skip" [] [].

(** [int getint() { return 0; }]: a definition under the name of a
    library function. *)
Definition getint_again : FunctionAST :=
  mkFunction intT "getint" [] [StmtBlockItemAST (ReturnStmtAST (Some (lit 0)))].


End MoreExamples.
(** * Properties *)

(** ** Machine integers *)

Lemma wrap32_range z : in_int (wrap32 z).
Proof.
  unfold in_int, wrap32, INT_MIN, INT_MAX.
  pose proof (Z.mod_pos_bound (z + 2 ^ 31) (2 ^ 32) ltac:(lia)). lia.
Qed.

Lemma wrap32_id z : in_int z -> wrap32 z = z.
Proof.
  unfold in_int, wrap32, INT_MIN, INT_MAX. intros Hz.
  rewrite Z.mod_small by lia. lia.
Qed.

Lemma testbit31 u : 0 <= u < 2 ^ 32 -> Z.testbit u 31 = (2 ^ 31 <=? u).
Proof.
  intros Hu. destruct (Z.leb_spec (2 ^ 31) u) as [Hge|Hlt].
  - apply Z.testbit_true; [lia|].
    assert (u / 2 ^ 31 = 1) as -> by (symmetry; apply Z.div_unique with (r := u - 2 ^ 31); lia).
    reflexivity.
  - apply Z.bits_above_log2; [lia|].
    destruct (Z.eq_dec u 0) as [->|]; [reflexivity|].
    apply Z.log2_lt_pow2; lia.
Qed.

(** Wrap-around as the source has it is truncation of the bit pattern. *)
Lemma wrap32_truncate z : wrap32 z = Int32Spec.truncate z.
Proof.
  unfold Int32Spec.truncate, Int32Spec.of_bits, Int32Spec.to_bits, wrap32.
  rewrite Z.land_ones by lia.
  pose proof (Z.mod_pos_bound z (2 ^ 32) ltac:(lia)) as Hu.
  rewrite testbit31 by exact Hu.
  destruct (Z.leb_spec (2 ^ 31) (z mod 2 ^ 32)) as [Hge|Hlt].
  - replace (z + 2 ^ 31) with ((z mod 2 ^ 32 - 2 ^ 31) + (1 + z / 2 ^ 32) * 2 ^ 32)
      by (pose proof (Z.div_mod z (2 ^ 32) ltac:(lia)); lia).
    rewrite Z.mod_add by lia. rewrite Z.mod_small by lia. lia.
  - replace (z + 2 ^ 31) with ((z mod 2 ^ 32 + 2 ^ 31) + (z / 2 ^ 32) * 2 ^ 32)
      by (pose proof (Z.div_mod z (2 ^ 32) ltac:(lia)); lia).
    rewrite Z.mod_add by lia. rewrite Z.mod_small by lia. lia.
Qed.

(** ** The constant folder *)

Section FolderProperties.
Import ConstantFolder Examples.

(** Where the machine division returns, it returns what the
    specification says; it is killed for the one pair whose quotient
    overflows. *)
Lemma evaluateBinaryOp_int_spec op a b :
  evaluateBinaryOp_int op a b =
  if Int32Spec.overflows op a b then None else Some (Int32Spec.binop op a b).
Proof.
  destruct op; simpl; rewrite <- ?wrap32_truncate; unfold Int32Spec.truth;
    try reflexivity.
  - unfold int_div, division_traps. change INT_MIN with (- 2 ^ 31).
    destruct (Z.eqb_spec b 0) as [->|Hb]; simpl.
    + rewrite andb_false_r. reflexivity.
    + destruct ((a =? - 2 ^ 31) && (b =? -1)); reflexivity.
  - unfold int_rem, division_traps. change INT_MIN with (- 2 ^ 31).
    destruct (Z.eqb_spec b 0) as [->|Hb]; simpl.
    + rewrite andb_false_r. reflexivity.
    + destruct ((a =? - 2 ^ 31) && (b =? -1)); reflexivity.
  - rewrite Z.gtb_ltb. reflexivity.
  - rewrite Z.geb_leb. reflexivity.
  - destruct (a =? b); reflexivity.
Qed.

Lemma int_of_bool_range c : in_int (int_of_bool c).
Proof. destruct c; unfold in_int, INT_MIN, INT_MAX, int_of_bool; lia. Qed.

Lemma evaluateBinaryOp_int_range op a b v :
  evaluateBinaryOp_int op a b = Some v -> in_int v.
Proof.
  assert (H0 : in_int 0) by (unfold in_int, INT_MIN, INT_MAX; lia).
  destruct op; unfold evaluateBinaryOp_int, int_div, int_rem; intros E;
    repeat match type of E with
           | (if ?c then _ else _) = _ => destruct c
           end;
    try discriminate; injection E as <-;
    first [apply wrap32_range | apply int_of_bool_range | exact H0].
Qed.

Lemma binop_range op a b : in_int (Int32Spec.binop op a b).
Proof.
  assert (H0 : in_int 0) by (unfold in_int, INT_MIN, INT_MAX; lia).
  assert (H1 : in_int 1) by (unfold in_int, INT_MIN, INT_MAX; lia).
  destruct op; simpl; rewrite <- ?wrap32_truncate;
    repeat match goal with |- context [if ?c then _ else _] => destruct c end;
    first [apply wrap32_range | assumption].
Qed.

(** C1.  Folding a binary expression over two 32-bit integer literals
    gives the integer literal (on the line of the expression) whose
    value is the operator applied in 32-bit two's-complement arithmetic
    (division and modulo by zero give 0, comparisons 0 or 1, [&&] and
    [||] the C truth of their operands), a 32-bit integer again: for
    every operator and every pair but the division and the modulo of
    [INT_MIN] by [-1], where the folder gives no literal and the
    compiler is killed. *)
Theorem fold_int_binary_correct_unless_killed op a b la lb line :
  in_int a -> in_int b ->
  foldAndReplaceExpr
    (BinaryExprAST op (IntConstExprAST a la) (IntConstExprAST b lb) line)
  = (if Int32Spec.overflows op a b then None
     else Some (IntConstExprAST (Int32Spec.binop op a b) line))
  /\ in_int (Int32Spec.binop op a b).
Proof.
  intros _ _. split; [|apply binop_range].
  simpl. rewrite evaluateBinaryOp_int_spec.
  destruct (Int32Spec.overflows op a b); reflexivity.
Qed.

(** [INT_MIN / -1], as the folder meets it in
    [(-2147483647 - 1) / (-1)] after it has folded the two operands. *)
Lemma fold_int_binary_correct_unless_killed_witness :
  (in_int INT_MIN /\ in_int (-1)) /\
  foldAndReplaceExpr
    (BinaryExprAST DIV (IntConstExprAST INT_MIN 1) (IntConstExprAST (-1) 1) 1)
  = None.
Proof.
  assert (Ha : in_int INT_MIN) by (unfold in_int, INT_MIN, INT_MAX; lia).
  assert (Hb : in_int (-1)) by (unfold in_int, INT_MIN, INT_MAX; lia).
  split; [split; assumption|].
  exact (proj1 (fold_int_binary_correct_unless_killed DIV INT_MIN (-1) 1 1 1 Ha Hb)).
Defined.

(** The whole of [int main() { return (-2147483647 - 1) / (-1); }]: the
    pass gives no tree. *)
Lemma fold_division_overflow_killed : fold division_overflow = None.
Proof. reflexivity. Qed.

End FolderProperties.

Section FolderIdempotence.
Import ConstantFolder FolderSpec.

(** Induction on expressions, with the hypothesis on every element of
    the index and argument lists. *)
Lemma ExprAST_ind' (P : ExprAST -> Prop) :
  (forall v l, P (IntConstExprAST v l)) ->
  (forall v l, P (FloatConstExprAST v l)) ->
  (forall n idx l, Forall P idx -> P (LValExprAST n idx l)) ->
  (forall op a b l, P a -> P b -> P (BinaryExprAST op a b l)) ->
  (forall op a l, P a -> P (UnaryExprAST op a l)) ->
  (forall f args l, Forall P args -> P (CallExprAST f args l)) ->
  (forall s l, P (StringLiteralExprAST s l)) ->
  forall e, P e.
Proof.
  intros HI HF HL HB HU HC HS.
  fix IH 1. intros [v l|v l|n idx l|op a b l|op a l|f args l|s l].
  - apply HI.
  - apply HF.
  - apply HL. induction idx as [|x idx IHidx]; constructor; [apply IH|exact IHidx].
  - apply HB; apply IH.
  - apply HU; apply IH.
  - apply HC. induction args as [|x args IHargs]; constructor; [apply IH|exact IHargs].
  - apply HS.
Qed.

Lemma InitValAST_ind' (P : InitValAST -> Prop) :
  (forall e, P (ExprInitValAST e)) ->
  (forall l, Forall P l -> P (ListInitValAST l)) ->
  forall v, P v.
Proof.
  intros HE HL. fix IH 1. intros [e|l].
  - apply HE.
  - apply HL. induction l as [|x l IHl]; constructor; [apply IH|exact IHl].
Qed.

Lemma StmtAST_ind' (P : StmtAST -> Prop) :
  (forall n idx l e, P (AssignStmtAST n idx l e)) ->
  (forall e, P (ExprStmtAST e)) ->
  (forall e, P (ReturnStmtAST e)) ->
  (forall c t, P t -> P (IfStmtAST c t None)) ->
  (forall c t e, P t -> P e -> P (IfStmtAST c t (Some e))) ->
  (forall c b, P b -> P (WhileStmtAST c b)) ->
  P BreakStmtAST ->
  P ContinueStmtAST ->
  (forall items,
      Forall (fun i => match i with
                       | StmtBlockItemAST s => P s
                       | DeclBlockItemAST _ => True
                       end) items ->
      P (BlockStmt items)) ->
  forall s, P s.
Proof.
  intros HA HE HR HI1 HI2 HW HB HC HBl.
  fix IH 1. intros [n idx l e|e|e|c t [e|]|c b| | |items].
  - apply HA.
  - apply HE.
  - apply HR.
  - apply HI2; apply IH.
  - apply HI1; apply IH.
  - apply HW; apply IH.
  - apply HB.
  - apply HC.
  - apply HBl. induction items as [|[d|s] items IHitems]; constructor;
      [exact I|exact IHitems|apply IH|exact IHitems].
Qed.

Lemma clone_id e : clone e = e.
Proof.
  induction e using ExprAST_ind'; simpl; try congruence.
  - f_equal. induction H; simpl; congruence.
  - f_equal. induction H; simpl; congruence.
Qed.

(** A list that a pass over its elements leaves, element by element. *)
Lemma mapM_fixed {A} (f : A -> option A) l k :
  Forall (fun x => forall y, f x = Some y -> f y = Some y) l ->
  mapM f l = Some k -> mapM f k = Some k.
Proof.
  intros IH E. apply mapM_Some in E. apply mapM_Some.
  induction E as [|x y l k Hxy _ IHE]; [constructor|].
  apply Forall_cons in IH as [Hx Hl].
  constructor; [exact (Hx _ Hxy)|exact (IHE Hl)].
Qed.

Lemma mapM_id {A} (f : A -> option A) l :
  Forall (fun x => f x = Some x) l -> mapM f l = Some l.
Proof.
  intros IH. apply mapM_Some. induction IH; constructor; assumption.
Qed.

(** After a pass that returns, nothing is left to fold. *)
Lemma fold_folded e e' : foldAndReplaceExpr e = Some e' -> folded e' = true.
Proof.
  revert e'.
  induction e as [v l|v l|n idx l IH|op a b l IHa IHb|op a l IHa|f args l IH|s l]
    using ExprAST_ind'; intros e' E; simpl in E.
  - injection E as <-. reflexivity.
  - injection E as <-. reflexivity.
  - destruct (mapM foldAndReplaceExpr idx) as [idx'|] eqn:Ei; [|discriminate].
    injection E as <-. simpl. apply mapM_Some in Ei.
    apply forallb_forall. intros x Hx. apply list_elem_of_In in Hx.
    induction Ei as [|x0 y l0 k Hxy _ IHE]; [inversion Hx|].
    apply Forall_cons in IH as [Hx0 Hl].
    apply elem_of_cons in Hx as [->|Hx]; [exact (Hx0 _ Hxy)|exact (IHE Hl Hx)].
  - destruct (foldAndReplaceExpr a) as [a'|]; [|discriminate].
    destruct (foldAndReplaceExpr b) as [b'|]; [|discriminate]. simpl in E.
    specialize (IHa _ eq_refl). specialize (IHb _ eq_refl).
    destruct a'; destruct b'; simpl in E;
      try (destruct (evaluateBinaryOp_int op _ _); simpl in E; [|discriminate]);
      injection E as <-; simpl in *; rewrite ?IHa, ?IHb; reflexivity.
  - destruct (foldAndReplaceExpr a) as [a'|]; [|discriminate]. simpl in E.
    specialize (IHa _ eq_refl).
    destruct a'; injection E as <-; simpl in *; rewrite ?IHa; reflexivity.
  - destruct (mapM foldAndReplaceExpr args) as [args'|] eqn:Ei; [|discriminate].
    injection E as <-. simpl. apply mapM_Some in Ei.
    apply forallb_forall. intros x Hx. apply list_elem_of_In in Hx.
    induction Ei as [|x0 y l0 k Hxy _ IHE]; [inversion Hx|].
    apply Forall_cons in IH as [Hx0 Hl].
    apply elem_of_cons in Hx as [->|Hx]; [exact (Hx0 _ Hxy)|exact (IHE Hl Hx)].
  - injection E as <-. reflexivity.
Qed.

(** An expression in which nothing is left to fold is returned as it is
    (in new nodes). *)
Lemma folded_fixed e : folded e = true -> foldAndReplaceExpr e = Some e.
Proof.
  induction e as [v l|v l|n idx l IH|op a b l IHa IHb|op a l IHa|f args l IH|s l]
    using ExprAST_ind'; intros Hf; try reflexivity.
  - simpl in *. rewrite (mapM_id foldAndReplaceExpr idx); [reflexivity|].
    rewrite forallb_forall in Hf. rewrite Forall_forall in IH |- *.
    intros x Hx. apply IH; [exact Hx|]. apply Hf. apply list_elem_of_In. exact Hx.
  - simpl in Hf.
    apply andb_true_iff in Hf as [Hf Hfl]. apply andb_true_iff in Hf as [Hf Hil].
    apply andb_true_iff in Hf as [Ha Hb].
    simpl. rewrite (IHa Ha), (IHb Hb). simpl.
    destruct a; destruct b; try reflexivity; discriminate.
  - simpl in Hf.
    apply andb_true_iff in Hf as [Hf Hfl]. apply andb_true_iff in Hf as [Ha Hil].
    simpl. rewrite (IHa Ha). simpl. destruct a; try reflexivity; discriminate.
  - simpl in *. rewrite (mapM_id foldAndReplaceExpr args); [reflexivity|].
    rewrite forallb_forall in Hf. rewrite Forall_forall in IH |- *.
    intros x Hx. apply IH; [exact Hx|]. apply Hf. apply list_elem_of_In. exact Hx.
Qed.

(** A folded expression is left as it is by the folder. *)
Lemma foldAndReplaceExpr_idempotent e e' :
  foldAndReplaceExpr e = Some e' -> foldAndReplaceExpr e' = Some e'.
Proof. intros E. apply folded_fixed, (fold_folded e), E. Qed.

(** *** A pass, layer by layer: the tree it leaves and the flag *)

Lemma foldSlot_pass e :
  foldSlot e = (e' ← foldAndReplaceExpr e; Some (e', true)).
Proof. reflexivity. Qed.

Lemma foldInitVal_pass v :
  foldInitVal v = (v' ← passInitVal v; Some (v', initVal_has_slot v)).
Proof.
  induction v as [e|l IH] using InitValAST_ind'.
  - simpl. unfold foldSlot. destruct (foldAndReplaceExpr e); reflexivity.
  - cbn [foldInitVal passInitVal initVal_has_slot].
    match goal with |- mbind _ (?loop l false) = _ =>
      assert (Hloop : forall c, loop l c =
                (l' ← mapM passInitVal l; Some (l', c || existsb initVal_has_slot l)))
    end.
    { induction IH as [|v l Hv _ IHl]; intros c.
      - simpl. rewrite orb_false_r. reflexivity.
      - cbn [mapM existsb]. rewrite Hv. simpl.
        destruct (passInitVal v) as [v'|]; [|reflexivity]. simpl.
        rewrite IHl. destruct (mapM passInitVal l); [|reflexivity]. simpl.
        destruct (initVal_has_slot v), c; reflexivity. }
    rewrite Hloop. destruct (mapM passInitVal l); reflexivity.
Qed.

Lemma foldDef_pass d :
  match initVal d with
  | Some iv => '(iv', c) ← foldInitVal iv;
               Some (mkDef (def_name d) (arraySizes d) (Some iv'), c)
  | None => Some (d, false)
  end
  = (d' ← passDef d; Some (d', def_has_slot d)).
Proof.
  unfold passDef, def_has_slot. destruct (initVal d) as [iv|]; [|reflexivity].
  rewrite foldInitVal_pass. destruct (passInitVal iv); reflexivity.
Qed.

Lemma foldDefs_pass defs c :
  foldDefs defs c = (defs' ← mapM passDef defs; Some (defs', c || existsb def_has_slot defs)).
Proof.
  revert c. induction defs as [|d defs IH]; intros c.
  - simpl. rewrite orb_false_r. reflexivity.
  - cbn [foldDefs mapM existsb]. rewrite foldDef_pass.
    destruct (passDef d) as [d'|]; [|reflexivity]. cbn [mbind option_bind].
    rewrite IH. destruct (mapM passDef defs); [|reflexivity].
    cbn [mbind option_bind mret option_ret]. rewrite orb_assoc. reflexivity.
Qed.

Lemma foldDecl_pass d :
  foldDecl d = (d' ← passDecl d; Some (d', decl_has_slot d)).
Proof.
  destruct d as [t defs|t defs]; simpl; rewrite foldDefs_pass;
    destruct (mapM passDef defs); reflexivity.
Qed.

Lemma foldStmt_pass s :
  foldStmt s = (s' ← passStmt s; Some (s', stmt_has_slot s)).
Proof.
  induction s as [n idx l e|e|e|c t IHt|c t e IHt IHe|c b IHb| | |items IH]
    using StmtAST_ind'; try reflexivity.
  - simpl. unfold foldSlot. destruct (foldAndReplaceExpr e); reflexivity.
  - destruct e as [e|]; [|reflexivity].
    simpl. unfold foldSlot. destruct (foldAndReplaceExpr e); reflexivity.
  - destruct e as [e|]; [|reflexivity].
    simpl. unfold foldSlot. destruct (foldAndReplaceExpr e); reflexivity.
  - cbn [foldStmt passStmt stmt_has_slot]. unfold foldSlot. rewrite IHt.
    destruct (foldAndReplaceExpr c) as [c'|]; [|reflexivity]. simpl.
    destruct (passStmt t); [|reflexivity]. simpl. destruct c'; reflexivity.
  - cbn [foldStmt passStmt stmt_has_slot]. unfold foldSlot. rewrite IHt, IHe.
    destruct (foldAndReplaceExpr c) as [c'|]; [|reflexivity]. simpl.
    destruct (passStmt t); [|reflexivity]. simpl.
    destruct (passStmt e); [|reflexivity]. simpl. destruct c'; reflexivity.
  - cbn [foldStmt passStmt stmt_has_slot]. unfold foldSlot. rewrite IHb.
    destruct (foldAndReplaceExpr c) as [c'|]; [|reflexivity]. simpl.
    destruct (passStmt b); reflexivity.
  - cbn [foldStmt passStmt stmt_has_slot].
    match goal with |- mbind _ (?loop items false) = _ =>
      assert (Hloop : forall c, loop items c =
                (items' ← mapM passItem items;
                 Some (items', c || existsb (fun i => match i with
                                                     | StmtBlockItemAST s => stmt_has_slot s
                                                     | DeclBlockItemAST d => decl_has_slot d
                                                     end) items)))
    end.
    { induction IH as [|[d|s] items Hs _ IHitems]; intros c.
      - simpl. rewrite orb_false_r. reflexivity.
      - cbn [mapM existsb passItem]. rewrite foldDecl_pass.
        destruct (passDecl d) as [d'|]; [|reflexivity]. simpl.
        rewrite IHitems. destruct (mapM passItem items); [|reflexivity]. simpl.
        rewrite orb_assoc. reflexivity.
      - cbn [mapM existsb passItem]. rewrite Hs.
        destruct (passStmt s) as [s'|]; [|reflexivity]. simpl.
        rewrite IHitems. destruct (mapM passItem items); [|reflexivity]. simpl.
        rewrite orb_assoc. reflexivity. }
    rewrite Hloop. fold passItem. destruct (mapM passItem items); reflexivity.
Qed.

Lemma passStmt_block items :
  passStmt (BlockStmt items) = BlockStmt <$> mapM passItem items.
Proof. reflexivity. Qed.

Lemma foldFunction_pass f :
  foldFunction f
  = (f' ← passFunction f; Some (f', stmt_has_slot (BlockStmt (func_body f)))).
Proof.
  unfold foldFunction, foldBlock, passFunction.
  rewrite foldStmt_pass, passStmt_block.
  destruct (mapM passItem (func_body f)); reflexivity.
Qed.

Lemma foldDecls_pass l c :
  foldDecls l c = (l' ← mapM passDecl l; Some (l', c || existsb decl_has_slot l)).
Proof.
  revert c. induction l as [|d l IH]; intros c.
  - simpl. rewrite orb_false_r. reflexivity.
  - cbn [foldDecls mapM existsb]. rewrite foldDecl_pass.
    destruct (passDecl d); [|reflexivity]. simpl. rewrite IH.
    destruct (mapM passDecl l); [|reflexivity]. simpl. rewrite orb_assoc. reflexivity.
Qed.

Lemma foldFunctions_pass l c :
  foldFunctions l c
  = (l' ← mapM passFunction l;
     Some (l', c || existsb (fun f => stmt_has_slot (BlockStmt (func_body f))) l)).
Proof.
  revert c. induction l as [|f l IH]; intros c.
  - simpl. rewrite orb_false_r. reflexivity.
  - cbn [foldFunctions mapM existsb]. rewrite foldFunction_pass.
    destruct (passFunction f); [|reflexivity]. cbn [mbind option_bind]. rewrite IH.
    destruct (mapM passFunction l); [|reflexivity]. cbn [mbind option_bind mret option_ret].
    rewrite orb_assoc. reflexivity.
Qed.

(** A pass over a compilation unit: the tree with every slot folded,
    and the flag, which is set when there is a slot. *)
Lemma fold_pass ast :
  fold ast = (ast' ← passUnit ast; Some (ast', unit_has_slot ast)).
Proof.
  unfold fold, passUnit, unit_has_slot. rewrite foldDecls_pass.
  destruct (mapM passDecl (decls ast)); [|reflexivity]. cbn [mbind option_bind].
  rewrite foldFunctions_pass.
  destruct (mapM passFunction (functions ast)); reflexivity.
Qed.

(** *** A second pass *)

Lemma passInitVal_fixed v : forall v', passInitVal v = Some v' -> passInitVal v' = Some v'.
Proof.
  induction v as [e|l IH] using InitValAST_ind'; intros v' E; simpl in E.
  - destruct (foldAndReplaceExpr e) as [e'|] eqn:Ee; [|discriminate].
    injection E as <-. simpl. rewrite (foldAndReplaceExpr_idempotent _ _ Ee). reflexivity.
  - destruct (mapM passInitVal l) as [l'|] eqn:El; [|discriminate].
    injection E as <-. simpl. rewrite (mapM_fixed _ _ _ IH El). reflexivity.
Qed.

Lemma passDef_fixed d d' : passDef d = Some d' -> passDef d' = Some d'.
Proof.
  unfold passDef. destruct d as [n sz [iv|]]; simpl; intros E.
  - destruct (passInitVal iv) as [iv'|] eqn:Ei; [|discriminate].
    injection E as <-. simpl. rewrite (passInitVal_fixed _ _ Ei). reflexivity.
  - injection E as <-. reflexivity.
Qed.

Lemma Forall_all {A} (P : A -> Prop) l : (forall x, P x) -> Forall P l.
Proof. intros HP. induction l; constructor; auto. Qed.

Lemma passDecl_fixed d d' : passDecl d = Some d' -> passDecl d' = Some d'.
Proof.
  destruct d as [t defs|t defs]; simpl; intros E;
    destruct (mapM passDef defs) as [defs'|] eqn:Ed; try discriminate;
    injection E as <-; simpl;
    rewrite (mapM_fixed passDef defs defs' (Forall_all _ _ passDef_fixed) Ed);
    reflexivity.
Qed.

Lemma passStmt_fixed s : forall s', passStmt s = Some s' -> passStmt s' = Some s'.
Proof.
  induction s as [n idx l e|e|e|c t IHt|c t e IHt IHe|c b IHb| | |items IH]
    using StmtAST_ind'; intros s' E; simpl in E.
  - destruct (foldAndReplaceExpr e) as [e'|] eqn:Ee; [|discriminate].
    injection E as <-. simpl. rewrite (foldAndReplaceExpr_idempotent _ _ Ee). reflexivity.
  - destruct e as [e|]; [|injection E as <-; reflexivity].
    destruct (foldAndReplaceExpr e) as [e'|] eqn:Ee; [|discriminate].
    injection E as <-. simpl. rewrite (foldAndReplaceExpr_idempotent _ _ Ee). reflexivity.
  - destruct e as [e|]; [|injection E as <-; reflexivity].
    destruct (foldAndReplaceExpr e) as [e'|] eqn:Ee; [|discriminate].
    injection E as <-. simpl. rewrite (foldAndReplaceExpr_idempotent _ _ Ee). reflexivity.
  - destruct (foldAndReplaceExpr c) as [c'|] eqn:Ec; [|discriminate]. simpl in E.
    destruct (passStmt t) as [t'|] eqn:Et; [|discriminate].
    injection E as <-. simpl.
    rewrite (foldAndReplaceExpr_idempotent _ _ Ec). simpl.
    rewrite (IHt _ eq_refl). reflexivity.
  - destruct (foldAndReplaceExpr c) as [c'|] eqn:Ec; [|discriminate]. simpl in E.
    destruct (passStmt t) as [t'|] eqn:Et; [|discriminate]. simpl in E.
    destruct (passStmt e) as [e'|] eqn:Ee; [|discriminate].
    injection E as <-. simpl.
    rewrite (foldAndReplaceExpr_idempotent _ _ Ec). simpl.
    rewrite (IHt _ eq_refl). simpl. rewrite (IHe _ eq_refl). reflexivity.
  - destruct (foldAndReplaceExpr c) as [c'|] eqn:Ec; [|discriminate]. simpl in E.
    destruct (passStmt b) as [b'|] eqn:Eb; [|discriminate].
    injection E as <-. simpl.
    rewrite (foldAndReplaceExpr_idempotent _ _ Ec). simpl.
    rewrite (IHb _ eq_refl). reflexivity.
  - injection E as <-. reflexivity.
  - injection E as <-. reflexivity.
  - fold passItem in E.
    destruct (mapM passItem items) as [items'|] eqn:Ei; [|discriminate].
    injection E as <-. rewrite passStmt_block.
    rewrite (mapM_fixed passItem items items'); [reflexivity| |exact Ei].
    eapply Forall_impl; [exact IH|].
    intros [d|s]; simpl; intros Hs y Ey.
    + destruct (passDecl d) as [d'|] eqn:Ed; [|discriminate].
      injection Ey as <-. simpl. rewrite (passDecl_fixed _ _ Ed). reflexivity.
    + destruct (passStmt s) as [s1|] eqn:Es; [|discriminate].
      injection Ey as <-. simpl. rewrite (Hs _ eq_refl). reflexivity.
Qed.

Lemma passItem_fixed i i' : passItem i = Some i' -> passItem i' = Some i'.
Proof.
  destruct i as [d|s]; simpl; intros E.
  - destruct (passDecl d) as [d'|] eqn:Ed; [|discriminate].
    injection E as <-. simpl. rewrite (passDecl_fixed _ _ Ed). reflexivity.
  - destruct (passStmt s) as [s'|] eqn:Es; [|discriminate].
    injection E as <-. simpl. rewrite (passStmt_fixed _ _ Es). reflexivity.
Qed.

Lemma passFunction_fixed f f' : passFunction f = Some f' -> passFunction f' = Some f'.
Proof.
  unfold passFunction. intros E.
  destruct (mapM passItem (func_body f)) as [b|] eqn:Eb; [|discriminate].
  injection E as <-. simpl.
  rewrite (mapM_fixed passItem _ _ (Forall_all _ _ passItem_fixed) Eb). reflexivity.
Qed.

Lemma passUnit_fixed ast ast' : passUnit ast = Some ast' -> passUnit ast' = Some ast'.
Proof.
  unfold passUnit. intros E.
  destruct (mapM passDecl (decls ast)) as [ds|] eqn:Ed; [|discriminate]. simpl in E.
  destruct (mapM passFunction (functions ast)) as [fs|] eqn:Ef; [|discriminate].
  injection E as <-. simpl.
  rewrite (mapM_fixed passDecl _ _ (Forall_all _ _ passDecl_fixed) Ed). simpl.
  rewrite (mapM_fixed passFunction _ _ (Forall_all _ _ passFunction_fixed) Ef).
  reflexivity.
Qed.

(** *** The slots of the tree a pass leaves *)

Lemma existsb_Forall2 {A} (p : A -> bool) (l k : list A) :
  Forall2 (fun x y => p y = p x) l k -> existsb p k = existsb p l.
Proof. induction 1; simpl; congruence. Qed.

Lemma mapM_existsb {A} (f : A -> option A) (p : A -> bool) l k :
  Forall (fun x => forall y, f x = Some y -> p y = p x) l ->
  mapM f l = Some k -> existsb p k = existsb p l.
Proof.
  intros IH E. apply mapM_Some in E. apply existsb_Forall2.
  induction E as [|x y l k Hxy _ IHE]; [constructor|].
  apply Forall_cons in IH as [Hx Hl]. constructor; [exact (Hx _ Hxy)|exact (IHE Hl)].
Qed.

Lemma initVal_has_slot_pass v :
  forall v', passInitVal v = Some v' -> initVal_has_slot v' = initVal_has_slot v.
Proof.
  induction v as [e|l IH] using InitValAST_ind'; intros v' E; simpl in E.
  - destruct (foldAndReplaceExpr e); [|discriminate]. injection E as <-. reflexivity.
  - destruct (mapM passInitVal l) as [l'|] eqn:El; [|discriminate].
    injection E as <-. simpl. exact (mapM_existsb _ _ _ _ IH El).
Qed.

Lemma def_has_slot_pass d d' : passDef d = Some d' -> def_has_slot d' = def_has_slot d.
Proof.
  unfold passDef, def_has_slot. destruct d as [n sz [iv|]]; simpl; intros E.
  - destruct (passInitVal iv) as [iv'|] eqn:Ei; [|discriminate].
    injection E as <-. simpl. exact (initVal_has_slot_pass _ _ Ei).
  - injection E as <-. reflexivity.
Qed.

Lemma decl_has_slot_pass d d' : passDecl d = Some d' -> decl_has_slot d' = decl_has_slot d.
Proof.
  destruct d as [t defs|t defs]; simpl; intros E;
    destruct (mapM passDef defs) as [defs'|] eqn:Ed; try discriminate;
    injection E as <-; simpl;
    exact (mapM_existsb _ _ _ _ (Forall_all _ _ def_has_slot_pass) Ed).
Qed.

Lemma stmt_has_slot_pass s :
  forall s', passStmt s = Some s' -> stmt_has_slot s' = stmt_has_slot s.
Proof.
  induction s as [n idx l e|e|e|c t IHt|c t e IHt IHe|c b IHb| | |items IH]
    using StmtAST_ind'; intros s' E; simpl in E.
  - destruct (foldAndReplaceExpr e); [|discriminate]. injection E as <-. reflexivity.
  - destruct e as [e|]; [|injection E as <-; reflexivity].
    destruct (foldAndReplaceExpr e); [|discriminate]. injection E as <-. reflexivity.
  - destruct e as [e|]; [|injection E as <-; reflexivity].
    destruct (foldAndReplaceExpr e); [|discriminate]. injection E as <-. reflexivity.
  - destruct (foldAndReplaceExpr c); [|discriminate]. simpl in E.
    destruct (passStmt t); [|discriminate]. injection E as <-. reflexivity.
  - destruct (foldAndReplaceExpr c); [|discriminate]. simpl in E.
    destruct (passStmt t); [|discriminate]. simpl in E.
    destruct (passStmt e); [|discriminate]. injection E as <-. reflexivity.
  - destruct (foldAndReplaceExpr c); [|discriminate]. simpl in E.
    destruct (passStmt b); [|discriminate]. injection E as <-. reflexivity.
  - injection E as <-. reflexivity.
  - injection E as <-. reflexivity.
  - fold passItem in E.
    destruct (mapM passItem items) as [items'|] eqn:Ei; [|discriminate].
    injection E as <-. simpl.
    apply (mapM_existsb passItem _ items items'); [|exact Ei].
    eapply Forall_impl; [exact IH|].
    intros [d|s]; simpl; intros Hs y Ey.
    + destruct (passDecl d) as [d'|] eqn:Ed; [|discriminate].
      injection Ey as <-. exact (decl_has_slot_pass _ _ Ed).
    + destruct (passStmt s) as [s1|] eqn:Es; [|discriminate].
      injection Ey as <-. exact (Hs _ eq_refl).
Qed.

Lemma unit_has_slot_pass ast ast' :
  passUnit ast = Some ast' -> unit_has_slot ast' = unit_has_slot ast.
Proof.
  unfold passUnit, unit_has_slot. intros E.
  destruct (mapM passDecl (decls ast)) as [ds|] eqn:Ed; [|discriminate]. simpl in E.
  destruct (mapM passFunction (functions ast)) as [fs|] eqn:Ef; [|discriminate].
  injection E as <-. simpl. f_equal.
  - exact (mapM_existsb _ _ _ _ (Forall_all _ _ decl_has_slot_pass) Ed).
  - apply (mapM_existsb passFunction _ (functions ast) fs); [|exact Ef].
    apply Forall_all. intros f f' E. unfold passFunction in E.
    destruct (mapM passItem (func_body f)) as [b|] eqn:Eb; [|discriminate].
    injection E as <-. cbn [func_body].
    apply (stmt_has_slot_pass (BlockStmt (func_body f)) (BlockStmt b)).
    rewrite passStmt_block, Eb. reflexivity.
Qed.

(** A second run of the folder leaves the tree of the first run. *)
Lemma fold_idempotent ast ast1 c :
  fold ast = Some (ast1, c) -> fold ast1 = Some (ast1, c).
Proof.
  rewrite !fold_pass. intros E.
  destruct (passUnit ast) as [a|] eqn:Ep; [|discriminate].
  injection E as <- <-. rewrite (passUnit_fixed _ _ Ep). simpl.
  rewrite (unit_has_slot_pass _ _ Ep). reflexivity.
Qed.

Lemma fold_flag ast ast1 c : fold ast = Some (ast1, c) -> c = unit_has_slot ast.
Proof.
  rewrite fold_pass. intros E.
  destruct (passUnit ast); [|discriminate]. injection E as _ <-. reflexivity.
Qed.

(** *** The driver *)

(** The loop of the driver: it is never short of fuel when it is given
    what the pass bound leaves room for; it is killed exactly when its
    first pass is; and it returns with the tree of the first pass. *)
Lemma optimize_loop_run fuel pc ast :
  pc < 8 -> 8 - pc <= Z.of_nat fuel ->
  ASTOptimizer.optimize_loop fuel pc true ast =
  match fold ast with
  | None => ASTOptimizer.Trapped
  | Some (ast1, c) => ASTOptimizer.Returns (if c then 8 else pc + 1, ast1)
  end.
Proof.
  revert pc ast. induction fuel as [|fuel IH]; intros pc ast Hpc Hfuel; [lia|].
  cbn [ASTOptimizer.optimize_loop].
  destruct (Z.ltb_spec pc 8) as [_|]; [|lia]. cbn [andb].
  destruct (fold ast) as [[ast1 c]|] eqn:Ef; [|reflexivity]. cbn [orb].
  destruct c.
  - destruct (Z.eq_dec (pc + 1) 8) as [E8|Hne].
    + rewrite E8. destruct fuel; reflexivity.
    + rewrite (IH (pc + 1) ast1 ltac:(lia) ltac:(lia)).
      rewrite (fold_idempotent _ _ _ Ef). reflexivity.
  - destruct fuel; reflexivity.
Qed.

Lemma optimize_run verbose ast :
  ASTOptimizer.optimize (ASTOptimizer.init verbose) ast =
  match fold ast with
  | None => ASTOptimizer.Trapped
  | Some (ast1, c) =>
      ASTOptimizer.Returns (ASTOptimizer.mk verbose (if c then 8 else 1), ast1)
  end.
Proof.
  unfold ASTOptimizer.optimize, ASTOptimizer.init.
  cbn [ASTOptimizer.passCount ASTOptimizer.verbose].
  rewrite (optimize_loop_run _ 0 ast); [|lia|change (8 - 0) with 8; lia].
  destruct (fold ast) as [[ast1 c]|]; [|reflexivity]. destruct c; reflexivity.
Qed.

(** C6.  Where a run of the constant folder returns, a second run
    leaves the tree of the first as it is; the optimisation driver,
    started as its constructor leaves it, makes at most 8 passes: it
    returns after at most 8, or its first pass is killed.  On
    [int main() { return (-2147483647 - 1) / (-1); }] it is killed. *)
Theorem fold_idempotent_and_driver_bounded :
  (forall ast ast1 c, fold ast = Some (ast1, c) -> fold ast1 = Some (ast1, c))
  /\ (forall verbose ast,
         match ASTOptimizer.optimize (ASTOptimizer.init verbose) ast with
         | ASTOptimizer.Returns (o', _) => 0 <= ASTOptimizer.passCount o' <= 8
         | ASTOptimizer.Trapped => fold ast = None
         | ASTOptimizer.Unfinished => False
         end)
  /\ (forall verbose,
         ASTOptimizer.optimize (ASTOptimizer.init verbose) Examples.division_overflow
         = ASTOptimizer.Trapped).
Proof.
  split; [exact fold_idempotent|]. split.
  - intros verbose ast. rewrite optimize_run.
    destruct (fold ast) as [[ast1 c]|]; [|reflexivity].
    destruct c; simpl; lia.
  - intros verbose. rewrite optimize_run. reflexivity.
Qed.

(** C5 (as the code has it).  A modulo over two float literals is
    folded: to the float literal 0.0, on the line of the expression. *)
Theorem fold_float_modulo a b la lb line :
  foldAndReplaceExpr
    (BinaryExprAST MOD (FloatConstExprAST a la) (FloatConstExprAST b lb) line)
  = Some (FloatConstExprAST fzero line).
Proof. reflexivity. Qed.

(** C5, refuted as stated: [1.0 % 1.0] does not stay a modulo. *)
Lemma fold_float_modulo_not_left_unfolded :
  let e := BinaryExprAST MOD (FloatConstExprAST fone 1) (FloatConstExprAST fone 1) 1 in
  foldAndReplaceExpr e <> Some e /\ foldAndReplaceExpr e = Some (FloatConstExprAST fzero 1).
Proof. split; [discriminate|reflexivity]. Qed.

End FolderIdempotence.

Section FolderContract.
Import ConstantFolder Examples.

(** C4, at the input where the code departs from it: on
    [int main() { return 0; }] the folder rewrites nothing, the tree is
    what it was, and [fold] returns true. *)
Theorem fold_reports_change_on_unchanged_tree :
  fold main_return_0 = Some (main_return_0, true).
Proof. reflexivity. Qed.

(** What holds of the flag: a tree that a pass changes is reported. *)
Lemma foldSlot_changed e r : foldSlot e = Some r -> snd r = true.
Proof.
  unfold foldSlot. destruct (foldAndReplaceExpr e); [|discriminate].
  intros E. injection E as <-. reflexivity.
Qed.

End FolderContract.

(** ** The const evaluator *)

Section ConstEvaluator.
Import IRGenerator ConstEvalSpec Examples.

Ltac munfold :=
  unfold lookupSymbol in *;
  unfold machine, int_div, int_rem in *;
  unfold mbind, M_bind, mret, M_ret, throw, kill, gets, lift in *;
  cbn beta iota in *.

(** The evaluator reads the generator and leaves it as it is. *)
Lemma evaluateConstExpr_pure e : forall s v s',
  evaluateConstExpr e s = Ok (v, s') -> s' = s.
Proof.
  induction e as [v0 l|v0 l|n idx l|op a IHa b IHb l|op a IHa l|f args l|str l];
    intros s v s' E; simpl in E; munfold; try discriminate.
  - destruct (v0 <? 0); congruence.
  - destruct (lookup_in (symbolTableStack s) n) as [sym|]; [|discriminate].
    destruct (value sym); try discriminate.
    destruct (getGlobal id s) as [g|]; [|discriminate].
    destruct (negb (gv_isConstant g)); [discriminate|].
    destruct (gv_initializer g) as [[]|]; try discriminate.
    match type of E with context [if ?c then _ else _] => destruct c end; congruence.
  - destruct (evaluateConstExpr a s) as [[x s1]|] eqn:Ea; [|discriminate].
    apply IHa in Ea. subst s1.
    destruct (evaluateConstExpr b s) as [[y s2]|] eqn:Eb; [|discriminate].
    apply IHb in Eb. subst s2.
    destruct op; try discriminate; try congruence.
    + destruct (y =? 0); [discriminate|].
      destruct (division_traps x y); congruence.
    + destruct (y =? 0); [discriminate|].
      destruct (division_traps x y); congruence.
  - destruct (evaluateConstExpr a s) as [[x s1]|] eqn:Ea; [|discriminate].
    apply IHa in Ea. subst s1. destruct op; congruence.
Qed.





End ConstEvaluator.
(** ** Conditions *)

Section Conditions.
Import IRGenerator Examples.
Context {F : IRBuilderFolder} {V : Verifier}.

Ltac munfold :=
  unfold lookupSymbol in *;
  unfold mbind, M_bind, mret, M_ret, throw, gets, lift in *;
  cbn beta iota in *.

(** The folder leaves a request alone that has an operand which is not
    a constant. *)
Lemma Fold_not_constant op args ty :
  forallb isa_Constant args = false -> Fold op args ty = None.
Proof.
  intros Hc. destruct (Fold op args ty) as [c|] eqn:E; [|reflexivity].
  apply Fold_operands in E. congruence.
Qed.

(** An integer condition value is compared with the zero of its type. *)
Lemma condToBool_integer cv name s :
  isIntegerTy (getType_of cv) = true ->
  condToBool cv name s =
  request (ICmp ICMP_NE) [cv; ConstantInt (getType_of cv) 0] Int1Ty name s.
Proof.
  intros Hty. unfold condToBool, CreateICmp, ConstantInt_get0, zeroOfScalar.
  destruct (getType_of cv); try discriminate. reflexivity.
Qed.

(** A float condition value is the operand of an integer comparison
    too, with the zero of the integer type of width 0. *)
Lemma condToBool_float cv name s :
  getType_of cv = FloatTy ->
  condToBool cv name s =
  request (ICmp ICMP_NE) [cv; ConstantInt (IntegerTy 0) 0] Int1Ty name s.
Proof.
  intros Hty. unfold condToBool, CreateICmp, ConstantInt_get0, zeroOfScalar.
  rewrite Hty. reflexivity.
Qed.

(** Running the generator on a program up to the verifier: the one
    request to the folder has an operand that is not a constant. *)
Ltac run_to_verifier Ho Hv :=
  vm_compute;
  match goal with
  | |- context [match ?fold_ ?op ?args ?ty with Some _ => _ | None => _ end] =>
      let E := fresh "E" in
      destruct (fold_ op args ty) eqn:E; [apply Ho in E; discriminate E|]
  end;
  vm_compute;
  match goal with
  | |- context [match ?vf ?f ?s with Some _ => _ | None => _ end] =>
      let H := fresh "H" in
      assert (H : is_Some (vf f s));
      [|destruct H as [msg H]; rewrite H; exists msg; reflexivity]
  end.

(** C3, at the input where the code departs from it: with a [float]
    variable as the condition of an [if] or of a [while], the value is
    not coerced to a boolean by a comparison of floats with zero: the
    generator emits the integer comparison [icmp ne] of the float with
    the constant [i0 0], the verifier rejects the function, and the
    generation fails. *)
Theorem float_condition_not_lowered :
  (forall cv name s,
      getType_of cv = FloatTy -> isa_Constant cv = false ->
      condToBool cv name s
      = Ok (Instruction (nextId s) Int1Ty,
            set_emitted
              (emitted s ++
               [(insertBlock s,
                 IOp (nextId s) (ICmp ICMP_NE) [cv; ConstantInt (IntegerTy 0) 0]
                     Int1Ty name)])
              (set_nextId (S (nextId s)) s)))
  /\ (exists msg, generate float_condition_if empty
                  = Err (Thrown ("Function verification failed: " +:+ msg)))
  /\ (exists msg, generate float_condition_while empty
                  = Err (Thrown ("Function verification failed: " +:+ msg))).
Proof.
  split; [|split].
  - intros cv name s Hty Hc. rewrite condToBool_float by exact Hty.
    unfold request. rewrite Fold_not_constant by (simpl; rewrite Hc; reflexivity).
    reflexivity.
  - destruct F as [fold_ Hc Ho]. destruct V as [vf vm Hv]. cbn in Ho, Hv.
    run_to_verifier Ho Hv.
    eapply (Hv _ _ _ _ _ ICMP_NE (LoadInst _ FloatTy) (ConstantInt (IntegerTy 0) 0)).
    + vm_compute. repeat (first [left; reflexivity | right]).
    + vm_compute. reflexivity.
    + discriminate.
  - destruct F as [fold_ Hc Ho]. destruct V as [vf vm Hv]. cbn in Ho, Hv.
    run_to_verifier Ho Hv.
    eapply (Hv _ _ _ _ _ ICMP_NE (LoadInst _ FloatTy) (ConstantInt (IntegerTy 0) 0)).
    + vm_compute. repeat (first [left; reflexivity | right]).
    + vm_compute. reflexivity.
    + discriminate.
Qed.

End Conditions.

Section ConditionsInteger.
Import IRGenerator Examples.

(** With an [int] variable the same statement is lowered: load, compare
    not equal with [i32 0], conditional branch. *)
Lemma int_condition_lowered :
  exists s x, generate (H := NoFolder) (V := ICmpVerifier) int_condition_if empty = Ok (tt, s)
    /\ x = LoadInst 16 Int32Ty
    /\ take 3 (drop 2 (map snd (emitted s))) =
       [ILoad 16 Int32Ty (AllocaInst 15 Int32Ty) "loadtmp";
        IOp 17 (ICmp ICMP_NE) [x; ConstantInt Int32Ty 0] Int1Ty "ifcond";
        ICondBr (Instruction 17 Int1Ty) 18 19].
Proof.
  eexists _, _. split; [vm_compute; reflexivity|]. split; [reflexivity|].
  vm_compute. reflexivity.
Qed.

End ConditionsInteger.
(** ** Scalar initializers *)

Section ScalarInitializers.
Import IRGenerator Examples.
Context {F : IRBuilderFolder}.

Ltac munfold :=
  unfold lookupSymbol in *;
  unfold mbind, M_bind, mret, M_ret, throw, gets, lift in *;
  cbn beta iota in *.

Lemma Ty_eqb_refl t : Ty_eqb t t = true.
Proof.
  induction t; simpl; rewrite ?IHt, ?N.eqb_refl, ?Z.eqb_refl; reflexivity.
Qed.

Lemma Ty_eqb_eq a b : Ty_eqb a b = true <-> a = b.
Proof.
  split; [|intros ->; apply Ty_eqb_refl].
  revert b. induction a; intros [] E; simpl in E; try discriminate; try reflexivity.
  - apply N.eqb_eq in E. congruence.
  - apply andb_true_iff in E as [E1 E2]. apply IHa in E1. apply Z.eqb_eq in E2. congruence.
  - apply andb_true_iff in E as [E1 E2]. apply IHa in E1. apply Z.eqb_eq in E2. congruence.
Qed.

Lemma Ty_eqb_neq a b : a <> b -> Ty_eqb a b = false.
Proof.
  intros Hne. destruct (Ty_eqb a b) eqn:E; [|reflexivity].
  apply Ty_eqb_eq in E. contradiction.
Qed.

(** The initializer expression of a scalar whose object is a global
    one, lowered to a value of another type. *)
Lemma initScalar_global_mismatch g ty v s :
  getType_of v <> ty ->
  initScalar (GlobalVariable g ty) v s
  = Err (if isa_Constant v then "Type mismatch in global variable initializer"
         else "Global variable initializer must be a constant").
Proof.
  intros Hty. unfold initScalar. munfold. simpl.
  destruct (isa_Constant v); simpl; [|reflexivity].
  rewrite (Ty_eqb_neq _ _ Hty). reflexivity.
Qed.

Lemma generateInitVal_scalar e ptr ty s :
  pointeeType ptr s = Ok (ty, s) -> isVectorTy ty = false ->
  generateInitVal (ExprInitValAST e) ptr 0 [] s
  = (value ← generateExpr e; initScalar ptr value) s.
Proof.
  intros Hp Hv. unfold generateInitVal. munfold. rewrite Hp.
  destruct ty; try discriminate; reflexivity.
Qed.

(** C9 (as the code has it).  Let the declared type of a scalar be
    [ty] and its initializer expression lower to a value of another
    type.  When the scalar is a global variable, or a constant (which
    is a global object wherever it is declared), the generation fails:
    with the type-mismatch error when the value is a constant (with the
    not-a-constant error otherwise), and nothing is converted.  When it
    is a local variable, a [float] value for an integer cell is
    converted by [fptosi], an integer value for a [float] cell by
    [sitofp], and the converted value is stored into the cell; any
    other mismatch is an error. *)
Theorem scalar_initializer_mismatch type ty s :
  getType type s = Ok (ty, s) ->
  isVectorTy ty = false ->
  (forall isConst name e g s1 v s2,
      (isConst = false -> currentFunction s = None) ->
      lookup_in (symbolTableStack s) name = None ->
      new_GlobalVariable ty isConst ExternalLinkage None name s = Ok (g, s1) ->
      generateExpr e s1 = Ok (v, s2) ->
      getType_of v <> ty ->
      generateDecl (scalarDecl isConst type name e) s
      = Err (if isa_Constant v then "Type mismatch in global variable initializer"
             else "Global variable initializer must be a constant"))
  /\ (forall name e cell s1 v s2,
         is_Some (currentFunction s) ->
         CreateAlloca ty name s = Ok (cell, s1) ->
         generateExpr e s1 = Ok (v, s2) ->
         getType_of v <> ty ->
         generateDecl (scalarDecl false type name e) s
         = (converted ←
              (if isIntegerTy ty && isFloatTy (getType_of v)
               then CreateCast FPToSI v ty "fptosi"
               else if isFloatTy ty && isIntegerTy (getType_of v)
               then CreateCast SIToFP v ty "sitofp"
               else throw "Type mismatch in variable initializer");
            CreateStore converted cell;;
            addSymbol name (SymbolInfo3 cell false false)) s2).
Proof.
  intros Hgt Hvec. split.
  - intros isConst name e g s1 v s2 Hcur Hlook Hnew He Hty.
    assert (Hinit : generateInitVal (ExprInitValAST e) (GlobalVariable g ty) 0 [] s1
                    = Err (if isa_Constant v
                           then "Type mismatch in global variable initializer"
                           else "Global variable initializer must be a constant")).
    { rewrite (generateInitVal_scalar e _ ty) by (reflexivity || exact Hvec).
      munfold. rewrite He. apply initScalar_global_mismatch, Hty. }
    destruct isConst; unfold scalarDecl, generateDecl; cbn [forM_].
    + unfold generateConstDef. cbn [arraySizes def_name initVal evalArraySizes].
      munfold. rewrite Hgt. rewrite andb_false_r. cbn [arrayTypeOf fold_right length].
      rewrite Hlook, Hnew, Hinit. reflexivity.
    + unfold generateVarDef. cbn [arraySizes def_name initVal evalArraySizes].
      munfold. rewrite Hgt. rewrite andb_false_r. cbn [arrayTypeOf fold_right length].
      rewrite (Hcur eq_refl), Hlook, Hnew, Hinit. reflexivity.
  - intros name e cell s1 v s2 [f Hcur] Halloca He Hty.
    assert (Hcell : exists id, cell = AllocaInst id ty).
    { unfold CreateAlloca, GetInsertBlock, fresh, insert, modify in Halloca. munfold.
      destruct (insertBlock s); [|discriminate].
      injection Halloca as <- _. eexists. reflexivity. }
    destruct Hcell as [id ->].
    unfold scalarDecl, generateDecl; cbn [forM_].
    unfold generateVarDef. cbn [arraySizes def_name initVal evalArraySizes].
    munfold. rewrite Hgt. rewrite andb_false_r. cbn [arrayTypeOf fold_right length].
    rewrite Hcur, Halloca.
    rewrite (generateInitVal_scalar e _ ty) by (reflexivity || exact Hvec).
    munfold. rewrite He. unfold initScalar. munfold. simpl.
    rewrite (Ty_eqb_neq _ _ Hty). simpl.
    destruct (isIntegerTy ty && isFloatTy (getType_of v)).
    + destruct (CreateCast FPToSI v ty "fptosi" s2) as [[cv s3]|]; [|reflexivity].
      destruct (CreateStore cv (AllocaInst id ty) s3) as [[[] s4]|]; [|reflexivity].
      destruct (addSymbol name _ s4) as [[[] s5]|]; reflexivity.
    + destruct (isFloatTy ty && isIntegerTy (getType_of v)); [|reflexivity].
      destruct (CreateCast SIToFP v ty "sitofp" s2) as [[cv s3]|]; [|reflexivity].
      destruct (CreateStore cv (AllocaInst id ty) s3) as [[[] s4]|]; [|reflexivity].
      destruct (addSymbol name _ s4) as [[[] s5]|]; reflexivity.
Qed.

End ScalarInitializers.

Section ScalarInitializersWitness.
Import IRGenerator Examples.

(** Inside [main], after [int n = 1;]: [const float c = 1;] is
    rejected, [float x = n;] stores the converted [n]. *)
Lemma scalar_initializer_mismatch_witness :
  let s := after_local_int in
  (getType floatT s = Ok (FloatTy, s) /\ isVectorTy FloatTy = false)
  /\ generateDecl (H := NoFolder) (scalarDecl true floatT "c" (lit 1)) s
     = Err "Type mismatch in global variable initializer"
  /\ (exists s', generateDecl (H := NoFolder) (scalarDecl false floatT "x" (var "n")) s
                 = Ok (tt, s')
                 /\ drop (length (emitted s)) (map snd (emitted s')) =
                    [IAlloca 3 FloatTy "x";
                     ILoad 4 Int32Ty (AllocaInst 2 Int32Ty) "loadtmp";
                     IOp 5 SIToFP [LoadInst 4 Int32Ty] FloatTy "sitofp";
                     IStore (Instruction 5 FloatTy) (AllocaInst 3 FloatTy)]).
Proof.
  intros s.
  assert (H1 : getType floatT s = Ok (FloatTy, s)) by reflexivity.
  assert (H2 : isVectorTy FloatTy = false) by reflexivity.
  pose proof (scalar_initializer_mismatch (F := NoFolder) floatT FloatTy s H1 H2)
    as [Hg Hl].
  split; [split; assumption|]. split.
  - destruct (new_GlobalVariable FloatTy true ExternalLinkage None "c" s)
      as [[g s1]|] eqn:Hnew; [|vm_compute in Hnew; discriminate Hnew].
    refine (Hg true "c" (lit 1) g s1 (ConstantInt Int32Ty 1) s1 _ _ Hnew _ _).
    + discriminate.
    + vm_compute. reflexivity.
    + reflexivity.
    + discriminate.
  - destruct (CreateAlloca FloatTy "x" s) as [[cell s1]|] eqn:Ha;
      [|vm_compute in Ha; discriminate Ha].
    pose proof Ha as Ha'. vm_compute in Ha'. injection Ha' as <- <-.
    match type of Ha with
    | _ = Ok (_, ?s1) =>
        destruct (generateExpr (H := NoFolder) (var "n") s1) as [[v s2]|] eqn:He;
        [|vm_compute in He; discriminate He]
    end.
    pose proof He as He'. vm_compute in He'. injection He' as <- <-.
    eexists. split.
    + rewrite (Hl "x" (var "n") _ _ _ _ ltac:(vm_compute; eexists; reflexivity) Ha He
                 ltac:(discriminate)).
      vm_compute. reflexivity.
    + vm_compute. reflexivity.
Defined.

End ScalarInitializersWitness.

Section ScalarInitializersCounterexample.
Import IRGenerator Examples.

(** C9, refuted as stated: the local scalar [c] of
    [int main() { const float c = 1; return 0; }] has an initializer of
    another type; its value is not converted and stored, the generation
    fails. *)
Lemma local_constant_mismatch_rejected :
  generate (H := NoFolder) (V := ICmpVerifier) local_const_mismatch empty
  = Err "Type mismatch in global variable initializer".
Proof. vm_compute. reflexivity. Qed.

End ScalarInitializersCounterexample.

(** ** Vector elements *)

Section VectorElements.
Import IRGenerator Examples.
Context {F : IRBuilderFolder}.

Ltac munfold :=
  unfold lookupSymbol in *;
  unfold mbind, M_bind, mret, M_ret, throw, gets, lift in *;
  cbn beta iota in *.

(** What the three requests that need the insertion block do when the
    builder has one. *)
Lemma CreateAlloca_in_block ty name s b :
  insertBlock s = Some b ->
  CreateAlloca ty name s
  = Ok (AllocaInst (nextId s) ty,
        set_emitted (emitted s ++ [(Some b, IAlloca (nextId s) ty name)])
                    (set_nextId (S (nextId s)) s)).
Proof.
  intros Hb. unfold CreateAlloca, GetInsertBlock, fresh, insert, modify. munfold.
  rewrite Hb. simpl. rewrite Hb. reflexivity.
Qed.

Lemma CreateLoad_in_block ty ptr name s b :
  insertBlock s = Some b ->
  CreateLoad ty ptr name s
  = Ok (LoadInst (nextId s) ty,
        set_emitted (emitted s ++ [(Some b, ILoad (nextId s) ty ptr name)])
                    (set_nextId (S (nextId s)) s)).
Proof.
  intros Hb. unfold CreateLoad, GetInsertBlock, fresh, insert, modify. munfold.
  rewrite Hb. simpl. rewrite Hb. reflexivity.
Qed.

Lemma CreateStore_in_block val ptr s b :
  insertBlock s = Some b ->
  CreateStore val ptr s
  = Ok (tt, set_emitted (emitted s ++ [(Some b, IStore val ptr)]) s).
Proof.
  intros Hb. unfold CreateStore, GetInsertBlock, insert, modify. munfold.
  rewrite Hb. simpl. rewrite Hb. reflexivity.
Qed.

Lemma vector_not_own_element elemType n : VectorTy elemType n <> elemType.
Proof.
  revert n. induction elemType; intros m E; try discriminate.
  injection E as E1 E2. exact (IHelemType _ E1).
Qed.

(** C10 (as the code has it).  The address of an element of a vector
    variable.  When the variable is a constant, the lowering fails, as
    for every constant.  When it is not: the vector is loaded from its
    cell, the index lowered, the element extracted; then a new stack
    cell is allocated, the element stored into it, and that cell is the
    address returned.  The new cell is not the cell of the vector, and
    the store into the new cell is the only instruction emitted after
    the index. *)
Theorem vector_element_address_is_temporary s name sym elemType n index :
  lookup_in (symbolTableStack s) name = Some sym ->
  allocatedType_of (value sym) = Some (VectorTy elemType n) ->
  (isConst sym = true ->
   generateLValAddress name [index] s
   = Err (Thrown ("Cannot assign to constant '" +:+ name +:+ "'")))
  /\ (isConst sym = false ->
      forall vec s0 indexValue s2,
        CreateLoad (VectorTy elemType n) (value sym) "vecload" s = Ok (vec, s0) ->
        vectorIndex index s0 = Ok (indexValue, s2) ->
        is_Some (insertBlock s2) ->
        exists elem s3,
          CreateExtractElement vec indexValue "vecelem" s2 = Ok (elem, s3)
          /\ let tmp := AllocaInst (nextId s3) elemType in
             generateLValAddress name [index] s
             = Ok (tmp,
                   set_emitted
                     (emitted s3 ++
                      [(insertBlock s3, IAlloca (nextId s3) elemType "vec.elem.tmp");
                       (insertBlock s3, IStore elem tmp)])
                     (set_nextId (S (nextId s3)) s3))
             /\ tmp <> value sym).
Proof.
  intros Hlook Hty. split.
  - intros Hconst. unfold generateLValAddress. munfold. rewrite Hlook, Hconst.
    reflexivity.
  - intros Hconst vec s0 indexValue s2 Hload Hidx [b Hb].
    assert (Hex : exists elem s3,
               CreateExtractElement vec indexValue "vecelem" s2 = Ok (elem, s3)
               /\ insertBlock s3 = Some b).
    { unfold CreateExtractElement, request, fresh, insert, modify. munfold.
      destruct (Fold _ _ _); eexists _, _; (split; [reflexivity|exact Hb]). }
    destruct Hex as (elem & s3 & Hex & Hb3). exists elem, s3.
    split; [exact Hex|]. split.
    + unfold generateLValAddress. munfold. rewrite Hlook, Hconst.
      unfold isArrayParam. rewrite Hty.
      change (isPointerTy (VectorTy elemType n)) with false. rewrite andb_false_r.
      change (negb (bool_decide (length [index] = 1%nat))) with false.
      cbn beta iota. rewrite Hload, Hidx, Hex.
      rewrite (CreateAlloca_in_block _ _ _ _ Hb3).
      rewrite (CreateStore_in_block _ _ _ b) by exact Hb3.
      rewrite Hb3. unfold set_emitted, set_nextId. simpl.
      rewrite <- app_assoc. reflexivity.
    + intros E. destruct (value sym); try discriminate; simpl in Hty.
      injection Hty as ->. injection E as _ E. symmetry in E.
      exact (vector_not_own_element _ _ E).
Qed.

End VectorElements.

Section VectorElementsWitness.
Import IRGenerator Examples.

(** [v[2]] as an address, for a local [vector<int,4> v]. *)
Lemma vector_element_address_is_temporary_witness :
  let s := after_local_vector in
  let cell := AllocaInst 2 (VectorTy Int32Ty 4) in
  let sym := SymbolInfo3 cell false false in
  let index := generateExpr (H := NoFolder) (lit 2) in
  (lookup_in (symbolTableStack s) "v" = Some sym
   /\ allocatedType_of (value sym) = Some (VectorTy Int32Ty 4))
  /\ exists tmp s',
      generateLValAddress (H := NoFolder) "v" [index] s = Ok (tmp, s')
      /\ tmp <> cell.
Proof.
  intros s cell sym index.
  assert (H1 : lookup_in (symbolTableStack s) "v" = Some sym) by (vm_compute; reflexivity).
  assert (H3 : allocatedType_of (value sym) = Some (VectorTy Int32Ty 4)) by reflexivity.
  split; [split; assumption|].
  destruct (CreateLoad (VectorTy Int32Ty 4) (value sym) "vecload" s)
    as [[vec s0]|] eqn:H4; [|vm_compute in H4; discriminate H4].
  assert (H5 : vectorIndex (H := NoFolder) index s0 = Ok (ConstantInt Int32Ty 2, s0))
    by reflexivity.
  assert (H6 : is_Some (insertBlock s0)).
  { vm_compute in H4. injection H4 as _ <-. vm_compute. eexists. reflexivity. }
  destruct (proj2 (vector_element_address_is_temporary (F := NoFolder)
                     s "v" sym Int32Ty 4 index H1 H3) eq_refl
              vec s0 (ConstantInt Int32Ty 2) s0 H4 H5 H6)
    as (elem & s3 & _ & Hret & Hne).
  eexists _, _. split; [exact Hret|exact Hne].
Defined.

End VectorElementsWitness.

Section VectorElementsCounterexample.
Import IRGenerator Examples.

(** C10, refuted as stated: [cv[0]] is an element of the constant
    vector [cv]; in address mode, as the argument of [putarray] that has
    to be a pointer, it gives no temporary: the generation fails. *)
Lemma const_vector_element_has_no_address :
  (exists sym,
      lookup_in (symbolTableStack after_const_vector) "cv" = Some sym
      /\ allocatedType_of (value sym) = Some (VectorTy Int32Ty 4)
      /\ generateLValAddress (H := NoFolder) "cv" [generateExpr (H := NoFolder) (lit 0)]
           after_const_vector
         = Err "Cannot assign to constant 'cv'")
  /\ generate (H := NoFolder) (V := ICmpVerifier) const_vector_argument empty
     = Err "Cannot assign to constant 'cv'".
Proof.
  split.
  - eexists. split; [vm_compute; reflexivity|]. split; vm_compute; reflexivity.
  - vm_compute. reflexivity.
Qed.

End VectorElementsCounterexample.
(** * Further properties of the code *)

(** ** The constant folder: what one pass reaches *)

Section FolderNormalForm.
Import ConstantFolder FolderSpec.

Lemma fold_literal_shape e : forall e',
  foldAndReplaceExpr e = Some e' ->
  isIntLit e' = int_closed e /\ isFloatLit e' = float_closed e.
Proof.
  induction e as [v l|v l|n idx l IH|op a b l IHa IHb|op a l IHa|f args l IH|s l]
    using ExprAST_ind'; intros e' E; simpl in E.
  - injection E as <-. split; reflexivity.
  - injection E as <-. split; reflexivity.
  - destruct (mapM foldAndReplaceExpr idx); [|discriminate].
    injection E as <-. split; reflexivity.
  - destruct (foldAndReplaceExpr a) as [a'|]; [|discriminate].
    destruct (foldAndReplaceExpr b) as [b'|]; [|discriminate]. simpl in E.
    destruct (IHa _ eq_refl) as [IHa1 IHa2]. destruct (IHb _ eq_refl) as [IHb1 IHb2].
    simpl int_closed. simpl float_closed.
    rewrite <- IHa1, <- IHb1, <- IHa2, <- IHb2.
    destruct a'; destruct b'; simpl in E;
      try (destruct (evaluateBinaryOp_int op _ _); simpl in E; [|discriminate]);
      injection E as <-; split; reflexivity.
  - destruct (foldAndReplaceExpr a) as [a'|]; [|discriminate]. simpl in E.
    destruct (IHa _ eq_refl) as [IHa1 IHa2].
    simpl int_closed. simpl float_closed. rewrite <- IHa1, <- IHa2.
    destruct a'; injection E as <-; split; reflexivity.
  - destruct (mapM foldAndReplaceExpr args); [|discriminate].
    injection E as <-. split; reflexivity.
  - injection E as <-. split; reflexivity.
Qed.

(** No operation on floats traps: an expression built from float
    literals alone is always folded. *)
Lemma fold_float_closed e :
  float_closed e = true -> exists v l, foldAndReplaceExpr e = Some (FloatConstExprAST v l).
Proof.
  induction e as [v l|v l|n idx l IH|op a b l IHa IHb|op a l IHa|f args l IH|s l]
    using ExprAST_ind'; intros Hc; simpl in Hc; try discriminate.
  - eexists _, _. reflexivity.
  - apply andb_true_iff in Hc as [Ha Hb].
    destruct (IHa Ha) as (va & la & Ea). destruct (IHb Hb) as (vb & lb & Eb).
    simpl. rewrite Ea, Eb. eexists _, _. reflexivity.
  - destruct (IHa Hc) as (va & la & Ea). simpl. rewrite Ea. eexists _, _. reflexivity.
Qed.

(** X1.  One pass of [foldAndReplaceExpr] that returns leaves nothing
    to fold, and the expressions a pass returns as they are are exactly
    those in which nothing is left to fold. *)
Theorem fold_fixed_points e :
  (forall e', foldAndReplaceExpr e = Some e' -> folded e' = true)
  /\ (foldAndReplaceExpr e = Some e <-> folded e = true).
Proof.
  split; [apply fold_folded|]. split.
  - apply fold_folded.
  - apply folded_fixed.
Qed.

(** X2.  Where the folding of an expression returns, it returns an
    integer literal exactly when the expression is built from integer
    literals by operators alone, and a float literal exactly when it is
    built from float literals alone: an operation that mixes the two
    kinds, a variable, a call or a string keeps the expression around
    it from folding.  The folding of an expression built from float
    literals alone always returns. *)
Theorem fold_to_literal_iff_closed e :
  (forall e', foldAndReplaceExpr e = Some e' ->
     ((exists v l, e' = IntConstExprAST v l) <-> int_closed e = true)
     /\ ((exists v l, e' = FloatConstExprAST v l) <-> float_closed e = true))
  /\ (float_closed e = true ->
      exists v l, foldAndReplaceExpr e = Some (FloatConstExprAST v l)).
Proof.
  split; [|apply fold_float_closed].
  intros e' E. destruct (fold_literal_shape e e' E) as [Hi Hf]. split; split.
  - intros (v & l & ->). rewrite <- Hi. reflexivity.
  - intros Hc. rewrite <- Hi in Hc. destruct e'; try discriminate.
    eexists _, _. reflexivity.
  - intros (v & l & ->). rewrite <- Hf. reflexivity.
  - intros Hc. rewrite <- Hf in Hc. destruct e'; try discriminate.
    eexists _, _. reflexivity.
Qed.

(** X3.  Folding a unary operation over a 32-bit integer literal gives
    the literal of the operator applied in 32-bit two's complement:
    [+a] is [a], [-a] wraps around (so [-INT_MIN] is [INT_MIN]), [!a] is
    1 for zero and 0 otherwise. *)
Theorem fold_int_unary_correct op a la line :
  in_int a ->
  foldAndReplaceExpr (UnaryExprAST op (IntConstExprAST a la) line)
  = Some (IntConstExprAST (unop op a) line)
  /\ in_int (unop op a).
Proof.
  intros Ha. simpl. destruct op; simpl; unfold Int32Spec.truth.
  - split; [reflexivity|exact Ha].
  - rewrite <- wrap32_truncate. split; [reflexivity|apply wrap32_range].
  - destruct (a =? 0); simpl; split; try reflexivity; unfold in_int, INT_MIN, INT_MAX; lia.
Qed.

Lemma fold_int_unary_correct_witness :
  in_int INT_MIN /\
  foldAndReplaceExpr (UnaryExprAST MINUS (IntConstExprAST INT_MIN 1) 1)
  = Some (IntConstExprAST INT_MIN 1).
Proof.
  assert (Ha : in_int INT_MIN) by (unfold in_int, INT_MIN, INT_MAX; lia).
  split; [exact Ha|].
  exact (proj1 (fold_int_unary_correct MINUS INT_MIN 1 1 Ha)).
Defined.

End FolderNormalForm.

(** ** The constant folder: the flag it returns and the driver *)

Section FolderFlag.
Import ConstantFolder FolderSpec Examples.

(** X4.  Where [fold] returns, it returns true exactly when the
    compilation unit has an expression slot for it to visit (an
    initializer expression, or a statement with an expression), whether
    or not the pass rewrote anything. *)
Theorem fold_flag_iff_slot ast ast1 changed :
  fold ast = Some (ast1, changed) -> changed = unit_has_slot ast.
Proof. apply fold_flag. Qed.

(** [int main() { return 0; }] has a slot, and nothing to rewrite. *)
Lemma fold_flag_iff_slot_witness :
  fold main_return_0 = Some (main_return_0, true)
  /\ true = unit_has_slot main_return_0.
Proof.
  assert (E : fold main_return_0 = Some (main_return_0, true)) by reflexivity.
  split; [exact E|]. exact (fold_flag_iff_slot _ _ _ E).
Defined.

(** X5.  The driver, started as its constructor leaves it, is killed
    when its first pass is; otherwise it returns, with the tree of a
    single pass of the folder, after all 8 passes when the unit has an
    expression slot and after one pass when it has none.  (The model of
    its loop is never short of fuel.) *)
Theorem optimize_passes verbose ast :
  ASTOptimizer.optimize (ASTOptimizer.init verbose) ast
  = match fold ast with
    | Some (ast1, _) =>
        ASTOptimizer.Returns
          (ASTOptimizer.mk verbose (if unit_has_slot ast then 8 else 1), ast1)
    | None => ASTOptimizer.Trapped
    end.
Proof.
  rewrite optimize_run. destruct (fold ast) as [[ast1 c]|] eqn:E; [|reflexivity].
  rewrite (fold_flag _ _ _ E). reflexivity.
Qed.

End FolderFlag.

(** ** The folder and the const evaluator agree *)

Section FolderAndEvaluator.
Import ConstantFolder FolderSpec IRGenerator.

Ltac munfold :=
  unfold lookupSymbol in *;
  unfold machine, int_div, int_rem in *;
  unfold mbind, M_bind, mret, M_ret, throw, kill, gets, lift in *;
  cbn beta iota in *.

(** X6.  On an expression built from integer literals alone, whenever
    the const evaluator of the generator gives a value, the folder
    gives the literal of the same value. *)
Theorem fold_agrees_with_const_evaluator e s v s' :
  int_closed e = true ->
  evaluateConstExpr e s = Ok (v, s') ->
  exists line, foldAndReplaceExpr e = Some (IntConstExprAST v line).
Proof.
  revert v s'.
  induction e as [v0 l|v0 l|n idx l|op a IHa b IHb l|op a IHa l|f args l|str l];
    intros v s' Hc E; simpl in Hc; try discriminate.
  - simpl in E. munfold. destruct (v0 <? 0); [discriminate|].
    injection E as <- _. eexists. reflexivity.
  - apply andb_true_iff in Hc as [Hca Hcb].
    simpl in E. munfold.
    destruct (evaluateConstExpr a s) as [[x s1]|] eqn:Ea; [|discriminate].
    pose proof (evaluateConstExpr_pure _ _ _ _ Ea). subst s1.
    destruct (evaluateConstExpr b s) as [[y s2]|] eqn:Eb; [|discriminate].
    destruct (IHa _ _ Hca eq_refl) as [la Fa]. destruct (IHb _ _ Hcb eq_refl) as [lb Fb].
    cbn [foldAndReplaceExpr]. rewrite Fa, Fb. exists l.
    destruct op; try discriminate; simpl.
    + injection E as <- _. reflexivity.
    + injection E as <- _. reflexivity.
    + injection E as <- _. reflexivity.
    + destruct (y =? 0); [discriminate|]. simpl. unfold int_div.
      destruct (division_traps x y); [discriminate|].
      injection E as <- _. reflexivity.
    + destruct (y =? 0); [discriminate|]. simpl. unfold int_rem.
      destruct (division_traps x y); [discriminate|].
      injection E as <- _. reflexivity.
  - simpl in E. munfold.
    destruct (evaluateConstExpr a s) as [[x s1]|] eqn:Ea; [|discriminate].
    destruct (IHa _ _ Hc eq_refl) as [la Fa].
    cbn [foldAndReplaceExpr]. rewrite Fa. exists l.
    destruct op; try discriminate; injection E as <- _; reflexivity.
Qed.

(** [7 - 2 * 3] evaluates to 1 and folds to 1. *)
Lemma fold_agrees_with_const_evaluator_witness :
  let e := BinaryExprAST SUB (IntConstExprAST 7 1)
             (BinaryExprAST MUL (IntConstExprAST 2 1) (IntConstExprAST 3 1) 1) 1 in
  (int_closed e = true /\ evaluateConstExpr e empty = Ok (1, empty))
  /\ exists line, foldAndReplaceExpr e = Some (IntConstExprAST 1 line).
Proof.
  intros e.
  assert (H1 : int_closed e = true) by reflexivity.
  assert (H2 : evaluateConstExpr e empty = Ok (1, empty)) by reflexivity.
  split; [split; assumption|].
  exact (fold_agrees_with_const_evaluator e empty 1 empty H1 H2).
Defined.

End FolderAndEvaluator.

(** ** What the folder leaves alone *)

Section FolderFrame.
Import ConstantFolder FolderSpec Examples.

Lemma mapM_flat_map {A B} (f : A -> option A) (g : A -> list B) l k :
  Forall (fun x => forall y, f x = Some y -> g y = g x) l ->
  mapM f l = Some k -> flat_map g k = flat_map g l.
Proof.
  intros IH E. apply mapM_Some in E.
  induction E as [|x y l k Hxy _ IHE]; [reflexivity|].
  apply Forall_cons in IH as [Hx Hl]. simpl. rewrite (Hx _ Hxy), (IHE Hl). reflexivity.
Qed.

Lemma mapM_map {A B} (f : A -> option A) (g : A -> B) l k :
  Forall (fun x => forall y, f x = Some y -> g y = g x) l ->
  mapM f l = Some k -> map g k = map g l.
Proof.
  intros IH E. apply mapM_Some in E.
  induction E as [|x y l k Hxy _ IHE]; [reflexivity|].
  apply Forall_cons in IH as [Hx Hl]. simpl. rewrite (Hx _ Hxy), (IHE Hl). reflexivity.
Qed.

Lemma passDecl_declarators d d' :
  passDecl d = Some d' -> decl_declarators d' = decl_declarators d.
Proof.
  destruct d as [t defs|t defs]; simpl; intros E;
    destruct (mapM passDef defs) as [defs'|] eqn:Ed; try discriminate;
    injection E as <-; simpl; f_equal;
    (apply (mapM_map passDef _ defs defs'); [|exact Ed]);
    apply Forall_all; intros [n sz [iv|]] y; unfold passDef; simpl; intros Ey;
    try (destruct (passInitVal iv); [|discriminate]);
    injection Ey as <-; reflexivity.
Qed.

(** The declarations and the assignment targets of a statement, after
    a pass. *)
Lemma passStmt_frame s : forall s',
  passStmt s = Some s' ->
  map decl_declarators (stmt_decls s') = map decl_declarators (stmt_decls s)
  /\ stmt_targets s' = stmt_targets s.
Proof.
  induction s as [n idx l e|e|e|c t IHt|c t e IHt IHe|c b IHb| | |items IH]
    using StmtAST_ind'; intros s' E; simpl in E.
  - destruct (foldAndReplaceExpr e); [|discriminate]. injection E as <-.
    split; reflexivity.
  - destruct e as [e|]; [|injection E as <-; split; reflexivity].
    destruct (foldAndReplaceExpr e); [|discriminate]. injection E as <-.
    split; reflexivity.
  - destruct e as [e|]; [|injection E as <-; split; reflexivity].
    destruct (foldAndReplaceExpr e); [|discriminate]. injection E as <-.
    split; reflexivity.
  - destruct (foldAndReplaceExpr c); [|discriminate]. simpl in E.
    destruct (passStmt t) as [t'|]; [|discriminate]. injection E as <-.
    destruct (IHt _ eq_refl) as [H1 H2]. simpl. rewrite !app_nil_r. split; assumption.
  - destruct (foldAndReplaceExpr c); [|discriminate]. simpl in E.
    destruct (passStmt t) as [t'|]; [|discriminate]. simpl in E.
    destruct (passStmt e) as [e'|]; [|discriminate]. injection E as <-.
    destruct (IHt _ eq_refl) as [H1 H2]. destruct (IHe _ eq_refl) as [H3 H4].
    simpl. rewrite !map_app, H1, H2, H3, H4. split; reflexivity.
  - destruct (foldAndReplaceExpr c); [|discriminate]. simpl in E.
    destruct (passStmt b) as [b'|]; [|discriminate]. injection E as <-.
    exact (IHb _ eq_refl).
  - injection E as <-. split; reflexivity.
  - injection E as <-. split; reflexivity.
  - fold passItem in E.
    destruct (mapM passItem items) as [items'|] eqn:Ei; [|discriminate].
    injection E as <-. cbn [stmt_decls stmt_targets]. split.
    + rewrite !flat_map_concat_map, !concat_map, !map_map.
      f_equal. apply (mapM_map passItem _ items items'); [|exact Ei].
      eapply Forall_impl; [exact IH|].
      intros [d|s]; simpl; intros Hs y Ey.
      * destruct (passDecl d) as [d'|] eqn:Ed; [|discriminate].
        injection Ey as <-. simpl. rewrite (passDecl_declarators _ _ Ed). reflexivity.
      * destruct (passStmt s) as [s1|] eqn:Es; [|discriminate].
        injection Ey as <-. exact (proj1 (Hs _ eq_refl)).
    + apply (mapM_flat_map passItem _ items items'); [|exact Ei].
      eapply Forall_impl; [exact IH|].
      intros [d|s]; simpl; intros Hs y Ey.
      * destruct (passDecl d) as [d'|] eqn:Ed; [|discriminate].
        injection Ey as <-. reflexivity.
      * destruct (passStmt s) as [s1|] eqn:Es; [|discriminate].
        injection Ey as <-. exact (proj2 (Hs _ eq_refl)).
Qed.

Lemma passFunction_frame f f' :
  passFunction f = Some f' ->
  function_signature f' = function_signature f
  /\ map decl_declarators (stmt_decls (BlockStmt (func_body f')))
     = map decl_declarators (stmt_decls (BlockStmt (func_body f)))
  /\ stmt_targets (BlockStmt (func_body f')) = stmt_targets (BlockStmt (func_body f)).
Proof.
  unfold passFunction. intros E.
  destruct (mapM passItem (func_body f)) as [b|] eqn:Eb; [|discriminate].
  injection E as <-. split; [reflexivity|]. cbn [func_body].
  apply (passStmt_frame (BlockStmt (func_body f)) (BlockStmt b)).
  rewrite passStmt_block, Eb. reflexivity.
Qed.

(** X7.  A pass of the folder that returns rewrites no array dimension
    expression and no declared type or name, of the global declarations
    and of those inside the function bodies; nothing of the signature
    of a function; and no target of an assignment: of an assignment it
    folds the right-hand side only. *)
Theorem fold_leaves_declarators ast ast1 changed :
  fold ast = Some (ast1, changed) ->
  map decl_declarators (unit_decls ast1) = map decl_declarators (unit_decls ast)
  /\ map function_signature (functions ast1) = map function_signature (functions ast)
  /\ unit_targets ast1 = unit_targets ast.
Proof.
  rewrite fold_pass. unfold passUnit. intros E.
  destruct (mapM passDecl (decls ast)) as [ds|] eqn:Ed; [|discriminate]. simpl in E.
  destruct (mapM passFunction (functions ast)) as [fs|] eqn:Ef; [|discriminate].
  injection E as <- _. unfold unit_decls, unit_targets. cbn [decls functions].
  split; [|split].
  - rewrite !map_app. f_equal.
    + apply (mapM_map passDecl _ (decls ast) ds); [|exact Ed].
      apply Forall_all. intros d d'. apply passDecl_declarators.
    + rewrite !flat_map_concat_map, !concat_map, !map_map.
      f_equal. apply (mapM_map passFunction _ (functions ast) fs); [|exact Ef].
      apply Forall_all. intros f f' E. exact (proj1 (proj2 (passFunction_frame _ _ E))).
  - apply (mapM_map passFunction _ (functions ast) fs); [|exact Ef].
    apply Forall_all. intros f f' E. exact (proj1 (passFunction_frame _ _ E)).
  - apply (mapM_flat_map passFunction _ (functions ast) fs); [|exact Ef].
    apply Forall_all. intros f f' E. exact (proj2 (proj2 (passFunction_frame _ _ E))).
Qed.

(** [int a[1 + 2] = {1 + 1}; int main() { return 0; }]: the pass folds
    the initializer and leaves the bound [1 + 2] as it is. *)
Lemma fold_leaves_declarators_witness :
  exists ast1 changed,
    fold folded_initializer = Some (ast1, changed)
    /\ decls ast1
       = [VarDeclAST intT
            [mkDef "a" [BinaryExprAST ADD (lit 1) (lit 2) 1]
               (Some (ListInitValAST [ExprInitValAST (lit 2)]))]]
    /\ map decl_declarators (unit_decls ast1)
       = [(intT, [("a", [BinaryExprAST ADD (lit 1) (lit 2) 1])])].
Proof.
  destruct (fold folded_initializer) as [[ast1 changed]|] eqn:E;
    [|vm_compute in E; discriminate E].
  exists ast1, changed. split; [reflexivity|]. split.
  - vm_compute in E. injection E as <- _. reflexivity.
  - rewrite (proj1 (fold_leaves_declarators _ _ _ E)). reflexivity.
Defined.

End FolderFrame.

(** ** The scoped symbol table *)

Section SymbolTable.
Import IRGenerator.

Ltac munfold :=
  unfold lookupSymbol in *;
  unfold mbind, M_bind, mret, M_ret, throw, gets, lift in *;
  cbn beta iota in *.

Lemma set_symbolTableStack_same s : set_symbolTableStack (symbolTableStack s) s = s.
Proof. destruct s; reflexivity. Qed.

(** X8.  A binding added in a new scope is the one found for its name,
    whatever the outer scopes bind the name to; the other names are
    found as before; and leaving the scope gives back the generator as
    it was, outer bindings included. *)
Theorem scope_shadowing_and_restore s name info :
  exists s1,
    (pushScope;; addSymbol name info) s = Ok (tt, s1)
    /\ lookup_in (symbolTableStack s1) name = Some info
    /\ (forall other, other <> name ->
          lookup_in (symbolTableStack s1) other = lookup_in (symbolTableStack s) other)
    /\ popScope s1 = Ok (tt, s).
Proof.
  eexists. split; [reflexivity|]. simpl. split; [|split].
  - rewrite lookup_insert_eq. reflexivity.
  - intros other Hne. rewrite lookup_insert_ne by congruence.
    rewrite lookup_empty. reflexivity.
  - unfold popScope. simpl. f_equal. f_equal. destruct s; reflexivity.
Qed.

(** X9.  After a binding was added for a name, the name is found with
    that binding, and a second declaration of the name in the same
    scope is refused as a redeclaration. *)
Theorem addSymbol_then_lookup_and_redeclare s name info s1 :
  addSymbol name info s = Ok (tt, s1) ->
  lookupSymbol name s1 = Ok (Some info, s1)
  /\ forall info', addSymbol name info' s1
                   = Err ("Redeclaration of symbol '" +:+ name +:+ "'").
Proof.
  unfold addSymbol. intros E.
  destruct (symbolTableStack s) as [|top outer] eqn:Est; [discriminate|].
  destruct (top !! name) eqn:Etop; [discriminate|].
  injection E as <-. split.
  - munfold. simpl. rewrite lookup_insert_eq. reflexivity.
  - intros info'. simpl. rewrite lookup_insert_eq. reflexivity.
Qed.

Lemma addSymbol_then_lookup_and_redeclare_witness :
  let info := SymbolInfo3 (AllocaInst 0 Int32Ty) false false in
  let s := set_symbolTableStack [∅] empty in
  exists s1,
    addSymbol "x" info s = Ok (tt, s1)
    /\ lookupSymbol "x" s1 = Ok (Some info, s1)
    /\ addSymbol "x" info s1 = Err "Redeclaration of symbol 'x'".
Proof.
  intros info s. eexists. split; [reflexivity|].
  destruct (addSymbol_then_lookup_and_redeclare s "x" info _ eq_refl) as [H1 H2].
  split; [exact H1|exact (H2 info)].
Defined.

End SymbolTable.

(** ** Types and array dimensions *)

Section TypesAndDimensions.
Import IRGenerator Examples.

Ltac munfold :=
  unfold lookupSymbol in *;
  unfold mbind, M_bind, mret, M_ret, throw, gets, lift in *;
  cbn beta iota in *.

(** X10.  [getType] leaves the generator as it is and gives [i32],
    [float], [void], or a vector of [i32] or [float] with a positive
    number of lanes: never a pointer or an array, and an error for a
    vector size that is not positive. *)
Theorem getType_range typeAST s ty s' :
  getType typeAST s = Ok (ty, s') ->
  s' = s
  /\ (ty = Int32Ty \/ ty = FloatTy \/ ty = VoidTy
      \/ exists n, 0 < n /\ (ty = VectorTy Int32Ty n \/ ty = VectorTy FloatTy n)).
Proof.
  unfold getType. munfold. destruct (kind typeAST).
  - intros E; injection E as <- <-. auto.
  - intros E; injection E as <- <-. auto.
  - intros E; injection E as <- <-. auto.
  - destruct (vectorSizeExpr typeAST) as [sizeExpr|]; [|discriminate].
    destruct (evaluateConstExpr sizeExpr s) as [[size s1]|] eqn:Es; [|discriminate].
    apply evaluateConstExpr_pure in Es. subst s1.
    destruct (Z.leb_spec size 0); [discriminate|].
    destruct (vectorElementKind typeAST); try discriminate;
      intros E; injection E as <- <-; split; try reflexivity;
      right; right; right; exists size; auto.
Qed.

Lemma getType_range_witness :
  let t := mkTypeAST TypeAST.VECTOR TypeAST.FLOAT (Some (lit 4)) in
  getType t empty = Ok (VectorTy FloatTy 4, empty)
  /\ (VectorTy FloatTy 4 = Int32Ty \/ VectorTy FloatTy 4 = FloatTy
      \/ VectorTy FloatTy 4 = VoidTy
      \/ exists n, 0 < n /\ (VectorTy FloatTy 4 = VectorTy Int32Ty n
                             \/ VectorTy FloatTy 4 = VectorTy FloatTy n)).
Proof.
  intros t.
  assert (H : getType t empty = Ok (VectorTy FloatTy 4, empty)) by reflexivity.
  split; [exact H|]. exact (proj2 (getType_range t empty _ _ H)).
Defined.

(** X11.  The dimensions a declaration is given, however its size
    expressions are lowered, are as many as the size expressions and
    lie between 0 and [INT_MAX]: a negative bound is an error. *)
Theorem evalArraySizes_range lower sizeExprs s sizes s' :
  evalArraySizes lower sizeExprs s = Ok (sizes, s') ->
  length sizes = length sizeExprs
  /\ Forall (fun n => 0 <= n <= INT_MAX) sizes.
Proof.
  revert s sizes s'.
  induction sizeExprs as [|e rest IH]; intros s sizes s' E; simpl in E; munfold.
  - injection E as <- _. split; [reflexivity|constructor].
  - destruct (lower e s) as [[sizeValue s1]|]; [|discriminate].
    destruct sizeValue; try discriminate.
    destruct (Z.ltb_spec (wrap32 v) 0); [discriminate|].
    destruct (evalArraySizes lower rest s1) as [[sizes' s2]|] eqn:Er; [|discriminate].
    injection E as <- _. destruct (IH _ _ _ Er) as [Hlen Hall]. split.
    + simpl. congruence.
    + constructor; [|exact Hall].
      pose proof (wrap32_range v) as Hr. unfold in_int in Hr. lia.
Qed.

Lemma evalArraySizes_range_witness :
  evalArraySizes generateExprForArraySize [lit 3; lit 2] empty = Ok ([3; 2], empty)
  /\ length [3; 2] = length [lit 3; lit 2].
Proof.
  assert (H : evalArraySizes generateExprForArraySize [lit 3; lit 2] empty
              = Ok ([3; 2], empty)) by reflexivity.
  split; [exact H|]. exact (proj1 (evalArraySizes_range _ _ _ _ _ H)).
Defined.

End TypesAndDimensions.

(** ** The constant of a global array *)

Section GlobalArrayInit.
Import IRGenerator InitSpec Examples.
Context `{IRBuilderFolder}.

Ltac munfold :=
  unfold lookupSymbol in *;
  unfold mbind, M_bind, mret, M_ret, throw, gets, lift in *;
  cbn beta iota in *.

Lemma rowMajor_past_end elementType dims flat flat' offset offset' :
  (length flat <= offset)%nat -> (length flat' <= offset')%nat ->
  rowMajor elementType dims flat offset = rowMajor elementType dims flat' offset'.
Proof.
  revert offset offset'. induction dims as [|n sub IH]; intros offset offset' Hle Hle'; simpl.
  - rewrite (lookup_ge_None_2 flat offset Hle), (lookup_ge_None_2 flat' offset' Hle').
    reflexivity.
  - f_equal. apply map_ext. intros i. apply IH; lia.
Qed.

Lemma stripArrays_arrayTypeOf elementType dims :
  stripArrays (arrayTypeOf elementType dims) = stripArrays elementType.
Proof. induction dims as [|n sub IH]; simpl; [reflexivity|exact IH]. Qed.

Lemma constant_leaf_lookup elementType initVals flat index :
  Forall2 (constant_leaf elementType) initVals flat ->
  match initVals !! index with
  | Some iv => exists c, flat !! index = Some c /\ constant_leaf elementType iv c
  | None => (length flat <= index)%nat
  end.
Proof.
  intros HF. destruct (initVals !! index) as [iv|] eqn:E.
  - destruct (Forall2_lookup_l _ _ _ _ _ HF E) as (c & Hc & Hleaf). eauto.
  - apply lookup_ge_None_1 in E. rewrite <- (Forall2_length _ _ _ HF). exact E.
Qed.

Lemma advance_step index a P len :
  (advance index a len < len)%nat ->
  advance index a len = (index + a)%nat
  /\ advance (advance index a len) P len = advance index (a + P) len.
Proof. unfold advance. lia. Qed.

Lemma advance_stay index a P len :
  (len <= advance index a len)%nat ->
  (len <= index + a)%nat /\ advance index (a + P) len = advance index a len.
Proof. unfold advance. lia. Qed.

Lemma buildArrayInit_flat elementType dims :
  forall initVals flat, Forall2 (constant_leaf elementType) initVals flat ->
  forall index s,
    buildArrayInit elementType (arrayTypeOf elementType dims) dims initVals index s
    = Ok ((rowMajor elementType dims flat index,
           advance index (elements dims) (length flat)), s).
Proof.
  induction dims as [|n sub IH]; intros initVals flat HF index s.
  - simpl. pose proof (constant_leaf_lookup _ _ _ index HF) as Hl.
    destruct (initVals !! index) as [iv|] eqn:E.
    + destruct Hl as (c & Hc & e & -> & Hgen & Hconst & Hty).
      munfold. rewrite Hgen, Hconst, Hty, Ty_eqb_refl. simpl. rewrite Hc. simpl.
      apply lookup_lt_Some in Hc. unfold advance. do 3 f_equal. lia.
    + munfold. rewrite (lookup_ge_None_2 flat index Hl). simpl.
      unfold advance. do 3 f_equal. lia.
  - cbn [buildArrayInit]. set (P := elements sub).
    match goal with |- context [for_loop _ _ ?b _] => set (body := b) end.
    assert (Hloop : forall k i0 acc s0,
      for_loop k i0 body (acc, advance index (i0 * P) (length flat)) s0
      = Ok ((acc ++ map (fun i => rowMajor elementType sub flat (index + i * P))
                        (seq i0 k),
             advance index ((i0 + k) * P) (length flat)), s0)).
    { induction k as [|k IHk]; intros i0 acc s0.
      - simpl. munfold. rewrite app_nil_r, Nat.add_0_r. reflexivity.
      - cbn [for_loop]. unfold mbind at 1, M_bind at 1.
        assert (Hbody : body i0 (acc, advance index (i0 * P) (length flat)) s0
                = Ok ((acc ++ [rowMajor elementType sub flat (index + i0 * P)],
                       advance index (S i0 * P) (length flat)), s0)).
        { unfold body. cbn [arrayTypeOf fold_right ArrayType_getElementType].
          munfold.
          pose proof (constant_leaf_lookup _ _ _
                        (advance index (i0 * P) (length flat)) HF) as Hl.
          destruct (initVals !! advance index (i0 * P) (length flat)) as [iv|] eqn:E.
          + destruct Hl as (c & Hc & e & -> & _).
            apply lookup_lt_Some in Hc.
            destruct (advance_step index (i0 * P) P (length flat) Hc) as [Hadv Hnext].
            fold (arrayTypeOf elementType sub).
            rewrite (IH initVals flat HF). fold P.
            rewrite Hadv at 1. rewrite Hnext.
            replace (i0 * P + P)%nat with (S i0 * P)%nat by lia. reflexivity.
          + destruct (advance_stay index (i0 * P) P (length flat) Hl) as [Hge Hnext].
            fold (arrayTypeOf elementType sub).
            rewrite (IH [] [] (Forall2_nil_2 _ _ _)).
            rewrite (rowMajor_past_end elementType sub [] flat 0 (index + i0 * P))
              by (simpl; lia).
            replace (S i0 * P)%nat with (i0 * P + P)%nat by lia.
            rewrite Hnext. reflexivity. }
        rewrite Hbody. rewrite IHk. rewrite <- app_assoc. cbn [map seq app].
        replace (S i0 + k)%nat with (i0 + S k)%nat by lia. reflexivity. }
    specialize (Hloop (Z.to_nat n) 0%nat [] s).
    change (advance index (0 * P) (length flat)) with (advance index 0 (length flat)) in Hloop.
    replace (advance index 0 (length flat)) with index in Hloop by (unfold advance; lia).
    unfold mbind at 1, M_bind at 1. rewrite Hloop. munfold. simpl. reflexivity.
Qed.

(** X12.  A global array whose initializer is a flat list of constants
    of the element type gets the constant that holds these values in
    row-major order and the null value at every element the list does
    not reach, whatever the number of dimensions. *)
Theorem global_array_flat_initializer elementType sizes initVals flat g s :
  sizes <> [] -> initVals <> [] ->
  stripArrays elementType = elementType ->
  Forall2 (constant_leaf elementType) initVals flat ->
  generateInitVal (ListInitValAST initVals)
                  (GlobalVariable g (arrayTypeOf elementType sizes))
                  (length sizes) sizes s
  = setInitializer g (rowMajor elementType sizes flat 0) s.
Proof.
  intros Hsizes Hvals Hstrip HF. unfold generateInitVal. munfold.
  destruct sizes as [|n sub]; [congruence|].
  destruct initVals as [|iv rest]; [congruence|].
  cbn [pointeeType arrayTypeOf fold_right length bool_decide]. munfold.
  cbn [isa_GlobalVariable].
  change (ArrayTy (fold_right (fun n0 t0 => ArrayTy t0 n0) elementType sub) n)
    with (arrayTypeOf elementType (n :: sub)).
  rewrite stripArrays_arrayTypeOf, Hstrip.
  rewrite bool_decide_eq_false_2 by discriminate. cbn beta iota.
  rewrite (buildArrayInit_flat elementType (n :: sub) (iv :: rest) flat HF).
  reflexivity.
Qed.

Lemma row_leaf_lookup elementType initVals rows i :
  Forall2 (row_leaf elementType) initVals rows ->
  match initVals !! i with
  | Some iv => exists row, rows !! i = Some row /\ row_leaf elementType iv row
  | None => rows !! i = None
  end.
Proof.
  intros HF. destruct (initVals !! i) as [iv|] eqn:E.
  - destruct (Forall2_lookup_l _ _ _ _ _ HF E) as (row & Hrow & Hleaf). eauto.
  - apply lookup_ge_None_1 in E. apply lookup_ge_None_2.
    rewrite <- (Forall2_length _ _ _ HF). exact E.
Qed.

(** X30.  A global array whose initializer is a non-empty list of
    nested lists of constants gets, for each nested list, one
    sub-array filled from that list alone, in row-major order and
    padded with null values, and null sub-arrays after the last nested
    list. *)
Theorem global_array_nested_initializer elementType n sub initVals rows g s :
  initVals <> [] ->
  stripArrays elementType = elementType ->
  Forall2 (row_leaf elementType) initVals rows ->
  generateInitVal (ListInitValAST initVals)
                  (GlobalVariable g (arrayTypeOf elementType (n :: sub)))
                  (S (length sub)) (n :: sub) s
  = setInitializer g
      (ConstantArray (arrayTypeOf elementType (n :: sub))
         (map (fun i => rowMajor elementType sub (default [] (rows !! i)) 0)
              (seq 0 (Z.to_nat n)))) s.
Proof.
  intros Hvals Hstrip HF. unfold generateInitVal. munfold.
  destruct initVals as [|iv rest]; [congruence|].
  cbn [pointeeType arrayTypeOf fold_right]. munfold. cbn [isa_GlobalVariable].
  change (ArrayTy (fold_right (fun n0 t0 => ArrayTy t0 n0) elementType sub) n)
    with (arrayTypeOf elementType (n :: sub)).
  rewrite stripArrays_arrayTypeOf, Hstrip.
  rewrite bool_decide_eq_false_2 by discriminate. cbn beta iota.
  set (initVals := iv :: rest) in *. clearbody initVals. clear iv rest Hvals.
  cbn [buildArrayInit].
  match goal with |- context [for_loop _ _ ?b _] => set (body := b) end.
  set (len := length initVals).
  assert (Hloop : forall (k i0 : nat) acc s0,
    for_loop k i0 body (acc, Nat.min i0 len) s0
    = Ok ((acc ++ map (fun i => rowMajor elementType sub (default [] (rows !! i)) 0)
                      (seq i0 k),
           Nat.min (i0 + k) len), s0)).
  { induction k as [|k IHk]; intros i0 acc s0.
    - simpl. munfold. rewrite app_nil_r, Nat.add_0_r. reflexivity.
    - cbn [for_loop]. unfold mbind at 1, M_bind at 1.
      assert (Hbody : body i0 (acc, Nat.min i0 len) s0
              = Ok ((acc ++ [rowMajor elementType sub (default [] (rows !! i0)) 0],
                     Nat.min (S i0) len), s0)).
      { unfold body. cbn [arrayTypeOf fold_right ArrayType_getElementType]. munfold.
        fold (arrayTypeOf elementType sub).
        destruct (decide (i0 < len)%nat) as [Hlt|Hge].
        - replace (Nat.min i0 len) with i0 by lia.
          pose proof (row_leaf_lookup _ _ _ i0 HF) as Hl.
          destruct (initVals !! i0) as [iv|] eqn:E;
            [|apply lookup_ge_None_1 in E; unfold len in Hlt; lia].
          destruct Hl as (row & Hrow & l & -> & Hleaves).
          rewrite (buildArrayInit_flat elementType sub l row Hleaves).
          rewrite Hrow. replace (Nat.min (S i0) len) with (S i0) by lia.
          reflexivity.
        - replace (Nat.min i0 len) with len by lia.
          rewrite (lookup_ge_None_2 initVals len) by (unfold len; lia).
          rewrite (buildArrayInit_flat elementType sub [] [] (Forall2_nil_2 _ _ _)).
          pose proof (row_leaf_lookup _ _ _ i0 HF) as Hl.
          rewrite (lookup_ge_None_2 initVals i0) in Hl by (unfold len in Hge; lia).
          rewrite Hl. replace (Nat.min (S i0) len) with len by lia.
          reflexivity. }
      rewrite Hbody. rewrite IHk. rewrite <- app_assoc. cbn [map seq app].
      replace (S i0 + k)%nat with (i0 + S k)%nat by lia. reflexivity. }
  specialize (Hloop (Z.to_nat n) 0%nat [] s).
  change (Nat.min 0 len) with 0%nat in Hloop.
  unfold mbind at 1, M_bind at 1. rewrite Hloop. munfold. simpl. reflexivity.
Qed.

End GlobalArrayInit.

Section GlobalArrayInitExample.
Import IRGenerator InitSpec Examples.

Lemma global_array_flat_initializer_witness :
  let one := ConstantInt Int32Ty 1 in
  let two := ConstantInt Int32Ty 2 in
  let three := ConstantInt Int32Ty 3 in
  let zero := ConstantInt Int32Ty 0 in
  let row a b := ConstantArray (ArrayTy Int32Ty 2) [a; b] in
  generateInitVal (H := NoFolder)
    (ListInitValAST [ExprInitValAST (lit 1); ExprInitValAST (lit 2);
                     ExprInitValAST (lit 3)])
    (GlobalVariable 0 (ArrayTy (ArrayTy Int32Ty 2) 3)) 2 [3; 2] empty
  = setInitializer 0
      (ConstantArray (ArrayTy (ArrayTy Int32Ty 2) 3)
         [row one two; row three zero; row zero zero]) empty.
Proof.
  intros one two three zero row.
  apply (global_array_flat_initializer (H := NoFolder) Int32Ty [3; 2]
           [ExprInitValAST (lit 1); ExprInitValAST (lit 2); ExprInitValAST (lit 3)]
           [one; two; three] 0%nat empty).
  - discriminate.
  - discriminate.
  - reflexivity.
  - repeat constructor; eexists; (split; [reflexivity|]); repeat split; reflexivity.
Defined.

(** [int a[3][2] = {{1}, {2, 3}}]. *)
Lemma global_array_nested_initializer_witness :
  let one := ConstantInt Int32Ty 1 in
  let two := ConstantInt Int32Ty 2 in
  let three := ConstantInt Int32Ty 3 in
  let zero := ConstantInt Int32Ty 0 in
  let row a b := ConstantArray (ArrayTy Int32Ty 2) [a; b] in
  generateInitVal (H := NoFolder)
    (ListInitValAST [ListInitValAST [ExprInitValAST (lit 1)];
                     ListInitValAST [ExprInitValAST (lit 2); ExprInitValAST (lit 3)]])
    (GlobalVariable 0 (ArrayTy (ArrayTy Int32Ty 2) 3)) 2 [3; 2] empty
  = setInitializer 0
      (ConstantArray (ArrayTy (ArrayTy Int32Ty 2) 3)
         [row one zero; row two three; row zero zero]) empty.
Proof.
  intros one two three zero row.
  apply (global_array_nested_initializer (H := NoFolder) Int32Ty 3 [2]
           [ListInitValAST [ExprInitValAST (lit 1)];
            ListInitValAST [ExprInitValAST (lit 2); ExprInitValAST (lit 3)]]
           [[one]; [two; three]] 0%nat empty).
  - discriminate.
  - reflexivity.
  - repeat constructor; eexists; (split; [reflexivity|]);
      repeat constructor; eexists; (split; [reflexivity|]); repeat split; reflexivity.
Defined.

End GlobalArrayInitExample.
(** ** What lowering keeps *)

Section GeneratorInvariants.
Import IRGenerator GenSpec.
Context `{IRBuilderFolder}.
Variable cells : bool.

Local Abbreviation Inv := (GenSpec.Inv cells).
Local Abbreviation common := (GenSpec.common cells).
Local Abbreviation clean := (GenSpec.clean cells).
Local Abbreviation Rf := (GenSpec.Rf cells).
Local Abbreviation Rt := (GenSpec.Rt cells).
Local Abbreviation Rps := (GenSpec.Rps cells).
Local Abbreviation Rpop := (GenSpec.Rpop cells).
Local Abbreviation triple R m Q := (GenSpec.triple cells R m Q).
Local Abbreviation arg_keeps := (GenSpec.arg_keeps cells).
Local Abbreviation keeps R m := (GenSpec.triple cells R m (fun _ => True)).
Local Abbreviation gives m := (GenSpec.triple cells (GenSpec.Rf cells) m (GenSpec.clean cells)).

(** *** The relations *)

Lemma common_refl s : common s s.
Proof.
  repeat split. exists []. rewrite app_nil_r. split; [reflexivity|constructor].
Qed.

Lemma common_trans s1 s2 s3 : common s1 s2 -> common s2 s3 -> common s1 s3.
Proof.
  intros (Hf1 & Hl1 & new1 & He1 & Hn1) (Hf2 & Hl2 & new2 & He2 & Hn2).
  split; [congruence|]. split; [congruence|].
  exists (new1 ++ new2). split.
  - rewrite He2, He1, app_assoc. reflexivity.
  - apply Forall_app. split; assumption.
Qed.

Lemma Rf_refl s : Rf s s.
Proof. split; [apply common_refl|]. repeat split. Qed.

Lemma Rf_Rf s1 s2 s3 : Rf s1 s2 -> Rf s2 s3 -> Rf s1 s3.
Proof.
  intros (Hc1 & ? & ? & ?) (Hc2 & ? & ? & ?).
  split; [exact (common_trans _ _ _ Hc1 Hc2)|]. repeat split; congruence.
Qed.

Lemma Rt_Rt s1 s2 s3 : Rt s1 s2 -> Rt s2 s3 -> Rt s1 s3.
Proof.
  intros (Hc1 & ? & ? & ?) (Hc2 & ? & ? & ?).
  split; [exact (common_trans _ _ _ Hc1 Hc2)|]. repeat split; congruence.
Qed.

Lemma Rf_Rpop s1 s2 s3 : Rf s1 s2 -> Rpop s2 s3 -> Rpop s1 s3.
Proof.
  intros (Hc1 & ? & ? & ?) (Hc2 & ? & ? & ?).
  split; [exact (common_trans _ _ _ Hc1 Hc2)|]. repeat split; congruence.
Qed.

Lemma Rt_Rps s1 s2 s3 : Rt s1 s2 -> Rps s2 s3 -> Rps s1 s3.
Proof.
  intros (Hc1 & ? & ? & ?) (Hc2 & ? & ? & ?).
  split; [exact (common_trans _ _ _ Hc1 Hc2)|]. repeat split; congruence.
Qed.

Lemma Rf_Rt s s' : Rf s s' -> Rt s s'.
Proof.
  intros (Hc & Hs & ? & ?). split; [exact Hc|]. repeat split; congruence.
Qed.

Lemma Rf_Inv s s' : Rf s s' -> Inv s -> Inv s'.
Proof. intros (_ & Hs & _) HI Hc. rewrite Hs. exact (HI Hc). Qed.

(** *** The rules *)

Lemma triple_bind_gen (R1 R2 R3 : t -> t -> Prop)
    (Hc : forall s1 s2 s3, R1 s1 s2 -> R2 s2 s3 -> R3 s1 s3)
    {A B} (m : M A) (k : A -> M B) (Q : A -> Prop) (Q' : B -> Prop) :
  triple R1 m Q -> (forall a, Q a -> triple R2 (k a) Q') -> triple R3 (m ≫= k) Q'.
Proof.
  intros Hm Hk s b s' HI E. unfold mbind, M_bind in E.
  destruct (m s) as [[a s1]|] eqn:Em; [|discriminate].
  destruct (Hm _ _ _ HI Em) as (HI1 & HR1 & HQ).
  destruct (Hk a HQ _ _ _ HI1 E) as (HI2 & HR2 & HQ').
  eauto.
Qed.

Lemma triple_ret R (HR : forall s, R s s) {A} (a : A) (Q : A -> Prop) :
  Q a -> triple R (mret a) Q.
Proof. intros HQ s a' s' HI E. injection E as <- <-. auto. Qed.

Lemma triple_throw R {A} msg (Q : A -> Prop) : triple R (throw msg) Q.
Proof. intros s a s' _ E. discriminate. Qed.

Lemma triple_kill R {A} sig (Q : A -> Prop) : triple R (kill sig) Q.
Proof. intros s a s' _ E. discriminate. Qed.

Lemma triple_gets R (HR : forall s, R s s) {A} (f : t -> A) : keeps R (gets f).
Proof. intros s a s' HI E. injection E as <- <-. auto. Qed.

Lemma triple_lift R (HR : forall s, R s s) {A} (r : Result A) : keeps R (lift r).
Proof.
  intros s a s' HI E. unfold lift in E. destruct r; [|discriminate].
  injection E as <- <-. auto.
Qed.

Lemma triple_weaken {A} (m : M A) Q : triple Rf m Q -> triple Rt m Q.
Proof.
  intros Hm s a s' HI E. destruct (Hm _ _ _ HI E) as (? & ? & ?).
  auto using Rf_Rt.
Qed.

Lemma triple_post R {A} (m : M A) (Q : A -> Prop) : triple R m Q -> keeps R m.
Proof. intros Hm s a s' HI E. destruct (Hm _ _ _ HI E) as (? & ? & ?). auto. Qed.

Lemma Rt_refl s : Rt s s.
Proof. apply Rf_Rt, Rf_refl. Qed.

(** A step that keeps the frame needs no assumption on the symbols. *)
Lemma triple_frame {A} (m : M A) (Q : A -> Prop) :
  (forall s a s', m s = Ok (a, s') -> Rf s s' /\ Q a) -> triple Rf m Q.
Proof.
  intros Hm s a s' HI E. destruct (Hm _ _ _ E) as [HR HQ].
  eauto using Rf_Inv.
Qed.

(** *** State changes of the builder and the module *)

Lemma triple_fresh : keeps Rf fresh.
Proof.
  apply triple_frame. intros s a s' E. injection E as <- <-.
  split; [|exact I]. split; [|repeat split]. repeat split.
  exists []. simpl. rewrite app_nil_r. split; [reflexivity|constructor].
Qed.

Lemma triple_insert i :
  (cells = true -> uses_cell i = false) -> keeps Rf (insert i).
Proof.
  intros Hi. apply triple_frame. intros s a s' E. injection E as _ <-.
  split; [|exact I]. split; [|repeat split]. repeat split.
  eexists. simpl. split; [reflexivity|]. constructor; [|constructor].
  simpl. destruct cells; [exact (Hi eq_refl)|reflexivity].
Qed.

Lemma triple_modify_field (f : t -> t) :
  (forall s, symbolTableStack (f s) = symbolTableStack s
             /\ currentFunction (f s) = currentFunction s
             /\ breakTargets (f s) = breakTargets s
             /\ continueTargets (f s) = continueTargets s
             /\ libraryFunctions (f s) = libraryFunctions s
             /\ emitted (f s) = emitted s) ->
  keeps Rf (modify f).
Proof.
  intros Hf. apply triple_frame. intros s a s' E. injection E as _ <-.
  destruct (Hf s) as (? & ? & ? & ? & ? & He).
  split; [|exact I]. split; [|auto]. split; [assumption|]. split; [assumption|].
  exists []. rewrite app_nil_r. split; [exact He|constructor].
Qed.

Lemma triple_lookupSymbol name :
  triple Rf (lookupSymbol name)
         (fun o => forall sym, o = Some sym -> cells = true -> sym_ok sym).
Proof.
  intros s o s' HI E. injection E as <- <-.
  split; [exact HI|]. split; [apply Rf_refl|].
  intros sym Hsym Hc. specialize (HI Hc). revert sym Hsym.
  induction HI as [|scope outer Hscope _ IH]; simpl.
  - discriminate.
  - intros sym. destruct (scope !! name) as [info|] eqn:El.
    + intros [= <-]. exact (Hscope _ _ El).
    + apply IH.
Qed.

Lemma is_cell_allocatedType v : is_cell v = true -> allocatedType_of v = Some PointerTy.
Proof. destruct v as [| | | | | | | | | |id []| | |]; simpl; congruence. Qed.

Lemma is_cell_constant v : isa_Constant v = true -> is_cell v = false.
Proof. destruct v as [| | | | | | | | | |id []| | |]; simpl; congruence. Qed.

(** A symbol that is not handled as an array parameter is not bound to
    a cell. *)
Lemma not_param_clean sym :
  (cells = true -> sym_ok sym) -> isArrayParam sym = false -> clean (value sym).
Proof.
  intros Hok Hp Hc. destruct (is_cell (value sym)) eqn:E; [|reflexivity].
  destruct (Hok Hc) as [Ha _]. unfold isArrayParam in Hp.
  rewrite (Ha E), (is_cell_allocatedType _ E) in Hp. discriminate.
Qed.

Lemma loaded_clean sym p :
  (cells = true -> sym_ok sym) -> loadedArrayPtr sym = Some p -> clean p.
Proof. intros Hok Hp Hc. exact (proj1 (proj2 (Hok Hc)) _ Hp). Qed.

Lemma is_cell_ConstantInt_get0 ty : is_cell (ConstantInt_get0 ty) = false.
Proof. destruct ty as [| | | | | |e n]; try reflexivity. Qed.

Lemma is_cell_getNullValue ty : is_cell (getNullValue ty) = false.
Proof. destruct ty; reflexivity. Qed.

Lemma is_cell_alloca id ty : ty <> PointerTy -> is_cell (AllocaInst id ty) = false.
Proof. destruct ty; simpl; congruence. Qed.

Lemma arrayTypeOf_plain base sizes : plain base -> plain (arrayTypeOf base sizes).
Proof. intros Hb. destruct sizes; simpl; [exact Hb|]. split; discriminate. Qed.

Lemma clean_constant v : isa_Constant v = true -> clean v.
Proof. intros Hv _. apply is_cell_constant, Hv. Qed.

Lemma triple_for_loop R (HR : forall s, R s s)
    (HRR : forall s1 s2 s3, R s1 s2 -> R s2 s3 -> R s1 s3)
    {A} (Q : A -> Prop) (body : nat -> A -> M A) n :
  (forall i acc, Q acc -> triple R (body i acc) Q) ->
  forall i acc, Q acc -> triple R (for_loop n i body acc) Q.
Proof.
  intros Hb. induction n as [|n IH]; intros i acc Hacc; simpl.
  - apply triple_ret; [exact HR|exact Hacc].
  - eapply (triple_bind_gen R R R HRR); [apply Hb, Hacc|]. intros acc' Hacc'.
    apply IH, Hacc'.
Qed.

Lemma triple_forM_ R (HR : forall s, R s s)
    (HRR : forall s1 s2 s3, R s1 s2 -> R s2 s3 -> R s1 s3)
    {A} (f : A -> M unit) (l : list A) :
  (forall a, In a l -> keeps R (f a)) -> keeps R (forM_ l f).
Proof.
  induction l as [|a rest IH]; intros Hf; simpl.
  - apply triple_ret; [exact HR|exact I].
  - eapply (triple_bind_gen R R R HRR); [apply Hf; left; reflexivity|].
    intros _ _. apply IH. intros b Hb. apply Hf. right. exact Hb.
Qed.

Lemma triple_GetInsertBlock : keeps Rf GetInsertBlock.
Proof.
  apply triple_frame. intros s b s' E. unfold GetInsertBlock in E.
  destruct (insertBlock s); [|discriminate]. injection E as _ <-.
  split; [apply Rf_refl|exact I].
Qed.

Lemma triple_CreateAlloca ty name :
  triple Rf (CreateAlloca ty name) (fun v => exists id, v = AllocaInst id ty).
Proof.
  unfold CreateAlloca.
  eapply (triple_bind_gen Rf Rf Rf Rf_Rf); [apply triple_GetInsertBlock|]. intros _ _.
  eapply (triple_bind_gen Rf Rf Rf Rf_Rf); [apply triple_fresh|]. intros id _.
  eapply (triple_bind_gen Rf Rf Rf Rf_Rf); [apply triple_insert; reflexivity|].
  intros _ _. apply triple_ret; [exact Rf_refl|]. eexists. reflexivity.
Qed.

(** *** The tactic *)

Create HintDb triples.

Ltac bind_rule :=
  lazymatch goal with
  | |- triple Rf _ _ => eapply (triple_bind_gen Rf Rf Rf Rf_Rf)
  | |- triple Rt _ _ => eapply (triple_bind_gen Rt Rt Rt Rt_Rt)
  | |- triple Rpop _ _ => eapply (triple_bind_gen Rf Rpop Rpop Rf_Rpop)
  | |- triple Rps _ _ => eapply (triple_bind_gen Rt Rps Rps Rt_Rps)
  end.

Ltac refl_rule := first [exact Rf_refl | exact Rt_refl].

(** [ty <> PointerTy], from what is known of [ty]. *)
Ltac solve_plain :=
  first
    [ assumption
    | discriminate
    | match goal with
      | Hp : plain ?ty |- ?ty <> PointerTy => exact (proj1 Hp)
      | Hp : plain ?ty |- arrayTypeOf ?ty _ <> PointerTy =>
          exact (proj1 (arrayTypeOf_plain _ _ Hp))
      | Hc : cells = true,
        Hs : forall sym, Some ?s0 = Some sym -> cells = true -> sym_ok sym,
        Ht : allocatedType_of (value ?s0) = Some (VectorTy ?e ?n) |- ?e <> PointerTy =>
          let E := fresh in
          intros E; rewrite E in Ht;
          exact (proj2 (proj2 (Hs s0 eq_refl Hc)) n Ht)
      end ].

(** [is_cell v = false], from what is known of [v]. *)
Ltac solve_cell :=
  repeat match goal with
         | |- is_cell (if ?c then _ else _) = false => destruct c
         end;
  first
    [ assumption
    | reflexivity
    | apply is_cell_constant; solve [eauto]
    | apply is_cell_ConstantInt_get0
    | apply is_cell_getNullValue
    | apply is_cell_alloca; solve_plain
    | match goal with
      | Hc : cells = true, Hv : GenSpec.clean cells ?v |- is_cell ?v = false =>
          exact (Hv Hc)
      | Hc : cells = true,
        Hs : forall sym, Some ?s0 = Some sym -> cells = true -> sym_ok sym,
        Hp : isArrayParam ?s0 = false |- is_cell (value ?s0) = false =>
          exact (not_param_clean s0 (Hs s0 eq_refl) Hp Hc)
      | Hc : cells = true,
        Hs : forall sym, Some ?s0 = Some sym -> cells = true -> sym_ok sym,
        Hp : loadedArrayPtr ?s0 = Some ?p |- is_cell ?p = false =>
          exact (loaded_clean s0 p (Hs s0 eq_refl) Hp Hc)
      | Ht : allocatedType_of ?v = Some (VectorTy _ _) |- is_cell ?v = false =>
          let E := fresh in
          destruct (is_cell v) eqn:E; [|reflexivity];
          apply is_cell_allocatedType in E; congruence
      end ].

Ltac solve_clean :=
  first
    [ assumption
    | let Hc := fresh "Hc" in intros Hc; solve_cell ].

Ltac solve_forall :=
  first [ assumption
        | constructor; [solve_clean | solve_forall]
        | constructor ].

(** No operand is a cell. *)
Ltac solve_operands :=
  let Hc := fresh "Hc" in
  intros Hc; unfold uses_cell; cbn [operands existsb];
  repeat match goal with
         | |- ?a || ?b = false => apply orb_false_intro
         end;
  first [ reflexivity | solve_cell ].

(** The postcondition a step is given by default: a value is clean. *)
Ltac post_of m :=
  lazymatch type of m with
  | M Value => constr:(GenSpec.clean cells)
  | M (list Value) =>
      lazymatch m with
      | for_loop _ _ _ _ => constr:(fun _ : list Value => True)
      | _ => constr:(Forall (GenSpec.clean cells))
      end
  | M ?A => constr:(fun _ : A => True)
  end.

Ltac solve_post :=
  cbv beta;
  first [ exact I | solve_clean | solve_forall | solve [auto] ].

Ltac leaf :=
  first [ solve [eauto with triples]
        | apply triple_weaken; solve [eauto with triples]
        | eapply triple_post; solve [eauto with triples]
        | apply triple_weaken; eapply triple_post; solve [eauto with triples] ].

Ltac special :=
  first [ apply triple_lookupSymbol
        | apply triple_weaken; apply triple_lookupSymbol ].

Ltac tstep :=
  cbv beta zeta;
  lazymatch goal with
  | |- triple _ (mbind _ (lookupSymbol _)) _ =>
      bind_rule; [special | intros ? ?; cbv beta zeta in * ]
  | |- triple _ (mbind _ (CreateAlloca _ _)) _ =>
      bind_rule; [ first [ apply triple_CreateAlloca
                         | apply triple_weaken, triple_CreateAlloca ]
                 | intros ? [? ->]; cbv beta zeta ]
  | |- triple _ (mbind _ ?m) _ =>
      let Q := post_of m in
      bind_rule; [ refine (_ : triple _ _ Q); repeat tstep
                 | intros ? ?; cbv beta zeta ]
  | |- triple _ (mret _) _ => apply triple_ret; [refl_rule | solve_post]
  | |- triple _ (throw _) _ => apply triple_throw
  | |- triple _ (kill _) _ => apply triple_kill
  | |- triple _ (gets _) _ => apply triple_gets; refl_rule
  | |- triple _ (lift _) _ => apply triple_lift; refl_rule
  | |- triple Rf (for_loop _ _ _ _) ?Q =>
      apply (triple_for_loop Rf Rf_refl Rf_Rf Q); [intros ? ? ?|solve_post]
  | |- triple Rf (forM_ _ _) _ =>
      apply (triple_forM_ Rf Rf_refl Rf_Rf); intros
  | |- triple Rt (forM_ _ _) _ =>
      apply (triple_forM_ Rt Rt_refl Rt_Rt); intros
  | |- triple _ (match ?x with _ => _ end) _ => destruct x eqn:?
  | |- _ => leaf
  end.

Ltac tgo := repeat tstep.

#[local] Hint Extern 1 (cells = true -> uses_cell _ = false) => solve_operands : triples.
#[local] Hint Extern 1 (GenSpec.clean _ _) => solve_clean : triples.
#[local] Hint Resolve triple_fresh triple_insert : triples.

(** *** The builder *)

#[local] Hint Resolve triple_GetInsertBlock : triples.

Lemma clean_operands operands :
  Forall clean operands -> cells = true -> existsb is_cell operands = false.
Proof.
  intros Ho Hc. induction Ho as [|v l Hv _ IH]; [reflexivity|].
  simpl. rewrite (Hv Hc), IH. reflexivity.
Qed.

Lemma triple_request op operands ty name :
  Forall clean operands -> gives (request op operands ty name).
Proof.
  intros Ho. unfold request.
  destruct (Fold op operands ty) as [c|] eqn:EF.
  - apply triple_ret; [exact Rf_refl|]. apply clean_constant.
    exact (Fold_constant _ _ _ _ EF).
  - eapply (triple_bind_gen Rf Rf Rf Rf_Rf); [apply triple_fresh|]. intros id _.
    eapply (triple_bind_gen Rf Rf Rf Rf_Rf);
      [apply triple_insert; exact (clean_operands _ Ho)|].
    intros _ _. apply triple_ret; [exact Rf_refl|]. intros _. reflexivity.
Qed.

Lemma triple_CreateLoad ty ptr name : clean ptr -> gives (CreateLoad ty ptr name).
Proof.
  intros Hp. unfold CreateLoad.
  eapply (triple_bind_gen Rf Rf Rf Rf_Rf); [apply triple_GetInsertBlock|]. intros _ _.
  eapply (triple_bind_gen Rf Rf Rf Rf_Rf); [apply triple_fresh|]. intros id _.
  eapply (triple_bind_gen Rf Rf Rf Rf_Rf); [apply triple_insert; solve_operands|].
  intros _ _. apply triple_ret; [exact Rf_refl|]. intros _. reflexivity.
Qed.

Lemma triple_CreateStore val ptr :
  clean val -> clean ptr -> keeps Rf (CreateStore val ptr).
Proof. intros Hv Hp. unfold CreateStore. tgo. Qed.

Lemma triple_CreateGEP ty ptr indices name :
  clean ptr -> Forall clean indices -> gives (CreateGEP ty ptr indices name).
Proof.
  intros Hp Hi. unfold CreateGEP.
  eapply (triple_bind_gen Rf Rf Rf Rf_Rf); [apply triple_lift; exact Rf_refl|].
  intros rty _.
  destruct (Fold (GetElementPtr ty) (ptr :: indices) PointerTy) as [c|] eqn:EF.
  - apply triple_ret; [exact Rf_refl|].
    apply clean_constant. exact (Fold_constant _ _ _ _ EF).
  - eapply (triple_bind_gen Rf Rf Rf Rf_Rf); [apply triple_fresh|]. intros id _.
    eapply (triple_bind_gen Rf Rf Rf Rf_Rf).
    + apply triple_insert. intros Hc. unfold uses_cell. cbn [operands].
      apply (clean_operands (ptr :: indices)); [constructor; assumption|exact Hc].
    + intros _ _. apply triple_ret; [exact Rf_refl|]. intros _. reflexivity.
Qed.
#[local] Hint Resolve triple_CreateLoad triple_CreateStore triple_CreateGEP : triples.

#[local] Hint Extern 1 (Forall (GenSpec.clean _) _) => solve_forall : triples.

Lemma triple_CreateBinOp op lhs rhs name :
  clean lhs -> clean rhs -> gives (CreateBinOp op lhs rhs name).
Proof. intros Hl Hr. unfold CreateBinOp. apply triple_request. auto with triples. Qed.
Lemma triple_CreateNeg v name : clean v -> gives (CreateNeg v name).
Proof.
  intros Hv. unfold CreateNeg. apply triple_CreateBinOp; [|exact Hv].
  apply clean_constant. destruct (getType_of v); reflexivity.
Qed.
Lemma triple_CreateFNeg v name : clean v -> gives (CreateFNeg v name).
Proof. intros Hv. unfold CreateFNeg. apply triple_request. auto with triples. Qed.
Lemma triple_CreateICmp p lhs rhs name :
  clean lhs -> clean rhs -> gives (CreateICmp p lhs rhs name).
Proof. intros Hl Hr. unfold CreateICmp. apply triple_request. auto with triples. Qed.
Lemma triple_CreateFCmp p lhs rhs name :
  clean lhs -> clean rhs -> gives (CreateFCmp p lhs rhs name).
Proof. intros Hl Hr. unfold CreateFCmp. apply triple_request. auto with triples. Qed.
Lemma triple_CreateCast op v destTy name : clean v -> gives (CreateCast op v destTy name).
Proof.
  intros Hv. unfold CreateCast. destruct (Ty_eqb (getType_of v) destTy).
  - apply triple_ret; [exact Rf_refl|exact Hv].
  - apply triple_request. auto with triples.
Qed.
Lemma triple_CreateExtractElement vec idx name :
  clean vec -> clean idx -> gives (CreateExtractElement vec idx name).
Proof. intros. unfold CreateExtractElement. apply triple_request. auto with triples. Qed.
Lemma triple_CreateInsertElement vec elt idx name :
  clean vec -> clean elt -> clean idx -> gives (CreateInsertElement vec elt idx name).
Proof. intros. unfold CreateInsertElement. apply triple_request. auto with triples. Qed.
Lemma triple_CreateVectorSplat n v name : clean v -> gives (CreateVectorSplat n v name).
Proof. intros. unfold CreateVectorSplat. apply triple_request. auto with triples. Qed.
Lemma triple_CreateCall callee args name :
  Forall clean args -> gives (CreateCall callee args name).
Proof.
  intros Ha. unfold CreateCall.
  eapply (triple_bind_gen Rf Rf Rf Rf_Rf); [apply triple_fresh|]. intros id _.
  eapply (triple_bind_gen Rf Rf Rf Rf_Rf);
    [apply triple_insert; exact (clean_operands _ Ha)|].
  intros _ _. apply triple_ret; [exact Rf_refl|]. intros _. reflexivity.
Qed.
Lemma triple_CreateRet v : clean v -> keeps Rf (CreateRet v).
Proof. intros Hv. unfold CreateRet. tgo. Qed.
Lemma triple_CreateRetVoid : keeps Rf CreateRetVoid.
Proof. unfold CreateRetVoid. tgo. Qed.
Lemma triple_CreateBr dest : keeps Rf (CreateBr dest).
Proof. unfold CreateBr. tgo. Qed.
Lemma triple_CreateCondBr c a b : clean c -> keeps Rf (CreateCondBr c a b).
Proof. intros Hc. unfold CreateCondBr. tgo. Qed.
#[local] Hint Resolve triple_CreateBinOp triple_CreateNeg triple_CreateFNeg
  triple_CreateICmp triple_CreateFCmp triple_CreateCast triple_CreateExtractElement
  triple_CreateInsertElement triple_CreateVectorSplat triple_CreateCall
  triple_CreateRet triple_CreateRetVoid triple_CreateBr triple_CreateCondBr : triples.

(** *** The module and the blocks *)

Lemma triple_uniqueName name : keeps Rf (uniqueName name).
Proof.
  apply triple_frame. intros s n s' E. unfold uniqueName in E.
  destruct (nameTaken name s).
  - destruct (makeUniqueName _ _ _ _) as [n' k]. injection E as _ <-.
    split; [|exact I]. split; [|repeat split]. repeat split.
    exists []. simpl. rewrite app_nil_r. split; [reflexivity|constructor].
  - injection E as _ <-. split; [apply Rf_refl|exact I].
Qed.
#[local] Hint Resolve triple_uniqueName : triples.

Lemma triple_new_GlobalVariable ty c l init name :
  keeps Rf (new_GlobalVariable ty c l init name).
Proof.
  unfold new_GlobalVariable.
  eapply (triple_bind_gen Rf Rf Rf Rf_Rf); [apply triple_uniqueName|]. intros name' _.
  eapply (triple_bind_gen Rf Rf Rf Rf_Rf); [apply triple_fresh|]. intros id _.
  eapply (triple_bind_gen Rf Rf Rf Rf_Rf);
    [apply triple_modify_field; intros; repeat split|].
  intros _ _. tgo.
Qed.

Lemma triple_setInitializer id init : keeps Rf (setInitializer id init).
Proof. apply triple_modify_field; intros; repeat split. Qed.

Lemma triple_BasicBlock_Create name parent : keeps Rf (BasicBlock_Create name parent).
Proof.
  unfold BasicBlock_Create.
  eapply (triple_bind_gen Rf Rf Rf Rf_Rf); [apply triple_fresh|]. intros id _.
  eapply (triple_bind_gen Rf Rf Rf Rf_Rf);
    [apply triple_modify_field; intros; repeat split|].
  intros _ _. tgo.
Qed.

Lemma triple_Function_insert f bb : keeps Rf (Function_insert f bb).
Proof. apply triple_modify_field; intros; repeat split. Qed.

Lemma triple_SetInsertPoint bb : keeps Rf (SetInsertPoint bb).
Proof. apply triple_modify_field; intros; repeat split. Qed.

Lemma triple_GetInsertBlock_getParent : keeps Rf GetInsertBlock_getParent.
Proof. unfold GetInsertBlock_getParent. tgo. Qed.

Lemma triple_hasTerminator : keeps Rf hasTerminator.
Proof. unfold hasTerminator. tgo. Qed.

Lemma triple_isLibraryFunction name : keeps Rf (isLibraryFunction name).
Proof. apply triple_gets. exact Rf_refl. Qed.

#[local] Hint Resolve triple_new_GlobalVariable triple_setInitializer
  triple_BasicBlock_Create triple_Function_insert triple_SetInsertPoint
  triple_GetInsertBlock_getParent triple_hasTerminator triple_isLibraryFunction
  : triples.

Lemma triple_sequenceM (l : list (M Value)) :
  Forall (fun m => gives m) l -> triple Rf (sequenceM l) (Forall clean).
Proof.
  induction 1 as [|m rest Hm _ IH]; simpl.
  - tgo.
  - eapply (triple_bind_gen Rf Rf Rf Rf_Rf); [exact Hm|]. intros a Ha.
    eapply (triple_bind_gen Rf Rf Rf Rf_Rf); [exact IH|]. intros r Hr. tgo.
Qed.

#[local] Hint Resolve triple_sequenceM : triples.
#[local] Hint Extern 2 (triple _ ?m _) =>
  match goal with
  | Hf : Forall _ (m :: _) |- _ => exact (Forall_inv Hf)
  end : triples.

(** *** Constant evaluation and types *)

Lemma triple_machine {A} (r : option A) : keeps Rf (machine r).
Proof. unfold machine. tgo. Qed.
#[local] Hint Resolve triple_machine : triples.

Lemma triple_evaluateConstExpr e : keeps Rf (evaluateConstExpr e).
Proof.
  apply triple_frame. intros s v s' E. apply evaluateConstExpr_pure in E.
  subst s'. split; [apply Rf_refl|exact I].
Qed.
#[local] Hint Resolve triple_evaluateConstExpr : triples.

Lemma triple_getType typeAST :
  triple Rf (getType typeAST) (fun ty => plain ty /\ isArrayTy ty = false).
Proof.
  unfold getType. destruct (kind typeAST).
  1-3: apply triple_ret; [exact Rf_refl|]; repeat split; discriminate.
  destruct (vectorSizeExpr typeAST) as [sizeExpr|]; [|apply triple_throw].
  eapply (triple_bind_gen Rf Rf Rf Rf_Rf); [apply triple_evaluateConstExpr|].
  intros size _. cbv beta.
  destruct (size <=? 0); [apply triple_throw|].
  destruct (vectorElementKind typeAST); try apply triple_throw;
    (apply triple_ret; [exact Rf_refl|]); repeat split; discriminate.
Qed.

Lemma triple_getType' typeAST : keeps Rf (getType typeAST).
Proof. exact (triple_post _ _ _ (triple_getType typeAST)). Qed.
#[local] Hint Resolve triple_getType' : triples.

Lemma triple_generateExprForArraySize e : gives (generateExprForArraySize e).
Proof. unfold generateExprForArraySize. destruct e; tgo. Qed.
#[local] Hint Resolve triple_generateExprForArraySize : triples.

Lemma triple_generateStringLiteral str : gives (generateStringLiteral str).
Proof. unfold generateStringLiteral, createGlobalString. tgo. Qed.
#[local] Hint Resolve triple_generateStringLiteral : triples.

(** *** Lvalues, calls and expressions *)

Lemma triple_checkLoadedHere name loaded : keeps Rf (checkLoadedHere name loaded).
Proof. unfold checkLoadedHere. tgo. Qed.
#[local] Hint Resolve triple_checkLoadedHere : triples.

Lemma triple_vectorIndex index : gives index -> gives (vectorIndex index).
Proof. intros Hi. unfold vectorIndex. tgo. Qed.
#[local] Hint Resolve triple_vectorIndex : triples.

Lemma triple_generateLVal varName indices :
  Forall (fun m => gives m) indices -> gives (generateLVal varName indices).
Proof. intros Hi. unfold generateLVal. tgo. Qed.

Lemma triple_generateLValAddress varName indices :
  Forall (fun m => gives m) indices -> gives (generateLValAddress varName indices).
Proof. intros Hi. unfold generateLValAddress. tgo. Qed.
#[local] Hint Resolve triple_generateLVal triple_generateLValAddress : triples.

#[local] Hint Extern 2 (triple _ (arg_value ?a) _) =>
  match goal with
  | Hf : Forall arg_keeps (a :: _) |- _ => exact (proj1 (Forall_inv Hf))
  | Ha : arg_keeps a |- _ => exact (proj1 Ha)
  end : triples.
#[local] Hint Extern 2 (triple _ ?m _) =>
  match goal with
  | Ha : arg_keeps ?a, E : arg_address ?a = Some m |- _ =>
      let Hm := fresh in
      pose proof (proj2 Ha) as Hm; rewrite E in Hm; exact Hm
  end : triples.

Lemma triple_generateVsum args : Forall arg_keeps args -> gives (generateVsum args).
Proof. intros Ha. unfold generateVsum. tgo. Qed.
#[local] Hint Resolve triple_generateVsum : triples.

Lemma triple_generateArgument calleeFunc libFunc i arg :
  arg_keeps arg -> gives (generateArgument calleeFunc libFunc i arg).
Proof. intros Ha. unfold generateArgument. tgo. Qed.
#[local] Hint Resolve triple_generateArgument : triples.

Lemma triple_generateArguments calleeFunc libFunc args :
  Forall arg_keeps args ->
  forall i, triple Rf (generateArguments calleeFunc libFunc i args) (Forall clean).
Proof. induction 1 as [|arg rest Ha _ IH]; intros i; simpl; tgo. Qed.
#[local] Hint Resolve triple_generateArguments : triples.

Lemma triple_generateCallExpr funcName lineNumber args :
  Forall arg_keeps args -> gives (generateCallExpr funcName lineNumber args).
Proof. intros Ha. unfold generateCallExpr. tgo. Qed.
#[local] Hint Resolve triple_generateCallExpr : triples.

Lemma triple_scalarBinaryOp op isFloat lhs rhs logical :
  clean lhs -> clean rhs -> gives logical ->
  gives (scalarBinaryOp op isFloat lhs rhs logical).
Proof. intros Hl Hr Hlog. unfold scalarBinaryOp. tgo. Qed.
#[local] Hint Resolve triple_scalarBinaryOp : triples.

Lemma triple_scalarBinary op lhs rhs logical :
  clean lhs -> clean rhs ->
  (forall l r, clean l -> clean r -> gives (logical l r)) ->
  gives (scalarBinary op lhs rhs logical).
Proof. intros Hl Hr Hlog. unfold scalarBinary. tgo. Qed.

Lemma triple_generateBinaryOp op lhs rhs :
  clean lhs -> clean rhs -> gives (generateBinaryOp op lhs rhs).
Proof.
  intros Hl Hr. unfold generateBinaryOp. tgo.
  apply triple_scalarBinary; [assumption..|]. intros l r _ _. tgo.
Qed.

Lemma triple_generateUnaryOp op operand :
  clean operand -> gives (generateUnaryOp op operand).
Proof. intros Ho. unfold generateUnaryOp. tgo. Qed.
#[local] Hint Resolve triple_generateBinaryOp triple_generateUnaryOp : triples.

Lemma callArg_keeps (gen : ExprAST -> M Value) a :
  gives (gen a) ->
  (forall n idx l, a = LValExprAST n idx l -> Forall (fun e => gives (gen e)) idx) ->
  arg_keeps (callArg gen a).
Proof.
  intros Hg Hidx. split; [exact Hg|]. simpl. destruct a; try exact I.
  apply triple_generateLValAddress. apply Forall_map. exact (Hidx _ _ _ eq_refl).
Qed.

Lemma triple_generateExpr_strong e :
  gives (generateExpr e)
  /\ forall n idx l, e = LValExprAST n idx l ->
                     Forall (fun i => gives (generateExpr i)) idx.
Proof.
  induction e as [v l|v l|n idx l IH|op a b l IHa IHb|op a l IHa|f args l IH|str l]
    using ExprAST_ind'; (split; [|try discriminate]); cbn [generateExpr].
  - tgo.
  - tgo.
  - apply triple_generateLVal. apply Forall_map.
    eapply Forall_impl; [exact IH|]. intros i Hi. exact (proj1 Hi).
  - intros n' idx' l' [= -> -> ->].
    eapply Forall_impl; [exact IH|]. intros i Hi. exact (proj1 Hi).
  - destruct IHa as [IHa _], IHb as [IHb _]. tgo.
  - destruct IHa as [IHa _]. tgo.
  - apply triple_generateCallExpr. apply Forall_map.
    eapply Forall_impl; [exact IH|]. intros a [Ha Hidx].
    apply callArg_keeps; assumption.
  - tgo.
Qed.

Lemma triple_generateExpr e : gives (generateExpr e).
Proof. exact (proj1 (triple_generateExpr_strong e)). Qed.
#[local] Hint Resolve triple_generateExpr : triples.

Lemma triple_generateExprs (l : list ExprAST) :
  Forall (fun m => gives m) (map generateExpr l).
Proof. apply Forall_map, Forall_forall. intros e _. apply triple_generateExpr. Qed.
#[local] Hint Resolve triple_generateExprs : triples.

Lemma triple_callArgs (l : list ExprAST) :
  Forall arg_keeps (map (callArg generateExpr) l).
Proof.
  apply Forall_map, Forall_forall. intros e _.
  apply callArg_keeps; [apply triple_generateExpr|].
  intros n idx l0 _. apply Forall_forall. intros i _. apply triple_generateExpr.
Qed.
#[local] Hint Resolve triple_callArgs : triples.

Lemma triple_generateCondBinaryOp op lhs rhs :
  clean lhs -> clean rhs -> gives (generateCondBinaryOp op lhs rhs).
Proof.
  intros Hl Hr. unfold generateCondBinaryOp. tgo.
  apply triple_scalarBinary; [assumption..|]. intros l r ? ?. tgo.
Qed.

Lemma triple_generateCondUnaryOp op operand :
  clean operand -> gives (generateCondUnaryOp op operand).
Proof. intros Ho. unfold generateCondUnaryOp. tgo. Qed.

Lemma triple_rejectVector m : gives m -> gives (rejectVector m).
Proof. intros Hm. unfold rejectVector. tgo. Qed.
#[local] Hint Resolve triple_generateCondBinaryOp triple_generateCondUnaryOp
  triple_rejectVector : triples.

Lemma triple_generateCondExpr e : gives (generateCondExpr e).
Proof.
  induction e as [v l|v l|n idx l|op a IHa b IHb l|op a IHa l|f args l|str l];
    cbn [generateCondExpr]; tgo.
Qed.
#[local] Hint Resolve triple_generateCondExpr : triples.

(** *** Initializers and declarations *)

Lemma triple_pointeeType ptr : keeps Rf (pointeeType ptr).
Proof. unfold pointeeType. tgo. Qed.
Lemma triple_convertInit elementType val msg :
  clean val -> gives (convertInit elementType val msg).
Proof. intros Hv. unfold convertInit. tgo. Qed.
#[local] Hint Resolve triple_pointeeType triple_convertInit : triples.

Lemma triple_buildArrayInit elementType dims :
  forall type initVals index,
    keeps Rf (buildArrayInit elementType type dims initVals index).
Proof.
  induction dims as [|n sub IH]; intros type initVals index; cbn [buildArrayInit]; tgo.
Qed.

Lemma triple_initArrayElements elementType dims :
  forall basePtr type initVals index,
    clean basePtr ->
    keeps Rf (initArrayElements elementType basePtr type dims initVals index).
Proof.
  induction dims as [|n sub IH]; intros basePtr type initVals index Hb;
    cbn [initArrayElements]; tgo.
Qed.
#[local] Hint Resolve triple_buildArrayInit triple_initArrayElements : triples.

Lemma triple_generateVectorInit initVal ptr targetType elemType vecSize :
  clean ptr -> keeps Rf (generateVectorInit initVal ptr targetType elemType vecSize).
Proof. intros Hp. unfold generateVectorInit. tgo. Qed.

Lemma triple_initScalar ptr value :
  clean ptr -> clean value -> keeps Rf (initScalar ptr value).
Proof. intros Hp Hv. unfold initScalar. tgo. Qed.
#[local] Hint Resolve triple_generateVectorInit triple_initScalar : triples.

Lemma triple_generateInitVal initVal ptr dimensions sizes :
  clean ptr -> keeps Rf (generateInitVal initVal ptr dimensions sizes).
Proof. intros Hp. unfold generateInitVal. tgo. Qed.
#[local] Hint Resolve triple_generateInitVal : triples.

Lemma triple_evalArraySizes lower sizeExprs :
  (forall e, keeps Rf (lower e)) -> keeps Rf (evalArraySizes lower sizeExprs).
Proof.
  intros Hl. induction sizeExprs as [|e rest IH]; cbn [evalArraySizes]; [tgo|].
  eapply (triple_bind_gen Rf Rf Rf Rf_Rf); [apply Hl|]. intros v _. tgo.
Qed.

Lemma triple_evalArraySizes_generateExpr sizeExprs :
  keeps Rf (evalArraySizes generateExpr sizeExprs).
Proof.
  apply triple_evalArraySizes. intros e.
  exact (triple_post _ _ _ (triple_generateExpr e)).
Qed.

Lemma triple_evalArraySizes_constant sizeExprs :
  keeps Rf (evalArraySizes generateExprForArraySize sizeExprs).
Proof.
  apply triple_evalArraySizes. intros e.
  exact (triple_post _ _ _ (triple_generateExprForArraySize e)).
Qed.
#[local] Hint Resolve triple_evalArraySizes_generateExpr
  triple_evalArraySizes_constant : triples.

Lemma triple_addSymbol name info :
  (cells = true -> sym_ok info) -> keeps Rt (addSymbol name info).
Proof.
  intros Hinfo s a s' HI E. unfold addSymbol in E.
  destruct (symbolTableStack s) as [|scope outer] eqn:Es; [discriminate|].
  destruct (scope !! name); [discriminate|]. injection E as _ <-.
  split; [|split; [|exact I]].
  - intros Hc. specialize (HI Hc). rewrite Es in HI.
    apply Forall_cons in HI as [Hscope Houter].
    simpl. constructor; [|exact Houter].
    apply map_Forall_insert_2; auto.
  - split; [|simpl; rewrite Es; repeat split].
    repeat split. exists []. simpl. rewrite app_nil_r. split; [reflexivity|constructor].
Qed.

(** A symbol of a declaration: an object of a plain type, with no
    pointer kept. *)
Lemma sym_ok_alloca id ty c a :
  plain ty -> sym_ok (SymbolInfo3 (AllocaInst id ty) c a).
Proof.
  intros [Hp Hv]. split; [|split].
  - simpl. intros Hc. exfalso. destruct ty; simpl in Hc; congruence.
  - discriminate.
  - simpl. intros n [= E]. exact (Hv n E).
Qed.

Lemma sym_ok_global id ty c a :
  plain ty -> sym_ok (SymbolInfo3 (GlobalVariable id ty) c a).
Proof.
  intros [Hp Hv]. split; [|split].
  - discriminate.
  - discriminate.
  - simpl. intros n [= E]. exact (Hv n E).
Qed.

Lemma triple_generateVarDef varType varDef :
  plain varType -> keeps Rt (generateVarDef varType varDef).
Proof.
  intros Hty. unfold generateVarDef. tgo.
  all: apply triple_addSymbol; intros _;
    first [ apply sym_ok_alloca | apply sym_ok_global ];
    apply arrayTypeOf_plain, Hty.
Qed.

Lemma triple_generateConstDef constType constDef :
  plain constType -> keeps Rt (generateConstDef constType constDef).
Proof.
  intros Hty. unfold generateConstDef. tgo.
  all: apply triple_addSymbol; intros _; apply sym_ok_global;
    apply arrayTypeOf_plain, Hty.
Qed.

Ltac tgetType :=
  lazymatch goal with
  | |- triple Rt (mbind _ (getType _)) _ =>
      eapply (triple_bind_gen Rt Rt Rt Rt_Rt);
        [apply triple_weaken, triple_getType | intros ? [? ?]; cbv beta zeta in * ]
  end.

Lemma triple_generateDecl decl : keeps Rt (generateDecl decl).
Proof.
  unfold generateDecl. destruct decl; tgetType; tstep.
  - apply triple_generateVarDef. assumption.
  - apply triple_generateConstDef. assumption.
Qed.

(** *** Statements *)

Lemma triple_branchUnlessTerminated dest : keeps Rf (branchUnlessTerminated dest).
Proof. unfold branchUnlessTerminated. tgo. Qed.
Lemma triple_condToBool v name : clean v -> gives (condToBool v name).
Proof. intros Hv. unfold condToBool. tgo. Qed.
Lemma triple_generateReturn r : keeps Rf (generateReturn r).
Proof. unfold generateReturn. tgo. Qed.
Lemma triple_generateAssign n idx e : keeps Rf (generateAssign n idx e).
Proof. unfold generateAssign. tgo. Qed.
#[local] Hint Resolve triple_branchUnlessTerminated triple_condToBool
  triple_generateReturn triple_generateAssign : triples.

Lemma triple_popTargets :
  keeps Rpop (modify (fun s => set_loopTargets (removelast (breakTargets s))
                                               (removelast (continueTargets s)) s)).
Proof.
  intros s a s' HI E. injection E as _ <-.
  split; [exact HI|]. split; [|exact I].
  split; [|repeat split]. repeat split.
  exists []. simpl. rewrite app_nil_r. split; [reflexivity|constructor].
Qed.
#[local] Hint Resolve triple_popTargets : triples.

Lemma triple_loop_bracket a c {A} (rest : M A) Q :
  triple Rpop rest Q ->
  triple Rf (modify (fun s => set_loopTargets (breakTargets s ++ [a])
                                              (continueTargets s ++ [c]) s);; rest) Q.
Proof.
  intros Hrest s x s' HI E. unfold mbind, M_bind, modify in E.
  assert (HI1 : Inv (set_loopTargets (breakTargets s ++ [a])
                                     (continueTargets s ++ [c]) s)) by exact HI.
  destruct (Hrest _ _ _ HI1 E) as (HI' & (Hc & Hs & Hb & Hct) & HQ).
  simpl in *. rewrite removelast_last in Hb, Hct.
  split; [exact HI'|]. split; [|exact HQ]. split; [exact Hc|]. auto.
Qed.

Lemma triple_popScope : keeps Rps popScope.
Proof.
  intros s a s' HI E. unfold popScope in E.
  destruct (symbolTableStack s) as [|scope outer] eqn:Es; [discriminate|].
  injection E as _ <-.
  split; [|split; [|exact I]].
  { intros Hc. specialize (HI Hc). rewrite Es in HI.
    apply Forall_cons in HI as [_ Houter]. exact Houter. }
  split; [|simpl; rewrite Es; repeat split]. repeat split.
  exists []. simpl. rewrite app_nil_r. split; [reflexivity|constructor].
Qed.
#[local] Hint Resolve triple_popScope : triples.

Lemma triple_scope_bracket {A} (rest : M A) Q :
  triple Rps rest Q -> triple Rf (pushScope;; rest) Q.
Proof.
  intros Hrest s x s' HI E. unfold mbind, M_bind, pushScope, modify in E.
  assert (HI1 : Inv (set_symbolTableStack (∅ :: symbolTableStack s) s)).
  { intros Hc. constructor; [apply map_Forall_empty|exact (HI Hc)]. }
  destruct (Hrest _ _ _ HI1 E) as (HI' & (Hc & Hs & Hb & Hct) & HQ).
  split; [exact HI'|]. split; [|exact HQ]. split; [exact Hc|]. auto.
Qed.

Lemma triple_generateStmt stmt : keeps Rf (generateStmt stmt).
Proof.
  induction stmt as [n idx l e|e|e|c t IHt|c t e IHt IHe|c b IHb| | |items IH]
    using StmtAST_ind'; cbn [generateStmt].
  - tgo.
  - destruct e; tgo.
  - tgo.
  - tgo.
  - tgo.
  - do 4 tstep. apply triple_loop_bracket. tgo.
  - tgo.
  - tgo.
  - apply triple_scope_bracket.
    refine (triple_bind_gen Rt Rps Rps Rt_Rps _ _ (fun _ => True) _ _ _);
      [|intros _ _; apply triple_popScope].
    induction IH as [|item rest Hitem _ IHrest].
    + tgo.
    + destruct item as [decl|s].
      * eapply (triple_bind_gen Rt Rt Rt Rt_Rt); [apply triple_generateDecl|].
        intros _ _. exact IHrest.
      * eapply (triple_bind_gen Rt Rt Rt Rt_Rt); [apply triple_weaken, Hitem|].
        intros _ _. exact IHrest.
Qed.

End GeneratorInvariants.

(** ** Scopes, loop targets and the instruction log across lowering *)

Section LoweringFrame.
Import IRGenerator GenSpec Examples.
Context `{IRBuilderFolder}.

Lemma Inv_false s : Inv false s.
Proof. intros Hc. discriminate. Qed.

Lemma clean_off v : clean false v.
Proof. intros Hc. discriminate Hc. Qed.

Lemma frame_of {A} (m : M A) Q :
  triple false (Rf false) m Q ->
  forall s a s', m s = Ok (a, s') ->
    symbolTableStack s' = symbolTableStack s
    /\ currentFunction s' = currentFunction s
    /\ breakTargets s' = breakTargets s
    /\ continueTargets s' = continueTargets s
    /\ libraryFunctions s' = libraryFunctions s
    /\ exists new, emitted s' = emitted s ++ new.
Proof.
  intros Hm s a s' E.
  destruct (Hm _ _ _ (Inv_false s) E) as (_ & ((Hf & Hl & new & He & _) & Hs & Hb & Hc) & _).
  repeat split; try assumption. exists new. exact He.
Qed.

(** X13.  Lowering an expression, as a value or as a condition, leaves
    the scopes, the function being generated, the loop targets and the
    library table as they are, and only adds to the instructions
    inserted so far. *)
Theorem expression_lowering_frame e s v s' :
  generateExpr e s = Ok (v, s') \/ generateCondExpr e s = Ok (v, s') ->
  symbolTableStack s' = symbolTableStack s
  /\ currentFunction s' = currentFunction s
  /\ breakTargets s' = breakTargets s
  /\ continueTargets s' = continueTargets s
  /\ libraryFunctions s' = libraryFunctions s
  /\ exists new, emitted s' = emitted s ++ new.
Proof.
  intros [E|E].
  - exact (frame_of _ _ (triple_generateExpr false e) _ _ _ E).
  - exact (frame_of _ _ (triple_generateCondExpr false e) _ _ _ E).
Qed.

(** X14.  A statement that is lowered leaves the scopes as it found
    them, so that what a block declares is not visible after it, and
    the loop targets, so that a loop is left when its statement ends;
    the instructions inserted before it stay as they are. *)
Theorem statement_restores_scopes_and_targets stmt s s' :
  generateStmt stmt s = Ok (tt, s') ->
  symbolTableStack s' = symbolTableStack s
  /\ currentFunction s' = currentFunction s
  /\ breakTargets s' = breakTargets s
  /\ continueTargets s' = continueTargets s
  /\ libraryFunctions s' = libraryFunctions s
  /\ exists new, emitted s' = emitted s ++ new.
Proof. exact (frame_of _ _ (triple_generateStmt false stmt) s tt s'). Qed.

(** X15.  A declaration changes the innermost scope only: the scopes
    around it, the loop targets and the function being generated stay
    as they are, and the instructions inserted before it too. *)
Theorem declaration_changes_innermost_scope_only decl s s' :
  generateDecl decl s = Ok (tt, s') ->
  tail (symbolTableStack s') = tail (symbolTableStack s)
  /\ currentFunction s' = currentFunction s
  /\ breakTargets s' = breakTargets s
  /\ continueTargets s' = continueTargets s
  /\ exists new, emitted s' = emitted s ++ new.
Proof.
  intros E.
  destruct (triple_generateDecl false decl _ _ _ (Inv_false s) E)
    as (_ & ((Hf & Hl & new & He & _) & Hs & Hb & Hc) & _).
  repeat split; try assumption. exists new. exact He.
Qed.

Lemma bind_inv {A B} (m : M A) (k : A -> M B) s b s' :
  (m ≫= k) s = Ok (b, s') ->
  exists a s1, m s = Ok (a, s1) /\ k a s1 = Ok (b, s').
Proof.
  unfold mbind, M_bind. destruct (m s) as [[a s1]|]; [|discriminate]. eauto.
Qed.

(** No loop is open. *)
Local Abbreviation outside_loops s := (breakTargets s = [] /\ continueTargets s = []).

Lemma outside_Rf {A} (m : M A) Q s a s' :
  triple false (Rf false) m Q ->
  m s = Ok (a, s') -> outside_loops s -> outside_loops s'.
Proof.
  intros Hm E [Hb Hc].
  destruct (Hm _ _ _ (Inv_false s) E) as (_ & (_ & _ & Hb' & Hc') & _).
  split; congruence.
Qed.

Lemma outside_Rt {A} (m : M A) Q s a s' :
  triple false (Rt false) m Q ->
  m s = Ok (a, s') -> outside_loops s -> outside_loops s'.
Proof.
  intros Hm E [Hb Hc].
  destruct (Hm _ _ _ (Inv_false s) E) as (_ & (_ & _ & Hb' & Hc') & _).
  split; congruence.
Qed.

Ltac jsplit E E1 :=
  let a := fresh "a" in
  let s1 := fresh "s" in
  apply bind_inv in E as (a & s1 & E1 & E).

Ltac jframe E1 :=
  match type of E1 with
  | ?m ?s = Ok (_, ?s1) =>
      let HJ := fresh "HJ" in
      assert (HJ : outside_loops s1);
      [ eapply (outside_Rf m _ _ _ _);
        [ first [ apply triple_generateCondExpr
                | apply triple_condToBool; apply clean_off
                | apply triple_GetInsertBlock_getParent | apply triple_BasicBlock_Create
                | apply triple_CreateCondBr; apply clean_off
                | apply triple_SetInsertPoint
                | apply triple_generateStmt | apply triple_branchUnlessTerminated
                | apply triple_Function_insert ]
        | exact E1 | assumption ]
      | clear E1 ]
  end.

Ltac juse IH E2 :=
  match type of E2 with
  | generateStmt ?t ?s = Ok (?a, ?s1) =>
      destruct a;
      match goal with
      | HJ : breakTargets s = [] /\ continueTargets s = [] |- _ =>
          rewrite (IH s s1 HJ E2)
      end;
      jframe E2
  end.

Ltac jstep E :=
  let E1 := fresh "E" in
  jsplit E E1; jframe E1.

(** X16.  A statement lowered while no loop is open has every [break]
    and [continue] inside one of its own [while] loops: a jump outside
    of a loop is an error wherever it stands, also after a [return]. *)
Theorem jumps_outside_loops_rejected stmt : forall s s',
  breakTargets s = [] /\ continueTargets s = [] ->
  generateStmt stmt s = Ok (tt, s') ->
  jumps_enclosed stmt = true.
Proof.
  induction stmt as [n idx l e|e|e|c t IHt|c t e IHt IHe|c b IHb| | |items IH]
    using StmtAST_ind'; intros s s' HJ E; cbn [generateStmt jumps_enclosed] in *;
    try reflexivity.
  - do 5 jstep E. jsplit E E1. clear E. do 2 jstep E1. jsplit E1 E2. juse IHt E2.
    reflexivity.
  - do 5 jstep E. jsplit E E1. clear E. do 3 jstep E1. jsplit E1 E2. juse IHt E2.
    do 3 jstep E1. jsplit E1 E3. juse IHe E3. reflexivity.
  - destruct HJ as [Hb _]. unfold gets, mbind, M_bind in E. rewrite Hb in E. discriminate.
  - destruct HJ as [_ Hc]. unfold gets, mbind, M_bind in E. rewrite Hc in E. discriminate.
  - jsplit E E1. injection E1 as _ <-.
    assert (HJ1 : outside_loops (set_symbolTableStack (∅ :: symbolTableStack s) s))
      by exact HJ.
    jsplit E E1. clear E HJ. revert E1 HJ1.
    generalize (set_symbolTableStack (∅ :: symbolTableStack s) s).
    match goal with |- forall _, _ _ = Ok (_, ?sx) -> _ => generalize sx end.
    match goal with |- forall _ _, _ _ = Ok (?ax, _) -> _ => generalize ax end.
    intros ax sx sy.
    induction IH as [|item rest Hitem _ IHrest] in sy |- *; intros E HJ; [reflexivity|].
    cbn [forallb]. destruct item as [decl|st].
    + jsplit E E1.
      apply (outside_Rt _ _ _ _ _ (triple_generateDecl false decl) E1) in HJ.
      exact (IHrest _ E HJ).
    + jsplit E E1. juse Hitem E1. exact (IHrest _ E ltac:(assumption)).
Qed.


End LoweringFrame.

Section LoweringFrameExamples.
Import IRGenerator GenSpec Examples MoreExamples.

Lemma expression_lowering_frame_witness :
  exists v s',
    generateExpr (H := NoFolder) element_plus_one after_local_vector = Ok (v, s')
    /\ symbolTableStack s' = symbolTableStack after_local_vector
    /\ exists new, emitted s' = emitted after_local_vector ++ new.
Proof.
  destruct (generateExpr (H := NoFolder) element_plus_one after_local_vector)
    as [[v s']|] eqn:E; [|vm_compute in E; discriminate E].
  exists v, s'. split; [reflexivity|].
  destruct (expression_lowering_frame (H := NoFolder) element_plus_one
              after_local_vector v s' (or_introl E)) as (Hs & _ & _ & _ & _ & Hnew).
  split; assumption.
Defined.

Lemma statement_restores_scopes_and_targets_witness :
  exists s',
    generateStmt (H := NoFolder) scoped_statement after_local_vector = Ok (tt, s')
    /\ symbolTableStack s' = symbolTableStack after_local_vector
    /\ breakTargets s' = breakTargets after_local_vector.
Proof.
  destruct (generateStmt (H := NoFolder) scoped_statement after_local_vector)
    as [[[] s']|] eqn:E; [|vm_compute in E; discriminate E].
  exists s'. split; [reflexivity|].
  destruct (statement_restores_scopes_and_targets (H := NoFolder) scoped_statement
              after_local_vector s' E) as (Hs & _ & Hb & _).
  split; assumption.
Defined.

Lemma declaration_changes_innermost_scope_only_witness :
  exists s',
    generateDecl (H := NoFolder) int_x_is_1 after_local_vector = Ok (tt, s')
    /\ tail (symbolTableStack s') = tail (symbolTableStack after_local_vector).
Proof.
  destruct (generateDecl (H := NoFolder) int_x_is_1 after_local_vector)
    as [[[] s']|] eqn:E; [|vm_compute in E; discriminate E].
  exists s'. split; [reflexivity|].
  exact (proj1 (declaration_changes_innermost_scope_only (H := NoFolder) int_x_is_1
                  after_local_vector s' E)).
Defined.

Lemma jumps_outside_loops_rejected_witness :
  exists s',
    generateStmt (H := NoFolder) scoped_statement after_local_vector = Ok (tt, s')
    /\ jumps_enclosed scoped_statement = true.
Proof.
  destruct (generateStmt (H := NoFolder) scoped_statement after_local_vector)
    as [[[] s']|] eqn:E; [|vm_compute in E; discriminate E].
  exists s'. split; [reflexivity|].
  exact (jumps_outside_loops_rejected (H := NoFolder) scoped_statement
           after_local_vector s' (conj eq_refl eq_refl) E).
Defined.

End LoweringFrameExamples.

(** ** The cells of array parameters *)

Section ArrayParameters.
Import IRGenerator GenSpec.
Context `{IRBuilderFolder} {V : Verifier}.

Ltac munfold :=
  unfold lookupSymbol in *;
  unfold mbind, M_bind, mret, M_ret, throw, gets, lift in *;
  cbn beta iota in *.

Ltac bsplit E E1 :=
  let a := fresh "a" in
  let s1 := fresh "s" in
  apply bind_inv in E as (a & s1 & E1 & E).

Lemma getType_pure typeAST s ty s' :
  getType typeAST s = Ok (ty, s') -> s' = s /\ plain ty.
Proof.
  unfold getType. munfold. destruct (kind typeAST).
  1-3: intros E; injection E as <- <-; repeat split; discriminate.
  destruct (vectorSizeExpr typeAST) as [sizeExpr|]; [|discriminate].
  destruct (evaluateConstExpr sizeExpr s) as [[size s1]|] eqn:Es; [|discriminate].
  apply evaluateConstExpr_pure in Es. subst s1.
  destruct (size <=? 0); [discriminate|].
  destruct (vectorElementKind typeAST); try discriminate;
    intros E; injection E as <- <-; repeat split; discriminate.
Qed.

Lemma paramTypes_spec param s pt s' :
  paramTypes param s = Ok (pt, s') -> s' = s /\ param_cell_ok (param, pt).
Proof.
  unfold paramTypes, param_cell_ok. intros E. bsplit E E1.
  apply getType_pure in E1 as [-> Hty]. cbn [fst snd].
  destruct (param_isArray param).
  - bsplit E E1.
    match type of E1 with
    | ?F _ _ _ = _ =>
        assert (Hd : forall l ty0 s0 r s1, F l ty0 s0 = Ok (r, s1) -> s1 = s0)
    end.
    { clear. induction l as [|sizeExpr rest IH]; intros ty0 s0 r s1 E.
      - injection E as _ <-. reflexivity.
      - bsplit E E1. apply evaluateConstExpr_pure in E1. subst.
        destruct (a <=? 0); [discriminate|]. exact (IH _ _ _ _ E). }
    apply Hd in E1. subst. injection E as <- <-. split; reflexivity.
  - injection E as <- <-. auto.
Qed.

Lemma mapM_paramTypes_spec ps : forall s ptys s',
  mapM paramTypes ps s = Ok (ptys, s') ->
  s' = s /\ length ptys = length ps /\ Forall param_cell_ok (zip ps ptys).
Proof.
  induction ps as [|p rest IH]; intros s ptys s' E; cbn [mapM] in E.
  - injection E as <- <-. repeat split. constructor.
  - bsplit E E1. apply paramTypes_spec in E1 as [-> Hp].
    bsplit E E1. apply IH in E1 as (-> & Hlen & Hrest).
    injection E as <- <-. repeat split; [simpl; congruence|].
    constructor; assumption.
Qed.

Lemma allocaParams_spec ps : forall idx s infos s',
  allocaParams idx ps s = Ok (infos, s') ->
  infos = infos_of (nextId s) ps
  /\ emitted s' = emitted s ++ alloca_log (insertBlock s) (nextId s) idx ps
  /\ nextId s' = (nextId s + length ps)%nat
  /\ insertBlock s' = insertBlock s
  /\ symbolTableStack s' = symbolTableStack s
  /\ block_parent s' = block_parent s.
Proof.
  induction ps as [|[param [argType elemType]] rest IH]; intros idx s infos s' E;
    cbn [allocaParams] in E.
  - injection E as <- <-. simpl. rewrite app_nil_r, Nat.add_0_r. repeat split.
  - bsplit E E1. bsplit E E2. bsplit E E3.
    destruct (insertBlock s) as [b|] eqn:Hb;
      [|unfold CreateAlloca, GetInsertBlock in E1; munfold; rewrite Hb in E1;
        discriminate].
    rewrite (CreateAlloca_in_block _ _ _ _ Hb) in E1. injection E1 as <- <-.
    rewrite (CreateStore_in_block _ _ _ b) in E2 by exact Hb.
    injection E2 as _ <-. injection E as <- <-.
    apply IH in E3 as (-> & He & Hn & Hb' & Hs & Hp). simpl in *.
    rewrite He, Hn, Hb', Hs, Hp, Hb, <- !app_assoc. simpl.
    repeat split. lia.
Qed.

Lemma preload_spec infos : forall s s',
  forM_ infos preloadParam s = Ok (tt, s') ->
  emitted s' = emitted s ++ preload_log (insertBlock s) (nextId s) infos
  /\ insertBlock s' = insertBlock s
  /\ block_parent s' = block_parent s
  /\ tail (symbolTableStack s') = tail (symbolTableStack s)
  /\ (Inv true s -> Forall info_ok infos -> Inv true s').
Proof.
  induction infos as [|info rest IH]; intros s s' E; cbn [forM_] in E.
  - injection E as <-. simpl. rewrite app_nil_r. repeat split. auto.
  - bsplit E E1. destruct a. unfold preloadParam in E1. bsplit E1 E2.
    assert (Hload : emitted s1
                    = emitted s ++ (if pi_isArray info
                                    then [(insertBlock s,
                                           ILoad (nextId s) (pi_argType info)
                                                 (pi_alloca info)
                                                 (pi_name info +:+ "_loaded"))]
                                    else [])
                    /\ nextId s1 = (if pi_isArray info then S (nextId s) else nextId s)
                    /\ insertBlock s1 = insertBlock s
                    /\ block_parent s1 = block_parent s
                    /\ symbolTableStack s1 = symbolTableStack s
                    /\ forall p, a = Some p -> is_cell p = false).
    { destruct (pi_isArray info).
      - bsplit E2 E3.
        destruct (insertBlock s) as [b|] eqn:Hb;
          [|unfold CreateLoad, GetInsertBlock in E3; munfold; rewrite Hb in E3;
            discriminate].
        rewrite (CreateLoad_in_block _ _ _ _ _ Hb) in E3. injection E3 as <- <-.
        injection E2 as <- <-. simpl. rewrite Hb. repeat split.
        intros p [= <-]. reflexivity.
      - injection E2 as <- <-. rewrite app_nil_r. repeat split. discriminate. }
    clear E2. destruct Hload as (He1 & Hn1 & Hb1 & Hp1 & Hs1 & Ha).
    assert (Hadd : emitted s0 = emitted s1 /\ nextId s0 = nextId s1
                   /\ insertBlock s0 = insertBlock s1
                   /\ block_parent s0 = block_parent s1
                   /\ tail (symbolTableStack s0) = tail (symbolTableStack s1)
                   /\ (Inv true s1 -> info_ok info -> Inv true s0)).
    { unfold addSymbol in E1.
      destruct (symbolTableStack s1) as [|scope outer] eqn:Est; [discriminate|].
      destruct (scope !! pi_name info); [discriminate|].
      injection E1 as <-. simpl. repeat split.
      intros HI [Hinfo Hvec] _. specialize (HI eq_refl). rewrite Est in HI.
      apply Forall_cons in HI as [Hscope Houter]. simpl.
      constructor; [|exact Houter]. apply map_Forall_insert_2; [|exact Hscope].
      split; [exact Hinfo|]. split; [exact Ha|exact Hvec]. }
    clear E1. destruct Hadd as (He0 & Hn0 & Hb0 & Hp0 & Ht0 & HI0).
    apply IH in E as (He & Hb & Hp & Ht & HI).
    rewrite He, He0, He1, Hn0, Hn1, Hb0, Hb1, <- app_assoc. simpl.
    split; [|split; [congruence|split; [congruence|split; [congruence|]]]].
    + destruct (pi_isArray info); reflexivity.
    + intros HIs Hall. apply Forall_cons in Hall as [Hinfo Hrest].
      apply HI; [|exact Hrest]. apply HI0; [|exact Hinfo].
      intros _. unfold Inv in HIs. rewrite Hs1. exact (HIs eq_refl).
Qed.

(** *** What the two logs hold *)

Lemma cell_loads_none log :
  Forall (fun e => is_cell_load (snd e) = false) log -> cell_loads log = [].
Proof.
  induction 1 as [|e rest He _ IH]; [reflexivity|].
  unfold cell_loads in *. rewrite filter_cons_False by congruence.
  exact IH.
Qed.

Lemma cell_loads_app l1 l2 : cell_loads (l1 ++ l2) = cell_loads l1 ++ cell_loads l2.
Proof. unfold cell_loads. apply filter_app. Qed.

Lemma alloca_log_no_load b ps : forall n idx, cell_loads (alloca_log b n idx ps) = [].
Proof.
  induction ps as [|[param [argType elemType]] rest IH]; intros n idx; [reflexivity|].
  cbn [alloca_log]. unfold cell_loads in *.
  rewrite !filter_cons_False by (simpl; discriminate). apply IH.
Qed.

Lemma alloca_log_block b ps : forall n idx,
  Forall (fun e => fst e = b) (alloca_log b n idx ps).
Proof.
  induction ps as [|[param [argType elemType]] rest IH]; intros n idx; simpl;
    repeat constructor. apply IH.
Qed.

Lemma preload_log_block b infos : forall n,
  Forall (fun e => fst e = b) (preload_log b n infos).
Proof.
  induction infos as [|info rest IH]; intros n; simpl; [constructor|].
  destruct (pi_isArray info); [constructor; [reflexivity|]|]; apply IH.
Qed.

Lemma infos_of_ok ps : Forall param_cell_ok ps -> forall n,
  Forall info_ok (infos_of n ps).
Proof.
  induction 1 as [|[param [argType elemType]] rest Hp _ IH]; intros n; simpl;
    constructor; [|apply IH].
  unfold info_ok. simpl. unfold param_cell_ok in Hp. simpl in Hp.
  destruct (param_isArray param).
  - subst argType. split; [reflexivity|discriminate].
  - destruct Hp as [Hp Hv]. split.
    + destruct argType; simpl; congruence.
    + intros n0 [= E]. exact (Hv n0 E).
Qed.

(** The loads of the prologue, parameter by parameter. *)
Lemma preload_log_spec b ps : Forall param_cell_ok ps -> forall n idx m,
  cell_loads (preload_log b m (infos_of n ps)) = preload_log b m (infos_of n ps)
  /\ Forall2 (fun p e =>
                exists id cell,
                  e = (b, ILoad id PointerTy (AllocaInst cell PointerTy)
                                (param_name p +:+ "_loaded"))
                  /\ (n <= cell)%nat
                  /\ In (b, IAlloca cell PointerTy (param_name p +:+ "_addr"))
                        (alloca_log b n idx ps))
             (filter (fun p => param_isArray p = true) (map fst ps))
             (preload_log b m (infos_of n ps))
  /\ NoDup (map loaded_cell (preload_log b m (infos_of n ps))).
Proof.
  induction 1 as [|[param [argType elemType]] rest Hp _ IH]; intros n idx m.
  - simpl. repeat split; constructor.
  - unfold param_cell_ok in Hp. simpl in Hp. cbn [infos_of preload_log map fst].
    cbn [pi_isArray pi_argType pi_alloca pi_name].
    destruct (param_isArray param) eqn:Ea.
    + subst argType. rewrite filter_cons_True by exact Ea.
      destruct (IH (S n) (S idx) (S m)) as (Hc & Hf & Hn).
      split; [|split].
      * unfold cell_loads in *. rewrite filter_cons_True by reflexivity.
        rewrite Hc. reflexivity.
      * constructor.
        -- exists m, n. split; [reflexivity|]. split; [lia|]. simpl. left. reflexivity.
        -- eapply Forall2_impl; [exact Hf|].
           intros p e (id & cell & -> & Hle & Hin). exists id, cell.
           split; [reflexivity|]. split; [lia|]. simpl. right. right. exact Hin.
      * cbn [map]. constructor; [|exact Hn].
        unfold loaded_cell at 1. simpl. intros Hin.
        apply Forall2_length in Hf as Hlen.
        apply list_elem_of_fmap in Hin as (e & Heq & He).
        apply list_elem_of_lookup in He as (i & Hi).
        destruct (Forall2_lookup_r _ _ _ _ _ Hf Hi) as (p & _ & id & cell & -> & Hle & _).
        unfold loaded_cell in Heq. simpl in Heq. injection Heq as ->. lia.
    + rewrite filter_cons_False by congruence.
      destruct (IH (S n) (S idx) m) as (Hc & Hf & Hn).
      split; [exact Hc|]. split; [|exact Hn].
      eapply Forall2_impl; [exact Hf|].
      intros p e (id & cell & -> & Hle & Hin). exists id, cell.
      split; [reflexivity|]. split; [lia|]. simpl. right. right. exact Hin.
Qed.

Lemma checkInsertBlock_pure entryBB msg s a s' :
  checkInsertBlock entryBB msg s = Ok (a, s') -> s' = s.
Proof.
  unfold checkInsertBlock. munfold.
  destruct (bool_decide (insertBlock s = Some entryBB)); [|discriminate].
  intros E. injection E as _ <-. reflexivity.
Qed.

Lemma map_fst_zip {A B} (l : list A) (k : list B) :
  length k = length l -> map fst (zip l k) = l.
Proof.
  revert k. induction l as [|a l IH]; intros [|b k] Hlen; simpl in *;
    try reflexivity; try discriminate.
  f_equal. apply IH. lia.
Qed.

Lemma uniqueName_spec name s n s' :
  uniqueName name s = Ok (n, s') ->
  emitted s' = emitted s /\ symbolTableStack s' = symbolTableStack s
  /\ block_parent s' = block_parent s /\ insertBlock s' = insertBlock s
  /\ nextId s' = nextId s /\ currentFunction s' = currentFunction s.
Proof.
  unfold uniqueName. destruct (nameTaken name s).
  - destruct (makeUniqueName _ _ _ _) as [n' k]. intros E. injection E as _ <-.
    repeat split.
  - intros E. injection E as _ <-. repeat split.
Qed.

Lemma Function_Create_spec ty l name s f s' :
  Function_Create ty l name s = Ok (f, s') ->
  emitted s' = emitted s /\ symbolTableStack s' = symbolTableStack s
  /\ block_parent s' = block_parent s /\ insertBlock s' = insertBlock s.
Proof.
  unfold Function_Create. intros E. bsplit E E1.
  apply uniqueName_spec in E1 as (He & Hs & Hp & Hb & _).
  unfold fresh, modify in E. munfold. injection E as _ <-.
  repeat split; assumption.
Qed.

Lemma BasicBlock_Create_spec name parent s id s' :
  BasicBlock_Create name parent s = Ok (id, s') ->
  emitted s' = emitted s /\ symbolTableStack s' = symbolTableStack s
  /\ block_parent s' !! id = Some (name, parent).
Proof.
  unfold BasicBlock_Create, fresh, modify. munfold. intros E. injection E as <- <-.
  repeat split. simpl. apply lookup_insert_eq.
Qed.

Lemma hasTerminator_pure s b s' : hasTerminator s = Ok (b, s') -> s' = s.
Proof.
  unfold hasTerminator, GetInsertBlock. munfold.
  destruct (insertBlock s); [|discriminate]. intros E. injection E as _ <-.
  reflexivity.
Qed.

Lemma no_cell_no_load log :
  Forall (fun e => uses_cell (snd e) = false) log -> cell_loads log = [].
Proof.
  intros Hl. apply cell_loads_none. eapply Forall_impl; [exact Hl|].
  intros [b i] Hi. destruct i; try reflexivity. simpl in *.
  unfold uses_cell in Hi. simpl in Hi. apply orb_false_elim in Hi. exact (proj1 Hi).
Qed.

Lemma alloca_log_open b ps : forall n idx,
  Forall (fun e => isTerminator (snd e) = false) (alloca_log b n idx ps).
Proof.
  induction ps as [|[param [argType elemType]] rest IH]; intros n idx; simpl;
    repeat constructor. apply IH.
Qed.

Lemma preload_log_open b infos : forall n,
  Forall (fun e => isTerminator (snd e) = false) (preload_log b n infos).
Proof.
  induction infos as [|info rest IH]; intros n; simpl; [constructor|].
  destruct (pi_isArray info); [constructor; [reflexivity|]|]; apply IH.
Qed.

(** The three parts of a generated function: what is inserted ahead of
    the body, the body, and the [ret] after a body that is left open. *)
Lemma generateFunction_shape func s f s' :
  generateFunction func s = Ok (f, s') ->
  symbolTableStack s' = symbolTableStack s
  /\ exists entry prologue s1 s2 terminated,
    emitted s1 = emitted s ++ prologue
    /\ Forall (fun e => fst e = Some entry) prologue
    /\ Forall (fun e => isTerminator (snd e) = false) prologue
    /\ block_parent s1 !! entry = Some ("entry", Some (fn_id f))
    /\ Forall2 (fun p e =>
                  exists id cell,
                    snd e = ILoad id PointerTy (AllocaInst cell PointerTy)
                                  (param_name p +:+ "_loaded")
                    /\ In (IAlloca cell PointerTy (param_name p +:+ "_addr"))
                          (map snd prologue))
               (filter (fun p => param_isArray p = true) (params func))
               (cell_loads prologue)
    /\ NoDup (map loaded_cell (cell_loads prologue))
    /\ (Inv true s -> Inv true s1)
    /\ generateBlock (func_body func) s1 = Ok (tt, s2)
    /\ hasTerminator s2 = Ok (terminated, s2)
    /\ emitted s' = emitted s2
                    ++ (if terminated then []
                        else [(insertBlock s2,
                               IRet (match kind (returnType func) with
                                     | TypeAST.VOID => None
                                     | _ => Some (UndefValue (ft_ret (fn_type f)))
                                     end))])
    /\ insertBlock s' = insertBlock s2.
Proof.
  unfold generateFunction. intros E.
  bsplit E E1. injection E1 as <- <-.
  destruct (lookup_in (symbolTableStack s) (func_name func)); [discriminate|].
  bsplit E E1. rename s0 into sa.
  assert (Ha : emitted sa = emitted s /\ symbolTableStack sa = ∅ :: symbolTableStack s)
    by (injection E1 as _ <-; split; reflexivity).
  clear E1. destruct Ha as [Hea Hsa].
  bsplit E E1. apply getType_pure in E1 as [-> _].
  bsplit E E1. apply mapM_paramTypes_spec in E1 as (-> & Hlen & Hcells).
  cbv zeta in E.
  bsplit E E1. rename s0 into sb.
  match type of E1 with _ = Ok (?x, _) => rename x into llvmFunc end.
  match type of E1 with
  | Function_Create (mkFunctionType ?r _ _) _ _ _ = _ =>
      assert (Hty : ft_ret (fn_type llvmFunc) = r)
  end.
  { unfold Function_Create in E1. bsplit E1 E2.
    unfold fresh, modify in E1. munfold. injection E1 as <- _. reflexivity. }
  apply Function_Create_spec in E1 as (Heb & Hsb & _ & _).
  bsplit E E1. rename s0 into sc.
  match type of E1 with _ = Ok (?x, _) => rename x into entry end.
  apply BasicBlock_Create_spec in E1 as (Hec & Hsc & Hpc).
  bsplit E E1. rename s0 into sd.
  assert (Hd : emitted sd = emitted sc /\ symbolTableStack sd = symbolTableStack sc
               /\ block_parent sd = block_parent sc /\ insertBlock sd = Some entry)
    by (injection E1 as _ <-; repeat split).
  clear E1. destruct Hd as (Hed & Hsd & Hpd & Hbd).
  bsplit E E1. injection E1 as _ <-.
  bsplit E E1. rename s0 into se.
  assert (He : emitted se = emitted sd /\ symbolTableStack se = symbolTableStack sd
               /\ block_parent se = block_parent sd /\ insertBlock se = insertBlock sd)
    by (injection E1 as _ <-; repeat split).
  clear E1. destruct He as (Hee & Hse & Hpe & Hbe).
  bsplit E E1. rename s0 into sf.
  match type of E1 with allocaParams _ (zip _ ?x) _ = _ => rename x into ptys end.
  apply allocaParams_spec in E1 as (-> & Hef & _ & Hbf & Hsf & Hpf).
  bsplit E E1. apply checkInsertBlock_pure in E1 as ->.
  bsplit E E1. rename s0 into sg.
  match type of E1 with _ = Ok (?u, _) => destruct u end.
  apply preload_spec in E1 as (Heg & _ & Hpg & Htg & HIg).
  bsplit E E1. apply checkInsertBlock_pure in E1 as ->.
  bsplit E E1. rename s0 into sh.
  match type of E1 with _ = Ok (?u, _) => destruct u end.
  set (pp := zip (params func) ptys) in *. set (n0 := nextId se) in *.
  rewrite Hbf, Hbe, Hbd in Heg. rewrite Hbe, Hbd in Hef.
  destruct (preload_log_spec (Some entry) pp Hcells n0 0%nat (nextId sf))
    as (Hc & Hf & Hn).
  assert (HIg' : Inv true s -> Inv true sg).
  { intros HI. apply HIg; [|apply infos_of_ok; exact Hcells].
    intros _. rewrite Hsf, Hse, Hsd, Hsc, Hsb, Hsa.
    constructor; [apply map_Forall_empty|exact (HI eq_refl)]. }
  destruct (frame_of _ _ (triple_generateStmt false (BlockStmt (func_body func)))
              _ _ _ E1) as (Hsh & _).
  (* what follows the body *)
  bsplit E E2.
  match type of E2 with _ = Ok (?x, _) => rename x into terminated end.
  pose proof (hasTerminator_pure _ _ _ E2) as ->.
  bsplit E E3. rename s0 into si.
  assert (Hret : si = (if terminated then sh
                       else set_emitted
                              (emitted sh
                               ++ [(insertBlock sh,
                                    IRet (match kind (returnType func) with
                                          | TypeAST.VOID => None
                                          | _ => Some (UndefValue
                                                         (ft_ret (fn_type llvmFunc)))
                                          end))]) sh)).
  { rewrite Hty. destruct terminated.
    - injection E3 as _ <-. reflexivity.
    - destruct (kind (returnType func)); injection E3 as _ <-; reflexivity. }
  clear E3.
  assert (Hsi : symbolTableStack si = symbolTableStack sh
                /\ insertBlock si = insertBlock sh
                /\ emitted si
                   = emitted sh
                     ++ (if terminated then []
                         else [(insertBlock sh,
                                IRet (match kind (returnType func) with
                                      | TypeAST.VOID => None
                                      | _ => Some (UndefValue
                                                     (ft_ret (fn_type llvmFunc)))
                                      end))])).
  { rewrite Hret. destruct terminated; [rewrite app_nil_r|]; repeat split. }
  clear Hret. destruct Hsi as (Hsi & Hbi & Hei).
  bsplit E E3. unfold popScope in E3.
  destruct (symbolTableStack si) as [|top outer] eqn:Esi; [discriminate|].
  injection E3 as _ <-.
  bsplit E E3. injection E3 as _ <-.
  bsplit E E3. injection E3 as <- <-.
  match type of E with
  | match ?b with _ => _ end _ = _ => destruct b; [discriminate|]
  end.
  injection E as <- <-.
  split.
  { simpl. rewrite Hsh in Hsi.
    assert (Ht : tail (symbolTableStack sg) = symbolTableStack s)
      by (rewrite Htg, Hsf, Hse, Hsd, Hsc, Hsb, Hsa; reflexivity).
    rewrite <- Hsi in Ht. exact Ht. }
  exists entry,
         (alloca_log (Some entry) n0 0 pp
          ++ preload_log (Some entry) (nextId sf) (infos_of n0 pp)),
         sg, sh, terminated.
  split; [|split; [|split; [|split; [|split; [|split; [|split; [|split;
    [|split; [|split]]]]]]]]].
  - rewrite Heg, Hef, Hee, Hed, Hec, Heb, Hea, <- app_assoc. reflexivity.
  - apply Forall_app. split.
    + apply alloca_log_block.
    + apply preload_log_block.
  - apply Forall_app. split.
    + apply alloca_log_open.
    + apply preload_log_open.
  - rewrite Hpg, Hpf, Hpe, Hpd. exact Hpc.
  - rewrite cell_loads_app, alloca_log_no_load, Hc. simpl.
    subst pp. rewrite (map_fst_zip _ _ Hlen) in Hf.
    eapply Forall2_impl; [exact Hf|].
    intros p e (id & cell & -> & _ & Hin). exists id, cell. split; [reflexivity|].
    rewrite map_app. apply in_or_app. left.
    apply (in_map snd) in Hin. exact Hin.
  - rewrite cell_loads_app, alloca_log_no_load, Hc. exact Hn.
  - exact HIg'.
  - exact E1.
  - exact E2.
  - exact Hei.
  - exact Hbi.
Qed.

Lemma generateFunction_cells func s f s' :
  Inv true s ->
  generateFunction func s = Ok (f, s') ->
  symbolTableStack s' = symbolTableStack s
  /\ exists entry prologue s1 s2 rest,
    emitted s1 = emitted s ++ prologue
    /\ Forall (fun e => fst e = Some entry) prologue
    /\ block_parent s1 !! entry = Some ("entry", Some (fn_id f))
    /\ Forall2 (fun p e =>
                  exists id cell,
                    snd e = ILoad id PointerTy (AllocaInst cell PointerTy)
                                  (param_name p +:+ "_loaded")
                    /\ In (IAlloca cell PointerTy (param_name p +:+ "_addr"))
                          (map snd prologue))
               (filter (fun p => param_isArray p = true) (params func))
               (cell_loads prologue)
    /\ NoDup (map loaded_cell (cell_loads prologue))
    /\ generateBlock (func_body func) s1 = Ok (tt, s2)
    /\ emitted s' = emitted s1 ++ rest
    /\ Forall (fun e => uses_cell (snd e) = false) rest.
Proof.
  intros HI E.
  destruct (generateFunction_shape func s f s' E)
    as (Hs & entry & prologue & s1 & s2 & terminated
        & Hp & Hentry & _ & Hparent & Hloads & Hdup & HI1 & Eb & _ & He & _).
  split; [exact Hs|].
  destruct (triple_generateStmt true (BlockStmt (func_body func)) _ _ _ (HI1 HI) Eb)
    as (_ & ((_ & _ & body & Hbody & Hnone) & _) & _).
  exists entry, prologue, s1, s2,
         (body ++ (if terminated then []
                   else [(insertBlock s2,
                          IRet (match kind (returnType func) with
                                | TypeAST.VOID => None
                                | _ => Some (UndefValue (ft_ret (fn_type f)))
                                end))])).
  repeat (split; [assumption|]). split.
  - rewrite He, Hbody, <- app_assoc. reflexivity.
  - apply Forall_app. split.
    + eapply Forall_impl; [exact Hnone|]. intros e Hx. exact Hx.
    + destruct terminated; [constructor|]. constructor; [|constructor].
      destruct (kind (returnType func)); reflexivity.
Qed.

(** X18.  In a function generated where the symbols are as [sym_ok]
    says, the loads of pointer cells are one for each array parameter,
    from the cell made for that parameter, each from a cell of its own,
    all in the entry block and ahead of the body; no instruction of the
    body or after it has a pointer cell among its operands: none loads
    from a cell, stores a cell or into one, indexes, passes or returns
    one. *)
Theorem array_parameter_preload func s f s' :
  Inv true s ->
  generateFunction func s = Ok (f, s') ->
  exists entry prologue s1 s2 rest,
    emitted s1 = emitted s ++ prologue
    /\ Forall (fun e => fst e = Some entry) prologue
    /\ block_parent s1 !! entry = Some ("entry", Some (fn_id f))
    /\ Forall2 (fun p e =>
                  exists id cell,
                    snd e = ILoad id PointerTy (AllocaInst cell PointerTy)
                                  (param_name p +:+ "_loaded")
                    /\ In (IAlloca cell PointerTy (param_name p +:+ "_addr"))
                          (map snd prologue))
               (filter (fun p => param_isArray p = true) (params func))
               (cell_loads prologue)
    /\ NoDup (map loaded_cell (cell_loads prologue))
    /\ generateBlock (func_body func) s1 = Ok (tt, s2)
    /\ emitted s' = emitted s1 ++ rest
    /\ Forall (fun e => uses_cell (snd e) = false) rest.
Proof. intros HI E. exact (proj2 (generateFunction_cells func s f s' HI E)). Qed.

(** *** The whole module *)

Lemma generateFunctions_cells fs : forall b s b' s',
  Inv true s ->
  generateFunctions fs b s = Ok (b', s') ->
  symbolTableStack s' = symbolTableStack s
  /\ exists new,
       emitted s' = emitted s ++ new
       /\ length (cell_loads new)
          = length (filter (fun p => param_isArray p = true) (flat_map params fs)).
Proof.
  induction fs as [|func rest IH]; intros b s b' s' HI E; cbn [generateFunctions] in E.
  - injection E as _ <-. split; [reflexivity|]. exists []. rewrite app_nil_r.
    split; reflexivity.
  - bsplit E E1.
    assert (s0 = s) as ->.
    { destruct (String.eqb (func_name func) "main"); [|injection E1 as _ <-; reflexivity].
      destruct b; [discriminate|].
      match type of E1 with (if ?c then _ else _) _ = _ => destruct c end;
        [discriminate|injection E1 as _ <-; reflexivity]. }
    clear E1. bsplit E E1.
    destruct (generateFunction_cells _ _ _ _ HI E1)
      as (Hs & entry & prologue & s1 & s2 & rest' & Hp & _ & _ & Hf & _ & _ & Hr & Hnone).
    assert (HI0 : Inv true s0) by (intros _; rewrite Hs; exact (HI eq_refl)).
    destruct (IH _ _ _ _ HI0 E) as (Hs' & new & Hnew & Hcount).
    split; [congruence|].
    exists (prologue ++ rest' ++ new). split.
    + rewrite Hnew, Hr, Hp, <- !app_assoc. reflexivity.
    + cbn [flat_map]. rewrite filter_app, !length_app, !cell_loads_app, !length_app.
      rewrite (no_cell_no_load _ Hnone), Hcount. apply Forall2_length in Hf. simpl. lia.
Qed.

Lemma declareLibraryFunction_quiet key name ret ps variadic create s a s' :
  declareLibraryFunction key name ret ps variadic create s = Ok (a, s') ->
  emitted s' = emitted s /\ symbolTableStack s' = symbolTableStack s.
Proof.
  unfold declareLibraryFunction. intros E. bsplit E E1.
  injection E as _ <-. simpl.
  destruct create.
  - bsplit E1 E2. apply Function_Create_spec in E2 as (He & Hs & _).
    injection E1 as _ <-. split; assumption.
  - injection E1 as _ <-. split; reflexivity.
Qed.

Lemma declareLibraryFunctions_quiet s a s' :
  declareLibraryFunctions s = Ok (a, s') ->
  emitted s' = emitted s /\ symbolTableStack s' = symbolTableStack s.
Proof.
  unfold declareLibraryFunctions, declareTimeFunction. intros E.
  repeat match type of E with
         | mbind _ (declareLibraryFunction _ _ _ _ _ _) _ = _ =>
             let E1 := fresh "E" in
             bsplit E E1; apply declareLibraryFunction_quiet in E1 as [? ?]
         | mbind _ (mbind _ (declareLibraryFunction _ _ _ _ _ _)) _ = _ =>
             let E1 := fresh "E" in
             let E2 := fresh "E" in
             bsplit E E1; bsplit E1 E2;
             apply declareLibraryFunction_quiet in E2 as [? ?];
             apply declareLibraryFunction_quiet in E1 as [? ?]
         end.
  apply declareLibraryFunction_quiet in E as [? ?].
  split; congruence.
Qed.

End ArrayParameters.

(** ** The cells of array parameters in the module *)

Section ModuleCells.
Import IRGenerator GenSpec.
Context `{IRBuilderFolder} {V : Verifier}.

(** X19.  In the module generated for a compilation unit, the loads of
    pointer cells are as many as the functions of the unit have array
    parameters. *)
Theorem module_cell_loads compUnit s s' :
  generate compUnit s = Ok (tt, s') ->
  exists new,
    emitted s' = emitted s ++ new
    /\ length (cell_loads new)
       = length (filter (fun p => param_isArray p = true)
                        (flat_map params (functions compUnit))).
Proof.
  unfold generate. intros E.
  apply bind_inv in E as (u0 & sa & E1 & E). injection E1 as _ <-.
  apply bind_inv in E as (u1 & sb & E1 & E). injection E1 as _ <-.
  apply bind_inv in E as (u2 & sc & E1 & E).
  apply declareLibraryFunctions_quiet in E1 as [Hec Hsc].
  assert (HIc : Inv true sc).
  { intros _. rewrite Hsc. simpl. constructor; [apply map_Forall_empty|constructor]. }
  apply bind_inv in E as (u3 & sd & E1 & E).
  assert (Hdecls : GenSpec.triple true (Rt true)
                     (forM_ (decls compUnit) generateDecl) (fun _ => True)).
  { apply (triple_forM_ true). exact (Rt_refl true). exact (Rt_Rt true).
    intros d _. apply triple_generateDecl. }
  destruct (Hdecls _ _ _ HIc E1) as (HId & ((_ & _ & newd & Hed & Hnd) & _) & _).
  clear E1. apply bind_inv in E as (hasMain & se & E1 & E).
  destruct (generateFunctions_cells _ _ _ _ _ HId E1) as (_ & newf & Hef & Hcount).
  destruct hasMain; [|discriminate].
  apply bind_inv in E as (broken & sf & E2 & E). injection E2 as <- <-.
  destruct (verifyModule se); [discriminate|]. unfold popScope in E.
  destruct (symbolTableStack se); [discriminate|]. injection E as <-.
  exists (newd ++ newf). split.
  - simpl. rewrite Hef, Hed, Hec, <- app_assoc. reflexivity.
  - rewrite cell_loads_app, length_app, Hcount.
    rewrite (no_cell_no_load newd); [reflexivity|].
    eapply Forall_impl; [exact Hnd|]. intros e He. exact He.
Qed.

End ModuleCells.

Section ArrayParametersExamples.
Import IRGenerator GenSpec Examples MoreExamples.

Lemma global_scope_marked : Inv true global_scope.
Proof. intros _. constructor; [apply map_Forall_empty|constructor]. Qed.

Lemma array_parameter_preload_witness :
  exists f s' prologue,
    generateFunction (H := NoFolder) (V := ICmpVerifier) array_reader global_scope
    = Ok (f, s')
    /\ length (cell_loads prologue) = 1%nat
    /\ exists rest, emitted s' = (emitted global_scope ++ prologue) ++ rest
                    /\ Forall (fun e => uses_cell (snd e) = false) rest.
Proof.
  destruct (generateFunction (H := NoFolder) (V := ICmpVerifier) array_reader
              global_scope)
    as [[f s']|] eqn:E; [|vm_compute in E; discriminate E].
  destruct (array_parameter_preload (H := NoFolder) (V := ICmpVerifier)
              array_reader global_scope f s'
              global_scope_marked E)
    as (entry & prologue & s1 & s2 & rest & Hp & _ & _ & Hf & _ & _ & Hr & Hnone).
  exists f, s', prologue. split; [reflexivity|]. split.
  - apply Forall2_length in Hf. rewrite <- Hf. reflexivity.
  - exists rest. rewrite <- Hp. split; assumption.
Defined.

Lemma module_cell_loads_witness :
  exists s' new,
    generate (H := NoFolder) (V := ICmpVerifier) reader_unit empty = Ok (tt, s')
    /\ emitted s' = emitted empty ++ new
    /\ length (cell_loads new) = 1%nat.
Proof.
  destruct (generate (H := NoFolder) (V := ICmpVerifier) reader_unit empty)
    as [[[] s']|] eqn:E; [|vm_compute in E; discriminate E].
  destruct (module_cell_loads (H := NoFolder) (V := ICmpVerifier) reader_unit empty
              s' E)
    as (new & Hnew & Hcount).
  exists s', new. split; [reflexivity|]. split; [exact Hnew|exact Hcount].
Defined.

End ArrayParametersExamples.

(** ** What the generator rejects and what it always does *)

Section Checks.
Import IRGenerator GenSpec.
Context `{IRBuilderFolder} {V : Verifier}.

Ltac munfold :=
  unfold lookupSymbol in *;
  unfold mbind, M_bind, mret, M_ret, throw, gets, lift in *;
  cbn beta iota in *.

Local Abbreviation is_main f := (func_name f = "main").

Lemma generateFunctions_main fs : forall b s b' s',
  generateFunctions fs b s = Ok (b', s') ->
  Forall (fun f => is_main f ->
                   kind (returnType f) = TypeAST.INT /\ params f = []) fs
  /\ (if b then filter (fun f => is_main f) fs = [] /\ b' = true
      else length (filter (fun f => is_main f) fs) = (if b' then 1%nat else 0%nat)).
Proof.
  induction fs as [|func rest IH]; intros b s b' s' E; cbn [generateFunctions] in E.
  - injection E as <- _. split; [constructor|]. destruct b; auto.
  - apply bind_inv in E as (b1 & s1 & E1 & E).
    apply bind_inv in E as (f & s2 & _ & E).
    apply IH in E as [Hall Hcount].
    destruct (String.eqb_spec (func_name func) "main") as [Hmain|Hmain].
    + destruct b; [discriminate|].
      destruct (kind (returnType func)) eqn:Ek; try discriminate.
      destruct (params func) as [|p ps] eqn:Ep; [|discriminate].
      injection E1 as <- _. destruct Hcount as [Hnone ->].
      split; [constructor; [auto|exact Hall]|].
      rewrite filter_cons_True by exact Hmain. rewrite Hnone. reflexivity.
    + injection E1 as <- _.
      split; [constructor; [intros Hm; contradiction|exact Hall]|].
      rewrite filter_cons_False by exact Hmain. exact Hcount.
Qed.

(** X20.  A compilation unit for which a module is generated has
    exactly one function named [main], and that function returns [int]
    and has no parameter. *)
Theorem main_required_and_unique compUnit s s' :
  generate compUnit s = Ok (tt, s') ->
  exists before main after,
    functions compUnit = before ++ main :: after
    /\ func_name main = "main"
    /\ kind (returnType main) = TypeAST.INT
    /\ params main = []
    /\ Forall (fun f => func_name f <> "main") (before ++ after).
Proof.
  unfold generate. intros E.
  apply bind_inv in E as (u0 & sa & _ & E).
  apply bind_inv in E as (u1 & sb & _ & E).
  apply bind_inv in E as (u2 & sc & _ & E).
  apply bind_inv in E as (u3 & sd & _ & E).
  apply bind_inv in E as (hasMain & se & E1 & E).
  destruct hasMain; [|discriminate]. clear E.
  apply generateFunctions_main in E1 as [Hall Hcount].
  revert Hall Hcount. generalize (functions compUnit). clear.
  induction l as [|f rest IH]; intros Hall Hcount; [discriminate|].
  apply Forall_cons in Hall as [Hf Hall].
  destruct (decide (func_name f = "main")) as [Hmain|Hmain].
  - rewrite filter_cons_True in Hcount by exact Hmain.
    destruct (Hf Hmain) as [Hk Hp].
    exists [], f, rest. repeat split; try assumption.
    simpl. injection Hcount as Hnone. apply length_zero_iff_nil in Hnone.
    apply Forall_forall. intros g Hg Hgm.
    assert (Hin : g ∈ filter (fun f => is_main f) rest)
      by (apply list_elem_of_filter; split; assumption).
    rewrite Hnone in Hin. inversion Hin.
  - rewrite filter_cons_False in Hcount by exact Hmain.
    destruct (IH Hall Hcount) as (before & main & after & -> & Hm & Hk & Hp & Hno).
    exists (f :: before), main, after. repeat split; try assumption.
    simpl. constructor; assumption.
Qed.



Lemma CreateAlloca_spec ty name s v s' :
  CreateAlloca ty name s = Ok (v, s') ->
  v = AllocaInst (nextId s) ty
  /\ s' = set_emitted (emitted s ++ [(insertBlock s, IAlloca (nextId s) ty name)])
                      (set_nextId (S (nextId s)) s).
Proof.
  destruct (insertBlock s) as [b|] eqn:Hb.
  - rewrite (CreateAlloca_in_block _ _ _ _ Hb). intros E. injection E as <- <-.
    split; reflexivity.
  - unfold CreateAlloca, GetInsertBlock. munfold. rewrite Hb. discriminate.
Qed.

Lemma makeUniqueName_spec taken name tries : forall lastUnique,
  exists k, (lastUnique < k)%nat
            /\ makeUniqueName tries taken name lastUnique
               = (name +:+ "." +:+ pretty k, k).
Proof.
  induction tries as [|tries IH]; intros lastUnique; cbn [makeUniqueName].
  - exists (S lastUnique). split; [lia|reflexivity].
  - destruct (taken (name +:+ "." +:+ pretty (S lastUnique))).
    + destruct (IH (S lastUnique)) as (k & Hk & ->). exists k. split; [lia|reflexivity].
    + exists (S lastUnique). split; [lia|reflexivity].
Qed.

(** The name a global value gets: the one asked for when it is free,
    and the name with a dot and a number of the counter otherwise. *)
Lemma uniqueName_name name s n s' :
  uniqueName name s = Ok (n, s') ->
  if nameTaken name s
  then exists k, (lastUnique s < k)%nat /\ n = name +:+ "." +:+ pretty k
  else n = name.
Proof.
  unfold uniqueName. destruct (nameTaken name s).
  - destruct (makeUniqueName_spec (fun n => nameTaken n s) name
                (length (module_functions s) + length (module_globals s))
                (lastUnique s)) as (k & Hk & ->).
    intros E. injection E as <- _. exists k. split; [exact Hk|reflexivity].
  - intros E. injection E as <- _. reflexivity.
Qed.




Lemma hasTerminator_frame s s' b :
  insertBlock s' = insertBlock s -> emitted s' = emitted s ->
  hasTerminator s = Ok (b, s) -> hasTerminator s' = Ok (b, s').
Proof.
  intros Hb He. unfold hasTerminator, GetInsertBlock. munfold. rewrite Hb.
  destruct (insertBlock s); [|discriminate].
  intros E. injection E as <-. unfold block_instrs. rewrite He. reflexivity.
Qed.

Lemma hasTerminator_after_ret s b v :
  hasTerminator s = Ok (b, s) ->
  hasTerminator (set_emitted (emitted s ++ [(insertBlock s, IRet v)]) s)
  = Ok (true, set_emitted (emitted s ++ [(insertBlock s, IRet v)]) s).
Proof.
  unfold hasTerminator, GetInsertBlock, block_instrs. munfold. simpl.
  destruct (insertBlock s) as [bb|]; [|discriminate]. intros _.
  cbn [emitted set_emitted].
  rewrite filter_app, map_app,
    filter_cons_True
    by (simpl; rewrite bool_decide_eq_true_2 by reflexivity; exact I).
  simpl. rewrite last_snoc. reflexivity.
Qed.

(** X24.  When a function has been generated, the block at which the
    builder stands ends with a terminator.  Ahead of the body only
    instructions that are no terminators are inserted; after a body
    that ends with a terminator nothing is inserted, and after a body
    that does not, one [ret] is inserted into the block at which the
    builder stands: [ret void] in a function declared [void] and
    [ret undef] of the return type of the function in any other. *)
Theorem function_ends_with_terminator func s f s' :
  generateFunction func s = Ok (f, s') ->
  exists prologue s1 s2 terminated,
    emitted s1 = emitted s ++ prologue
    /\ Forall (fun e => isTerminator (snd e) = false) prologue
    /\ generateBlock (func_body func) s1 = Ok (tt, s2)
    /\ hasTerminator s2 = Ok (terminated, s2)
    /\ emitted s' = emitted s2
                    ++ (if terminated then []
                        else [(insertBlock s2,
                               IRet (match kind (returnType func) with
                                     | TypeAST.VOID => None
                                     | _ => Some (UndefValue (ft_ret (fn_type f)))
                                     end))])
    /\ insertBlock s' = insertBlock s2
    /\ hasTerminator s' = Ok (true, s').
Proof.
  intros E.
  destruct (generateFunction_shape func s f s' E)
    as (_ & entry & prologue & s1 & s2 & terminated
        & Hp & _ & Hopen & _ & _ & _ & _ & Eb & Et & He & Hb).
  exists prologue, s1, s2, terminated.
  repeat (split; [assumption|]).
  destruct terminated.
  - rewrite app_nil_r in He. exact (hasTerminator_frame s2 s' true Hb He Et).
  - apply (hasTerminator_frame
             (set_emitted (emitted s2 ++ [(insertBlock s2,
                IRet (match kind (returnType func) with
                      | TypeAST.VOID => None
                      | _ => Some (UndefValue (ft_ret (fn_type f)))
                      end))]) s2) s' true Hb He).
    exact (hasTerminator_after_ret _ _ _ Et).
Qed.

(** X25.  A call of [starttime] or [stoptime] is one call of
    [_sysy_starttime] or [_sysy_stoptime] with the line of the call as
    its only argument: the arguments written in the call are neither
    counted nor lowered. *)
Theorem timer_calls_pass_the_line s line args f :
  (getFunction "_sysy_starttime" s = Some f ->
   generateCallExpr "starttime" line args s
   = CreateCall f [ConstantInt Int32Ty line]
                (if isVoidTy (ft_ret (fn_type f)) then "" else "calltmp") s)
  /\ (getFunction "_sysy_stoptime" s = Some f ->
      generateCallExpr "stoptime" line args s
      = CreateCall f [ConstantInt Int32Ty line]
                   (if isVoidTy (ft_ret (fn_type f)) then "" else "calltmp") s).
Proof.
  split; intros Hf; unfold generateCallExpr; munfold; simpl; rewrite Hf;
    destruct (isVoidTy (ft_ret (fn_type f))); reflexivity.
Qed.

Lemma generateExprForArraySize_pure e s v s' :
  generateExprForArraySize e s = Ok (v, s') -> s' = s.
Proof.
  unfold generateExprForArraySize.
  destruct e as [z l|z l|n idx l|op a b l|op a l|fn args l|str l]; try discriminate.
  - munfold. destruct (z <? 0); [discriminate|]. intros E. injection E as _ <-.
    reflexivity.
  - munfold. destruct (lookup_in (symbolTableStack s) n) as [sym|]; [|discriminate].
    destruct (IRGenerator.value sym); try discriminate.
    destruct (getGlobal id s) as [g|]; [|discriminate].
    destruct (negb (gv_isConstant g)); [discriminate|].
    destruct (gv_initializer g) as [[]|]; try discriminate.
    match goal with |- context [if ?c then _ else _] => destruct c end;
      [discriminate|].
    intros E. injection E as _ <-. reflexivity.
  - intros E. apply bind_inv in E as (z & s1 & E1 & E).
    apply evaluateConstExpr_pure in E1. injection E as _ <-. exact E1.
  - intros E. apply bind_inv in E as (z & s1 & E1 & E).
    apply evaluateConstExpr_pure in E1. injection E as _ <-. exact E1.
Qed.

Lemma evalArraySizes_pure sizeExprs : forall s sizes s',
  evalArraySizes generateExprForArraySize sizeExprs s = Ok (sizes, s') -> s' = s.
Proof.
  induction sizeExprs as [|e rest IH]; intros s sizes s' E; cbn [evalArraySizes] in E.
  - injection E as _ <-. reflexivity.
  - apply bind_inv in E as (v & s1 & E1 & E).
    apply generateExprForArraySize_pure in E1 as ->.
    destruct v; try discriminate.
    destruct (wrap32 v <? 0); [discriminate|].
    apply bind_inv in E as (sizes' & s2 & E1 & E).
    apply IH in E1 as ->. injection E as _ <-. reflexivity.
Qed.

(** X27.  The cell of a local variable is allocated where its
    declaration stands: the first instruction a declaration of one
    local variable inserts is the [alloca] of the variable, in the
    block at which the builder stands, not in the entry block of the
    function. *)
Theorem local_cell_allocated_where_declared s f type def s' :
  currentFunction s = Some f ->
  generateDecl (VarDeclAST type [def]) s = Ok (tt, s') ->
  exists id ty rest,
    emitted s' = emitted s ++ (insertBlock s, IAlloca id ty (def_name def)) :: rest.
Proof.
  intros Hcur E. unfold generateDecl in E.
  apply bind_inv in E as (varType & s0 & Et & E).
  apply getType_pure in Et as [-> _]. cbn [forM_] in E.
  apply bind_inv in E as (u & s1 & E & Eend). injection Eend as <-.
  unfold generateVarDef in E.
  destruct (isVectorTy varType && negb (bool_decide (arraySizes def = [])));
    [discriminate|].
  apply bind_inv in E as (sizes & s2 & E1 & E). cbv zeta in E.
  apply evalArraySizes_pure in E1 as ->.
  apply bind_inv in E as (cur & s3 & E1 & E). injection E1 as <- <-.
  rewrite Hcur in E.
  apply bind_inv in E as (alloca & sa & E1 & E).
  assert (Ha : emitted sa
               = emitted s ++ [(insertBlock s,
                                IAlloca (nextId s) (arrayTypeOf varType sizes)
                                        (def_name def))]).
  { apply CreateAlloca_spec in E1 as [_ ->]. reflexivity. }
  clear E1.
  apply bind_inv in E as (u1 & sb & E1 & E).
  assert (Hb : exists new, emitted sb = emitted sa ++ new).
  { destruct (initVal def) as [iv|].
    - apply (frame_of _ _ (triple_generateInitVal false _ _ _ _ (clean_off _))) in E1
        as (_ & _ & _ & _ & _ & Hnew). exact Hnew.
    - injection E1 as _ <-. exists []. rewrite app_nil_r. reflexivity. }
  destruct Hb as (new & Hb). unfold addSymbol in E.
  destruct (symbolTableStack sb) as [|scope outer]; [discriminate|].
  destruct (scope !! def_name def); [discriminate|]. injection E as _ <-.
  exists (nextId s), (arrayTypeOf varType sizes), new.
  simpl. rewrite Hb, Ha, <- app_assoc. reflexivity.
Qed.

Lemma paramTypes_types param s pt s' :
  paramTypes param s = Ok (pt, s') ->
  if param_isArray param then fst pt = PointerTy
  else getType (param_type param) s = Ok (fst pt, s).
Proof.
  unfold paramTypes. intros E. apply bind_inv in E as (ty & s0 & E1 & E).
  destruct (getType_pure _ _ _ _ E1) as [-> _].
  destruct (param_isArray param).
  - apply bind_inv in E as (ety & s1 & _ & E). injection E as <- _. reflexivity.
  - injection E as <- _. exact E1.
Qed.

(** X28.  The function made for a definition has the name of the
    definition when no function or global object of the module has it,
    and that name with a dot and a number otherwise; it is never
    variadic, has internal linkage unless the definition is named
    [main], returns the type of the definition, and takes a pointer for
    every array parameter and the declared type for every other
    parameter. *)
Theorem function_signature_and_linkage func s f s' s1 :
  generateFunction func s = Ok (f, s') ->
  pushScope s = Ok (tt, s1) ->
  (if nameTaken (func_name func) s
   then exists k, (lastUnique s < k)%nat
                  /\ fn_name f = func_name func +:+ "." +:+ pretty k
   else fn_name f = func_name func)
  /\ fn_linkage f = (if String.eqb (func_name func) "main"
                     then ExternalLinkage else InternalLinkage)
  /\ ft_isVarArg (fn_type f) = false
  /\ getType (returnType func) s1 = Ok (ft_ret (fn_type f), s1)
  /\ Forall2 (fun p ty => if param_isArray p then ty = PointerTy
                          else getType (param_type p) s1 = Ok (ty, s1))
             (params func) (ft_params (fn_type f)).
Proof.
  unfold generateFunction. intros E Hpush.
  apply bind_inv in E as (existing & s0 & E0 & E).
  injection E0 as <- <-.
  destruct (lookup_in (symbolTableStack s) (func_name func)); [discriminate|].
  apply bind_inv in E as (u & sa & E1 & E).
  assert (sa = s1) as -> by congruence. clear E1.
  assert (Htaken : nameTaken (func_name func) s1 = nameTaken (func_name func) s
                   /\ lastUnique s1 = lastUnique s)
    by (injection Hpush as <-; split; reflexivity).
  destruct Htaken as [Htaken Hlast].
  apply bind_inv in E as (retType & sb & Eret & E).
  destruct (getType_pure _ _ _ _ Eret) as [-> _].
  apply bind_inv in E as (ptys & sc & Eptys & E). cbv zeta in E.
  assert (Hparams : sc = s1
                    /\ Forall2 (fun p ty => if param_isArray p then ty = PointerTy
                                            else getType (param_type p) s1 = Ok (ty, s1))
                               (params func) (map fst ptys)).
  { clear E. revert ptys sc Eptys. generalize (params func).
    induction l as [|p rest IH]; intros ptys sc E; cbn [mapM] in E.
    - injection E as <- <-. split; [reflexivity|constructor].
    - apply bind_inv in E as (pt & sd & E1 & E).
      pose proof (paramTypes_types _ _ _ _ E1) as Hp.
      apply paramTypes_spec in E1 as [-> _].
      apply bind_inv in E as (pts & se & E1 & E).
      apply IH in E1 as [-> Hrest]. injection E as <- <-.
      split; [reflexivity|]. constructor; assumption. }
  destruct Hparams as [-> Hparams].
  apply bind_inv in E as (llvmFunc & sd & Ef & E).
  assert (Hf : exists id name,
                 llvmFunc = mkLLVMFunction id name
                   (mkFunctionType retType (map fst ptys) false)
                   (if String.eqb (func_name func) "main"
                    then ExternalLinkage else InternalLinkage)
                 /\ if nameTaken (func_name func) s
                    then exists k, (lastUnique s < k)%nat
                                   /\ name = func_name func +:+ "." +:+ pretty k
                    else name = func_name func).
  { unfold Function_Create in Ef. apply bind_inv in Ef as (name & sx & En & Ef).
    apply uniqueName_name in En. rewrite Htaken, Hlast in En.
    unfold fresh, modify in Ef. munfold. injection Ef as <- _.
    eexists _, name. split; [reflexivity|exact En]. }
  clear Ef. destruct Hf as (id & name & -> & Hname).
  do 14 (let a := fresh "a" in let sx := fresh "s" in
         apply bind_inv in E as (a & sx & _ & E)).
  match type of E with
  | match ?x with _ => _ end _ = _ => destruct x; [discriminate|]
  end.
  injection E as <- _. simpl.
  repeat split; assumption.
Qed.

(** X29.  A variable declared without an initializer: at global level
    it becomes a global object that is not constant, has external
    linkage and the zero initializer of its type, under the name of the
    variable when no function or global object of the module has it,
    and no instruction is inserted; inside a function only its [alloca]
    is inserted, and nothing is stored into the cell. *)
Theorem declaration_without_initializer s type def s' :
  initVal def = None ->
  generateDecl (VarDeclAST type [def]) s = Ok (tt, s') ->
  match currentFunction s with
  | None =>
      emitted s' = emitted s
      /\ exists g, last (module_globals s') = Some g
                   /\ (nameTaken (def_name def) s = false -> gv_name g = def_name def)
                   /\ gv_isConstant g = false
                   /\ gv_linkage g = ExternalLinkage
                   /\ gv_initializer g = Some (ConstantAggregateZero (gv_valueType g))
  | Some _ =>
      exists id ty,
        emitted s' = emitted s ++ [(insertBlock s, IAlloca id ty (def_name def))]
  end.
Proof.
  intros Hinit E. unfold generateDecl in E.
  apply bind_inv in E as (varType & s0 & Et & E).
  apply getType_pure in Et as [-> _]. cbn [forM_] in E.
  apply bind_inv in E as (u & s1 & E & Eend). injection Eend as <-.
  unfold generateVarDef in E.
  destruct (isVectorTy varType && negb (bool_decide (arraySizes def = [])));
    [discriminate|].
  apply bind_inv in E as (sizes & s2 & E1 & E). cbv zeta in E.
  apply evalArraySizes_pure in E1 as ->.
  apply bind_inv in E as (cur & s3 & E1 & E). injection E1 as <- <-.
  rewrite Hinit in E.
  destruct (currentFunction s) as [f|].
  - apply bind_inv in E as (alloca & sa & E1 & E).
    assert (Ha : emitted sa
                 = emitted s ++ [(insertBlock s,
                                  IAlloca (nextId s) (arrayTypeOf varType sizes)
                                          (def_name def))]).
    { apply CreateAlloca_spec in E1 as [_ ->]. reflexivity. }
    clear E1.
    apply bind_inv in E as (u1 & sb & E1 & E). injection E1 as _ <-.
    unfold addSymbol in E.
    destruct (symbolTableStack sa) as [|scope outer]; [discriminate|].
    destruct (scope !! def_name def); [discriminate|]. injection E as _ <-.
    exists (nextId s), (arrayTypeOf varType sizes). exact Ha.
  - apply bind_inv in E as (existing & s3 & E1 & E). injection E1 as <- <-.
    destruct (lookup_in (symbolTableStack s) (def_name def)); [discriminate|].
    apply bind_inv in E as (g & sa & E1 & E).
    apply bind_inv in E as (u1 & sb & E2 & E).
    unfold new_GlobalVariable in E1. apply bind_inv in E1 as (n & sn & En & E1).
    pose proof (uniqueName_name _ _ _ _ En) as Hn.
    apply uniqueName_spec in En as (Hen & Hsn & _ & _ & _ & _).
    unfold fresh, modify in E1. munfold.
    injection E1 as <- <-. injection E2 as _ <-.
    unfold addSymbol in E. simpl in E.
    destruct (symbolTableStack sn) as [|scope outer]; [discriminate|].
    destruct (scope !! def_name def); [discriminate|]. injection E as _ <-.
    simpl. split; [exact Hen|].
    rewrite map_app. simpl. rewrite last_snoc. rewrite Nat.eqb_refl.
    eexists. split; [reflexivity|]. simpl. repeat split.
    intros Hfree. rewrite Hfree in Hn. exact Hn.
Qed.

End Checks.

Section ChecksExamples.
Import IRGenerator GenSpec Examples MoreExamples.

Lemma main_required_and_unique_witness :
  exists s' before main after,
    generate (H := NoFolder) (V := ICmpVerifier) main_return_0 empty = Ok (tt, s')
    /\ functions main_return_0 = before ++ main :: after
    /\ func_name main = "main".
Proof.
  destruct (generate (H := NoFolder) (V := ICmpVerifier) main_return_0 empty)
    as [[[] s']|] eqn:E; [|vm_compute in E; discriminate E].
  destruct (main_required_and_unique (H := NoFolder) (V := ICmpVerifier) main_return_0 empty s' E)
    as (before & main & after & Hf & Hm & _).
  exists s', before, main, after. split; [reflexivity|]. split; assumption.
Defined.




Lemma function_ends_with_terminator_witness :
  exists f s' s2,
    generateFunction (H := NoFolder) (V := ICmpVerifier) empty_procedure global_scope
    = Ok (f, s')
    /\ emitted s' = emitted s2 ++ [(insertBlock s2, IRet None)]
    /\ hasTerminator s' = Ok (true, s').
Proof.
  destruct (generateFunction (H := NoFolder) (V := ICmpVerifier) empty_procedure
              global_scope) as [[f s']|] eqn:E; [|vm_compute in E; discriminate E].
  destruct (function_ends_with_terminator (H := NoFolder) (V := ICmpVerifier)
              empty_procedure global_scope f s' E)
    as (prologue & s1 & s2 & terminated & Hp & Hopen & Eb & Et & He & Hb & Hterm).
  exists f, s', s2. split; [reflexivity|]. split; [|exact Hterm].
  destruct terminated; [|exact He].
  exfalso. rewrite app_nil_r in He.
  assert (Hbody : emitted s2 = emitted s1).
  { unfold generateBlock in Eb. cbn [generateStmt func_body empty_procedure] in Eb.
    apply bind_inv in Eb as (u0 & sa & E0 & Eb). injection E0 as _ <-.
    apply bind_inv in Eb as (u1 & sb & E1 & Eb). injection E1 as _ <-.
    unfold popScope in Eb. simpl in Eb. injection Eb as <-. reflexivity. }
  rewrite Hbody, Hp in He.
  vm_compute in E. injection E as _ <-. simpl in He.
  destruct prologue as [|e1 [|e2 rest]]; try discriminate He.
  injection He as <-. apply Forall_inv in Hopen. discriminate Hopen.
Defined.

Lemma timer_calls_pass_the_line_witness :
  exists f,
    getFunction "_sysy_starttime" with_library = Some f
    /\ generateCallExpr (H := NoFolder) "starttime" 7 [] with_library
       = CreateCall f [ConstantInt Int32Ty 7]
                    (if isVoidTy (ft_ret (fn_type f)) then "" else "calltmp")
                    with_library.
Proof.
  destruct (getFunction "_sysy_starttime" with_library) as [f|] eqn:E;
    [|vm_compute in E; discriminate E].
  exists f. split; [reflexivity|].
  exact (proj1 (timer_calls_pass_the_line (H := NoFolder) with_library 7 [] f) E).
Defined.

Lemma local_cell_allocated_where_declared_witness :
  exists f s' id ty rest,
    currentFunction after_local_vector = Some f
    /\ generateDecl (H := NoFolder) int_x_is_1 after_local_vector = Ok (tt, s')
    /\ emitted s' = emitted after_local_vector
                    ++ (insertBlock after_local_vector, IAlloca id ty "x") :: rest.
Proof.
  destruct (currentFunction after_local_vector) as [f|] eqn:Ef;
    [|vm_compute in Ef; discriminate Ef].
  destruct (generateDecl (H := NoFolder) int_x_is_1 after_local_vector)
    as [[[] s']|] eqn:E; [|vm_compute in E; discriminate E].
  destruct (local_cell_allocated_where_declared (H := NoFolder) after_local_vector f
              intT (mkDef "x" [] (Some (ExprInitValAST (lit 1)))) s' Ef E)
    as (id & ty & rest & Hlog).
  exists f, s', id, ty, rest. split; [reflexivity|]. split; [reflexivity|exact Hlog].
Defined.

Lemma function_signature_and_linkage_witness :
  exists f s' g t',
    generateFunction (H := NoFolder) (V := ICmpVerifier) array_reader global_scope
    = Ok (f, s')
    /\ fn_name f = "first"
    /\ fn_linkage f = InternalLinkage
    /\ ft_params (fn_type f) = [PointerTy; Int32Ty]
    /\ generateFunction (H := NoFolder) (V := ICmpVerifier) getint_again with_library
       = Ok (g, t')
    /\ fn_name g = "getint.1".
Proof.
  destruct (generateFunction (H := NoFolder) (V := ICmpVerifier) array_reader
              global_scope) as [[f s']|] eqn:E; [|vm_compute in E; discriminate E].
  destruct (generateFunction (H := NoFolder) (V := ICmpVerifier) getint_again
              with_library) as [[g t']|] eqn:Eg; [|vm_compute in Eg; discriminate Eg].
  destruct (function_signature_and_linkage (H := NoFolder) (V := ICmpVerifier)
              array_reader global_scope f s' _ E eq_refl) as (Hn & Hl & _ & _ & Hp).
  destruct (function_signature_and_linkage (H := NoFolder) (V := ICmpVerifier)
              getint_again with_library g t' _ Eg eq_refl) as (Hg & _).
  exists f, s', g, t'. split; [reflexivity|]. split; [exact Hn|]. split; [exact Hl|].
  split; [|split; [reflexivity|]].
  - apply Forall2_cons_inv_l in Hp as (t1 & r1 & H1 & Hp & ->).
    apply Forall2_cons_inv_l in Hp as (t2 & r2 & H2 & Hp & ->).
    apply Forall2_nil_inv_l in Hp as ->.
    simpl in H1, H2. subst t1. injection H2 as <-. reflexivity.
  - vm_compute in Eg. injection Eg as <- _. reflexivity.
Defined.

Lemma declaration_without_initializer_witness :
  exists s' g,
    generateDecl (H := NoFolder) (VarDeclAST intT [mkDef "g" [lit 4] None]) global_scope
    = Ok (tt, s')
    /\ last (module_globals s') = Some g
    /\ gv_initializer g = Some (ConstantAggregateZero (ArrayTy Int32Ty 4)).
Proof.
  destruct (generateDecl (H := NoFolder) (VarDeclAST intT [mkDef "g" [lit 4] None])
              global_scope) as [[[] s']|] eqn:E; [|vm_compute in E; discriminate E].
  destruct (declaration_without_initializer (H := NoFolder) global_scope intT
              (mkDef "g" [lit 4] None) s' eq_refl E)
    as (_ & g & Hlast & _ & _ & _ & Hinit).
  exists s', g. split; [reflexivity|]. split; [exact Hlast|].
  rewrite Hinit. vm_compute in E. injection E as <-.
  vm_compute in Hlast. injection Hlast as <-. reflexivity.
Defined.

End ChecksExamples.

(** ** The stores of a local array initializer *)

Section LocalArrayInit.
Import IRGenerator InitSpec.
Context `{IRBuilderFolder}.

Ltac munfold :=
  unfold lookupSymbol in *;
  unfold mbind, M_bind, mret, M_ret, throw, gets, lift in *;
  cbn beta iota in *.





End LocalArrayInit.

Section LocalArrayInitExample.
Import IRGenerator InitSpec Examples.


End LocalArrayInitExample.
